(** * RLS security scanner: credential vault, token lifecycle, exposure scan

    A shallow embedding of the repository's core:
    - [lib/encryption]: [getEncryptionKey], [encrypt], [decrypt];
    - [lib/supabase-oauth]: [getValidAccessToken], [refreshAccessToken],
      [storeTokens];
    - [lib/scanner]: [analyzeWithAI], [scanTable], [scanProject].

    JavaScript strings are sequences of UTF-16 code units, Node [Buffer]s are
    lists of bytes.  The vault is written over an interface of the cipher
    (key stream and tag); [aes_256_gcm] is the cipher the code names, AES-256
    in Galois/counter mode as FIPS 197 and NIST SP 800-38D define it, and
    [toy_gcm] is a small instance on which long examples run quickly.
    Everything the repository's code does around the cipher (text codecs,
    blob layout, slicing, guards, error paths) is written out. *)

From Stdlib Require Import ZArith NArith Lia ZifyNat Bool Ascii String Sorted.
From Stdlib.Strings Require Import Byte.
From stdpp Require Import base option list gmap strings pretty.

Local Open Scope N_scope.

(** ** JavaScript values *)

(** A JavaScript string: its UTF-16 code units. *)
Abbreviation jsstring := (list N).

(** A Node [Buffer]. *)
Abbreviation Buffer := (list byte).

(** A string literal of the source (all literals used are ASCII). *)
Definition js (s : string) : jsstring :=
  N_of_ascii <$> list_ascii_of_string s.

(** Storing a number into a [Buffer] slot keeps its low 8 bits. *)
Definition u8 (n : N) : byte :=
  default x00 (Byte.of_N (n mod 256)).

#[global] Instance byte_eq_dec : EqDecision byte := Byte.byte_eq_dec.

(** Outcome of a call that may throw. *)
Inductive result (E A : Type) : Type :=
  | Ok (a : A)
  | Err (e : E).
Arguments Ok {E A} a.
Arguments Err {E A} e.

#[global] Instance result_ret {E} : MRet (result E) := fun A a => Ok a.
#[global] Instance result_bind {E} : MBind (result E) :=
  fun A B f m => match m with Ok a => f a | Err e => Err e end.

(** ** Text codecs of Node's [Buffer] *)

Module Utf8.

Definition is_high (u : N) : bool := (0xD800 <=? u) && (u <=? 0xDBFF).
Definition is_low (u : N) : bool := (0xDC00 <=? u) && (u <=? 0xDFFF).

(** UTF-8 bytes of one code point. *)
Definition of_cp (c : N) : Buffer :=
  if c <? 0x80 then [u8 c]
  else if c <? 0x800 then [u8 (0xC0 + c / 64); u8 (0x80 + c mod 64)]
  else if c <? 0x10000 then
    [u8 (0xE0 + c / 4096); u8 (0x80 + (c / 64) mod 64); u8 (0x80 + c mod 64)]
  else
    [u8 (0xF0 + c / 262144); u8 (0x80 + (c / 4096) mod 64);
     u8 (0x80 + (c / 64) mod 64); u8 (0x80 + c mod 64)].

(** [Buffer.from(s, 'utf8')]: a surrogate pair is one code point, an
    unpaired surrogate is written as U+FFFD. *)
Fixpoint encode (s : jsstring) : Buffer :=
  match s with
  | [] => []
  | u :: rest =>
      if is_high u then
        match rest with
        | lo :: rest' =>
            if is_low lo
            then of_cp (0x10000 + (u - 0xD800) * 1024 + (lo - 0xDC00))
                   ++ encode rest'
            else of_cp 0xFFFD ++ encode rest
        | [] => of_cp 0xFFFD
        end
      else if is_low u then of_cp 0xFFFD ++ encode rest
      else of_cp u ++ encode rest
  end.

Definition is_cont (n : N) : bool := (0x80 <=? n) && (n <=? 0xBF).

(** UTF-16 code units of one code point. *)
Definition to_units (c : N) : jsstring :=
  if c <? 0x10000 then [c]
  else [0xD800 + (c - 0x10000) / 1024; 0xDC00 + (c - 0x10000) mod 1024].

(** Second-byte window of a three-byte sequence led by [n0]. *)
Definition second3 (n0 n1 : N) : bool :=
  if n0 =? 0xE0 then (0xA0 <=? n1) && (n1 <=? 0xBF)
  else if n0 =? 0xED then (0x80 <=? n1) && (n1 <=? 0x9F)
  else is_cont n1.

(** Second-byte window of a four-byte sequence led by [n0]. *)
Definition second4 (n0 n1 : N) : bool :=
  if n0 =? 0xF0 then (0x90 <=? n1) && (n1 <=? 0xBF)
  else if n0 =? 0xF4 then (0x80 <=? n1) && (n1 <=? 0x8F)
  else is_cont n1.

(** [buf.toString('utf8')], also the ['utf8'] output encoding of a decipher:
    a well-formed sequence gives its code point; a byte that starts none, or
    the longest prefix of a sequence that is cut short, gives one U+FFFD, and
    decoding goes on with the byte that did not fit. *)
Fixpoint decode (bs : Buffer) : jsstring :=
  match bs with
  | [] => []
  | b0 :: r0 =>
      let n0 := Byte.to_N b0 in
      if n0 <? 0x80 then n0 :: decode r0
      else if (0xC2 <=? n0) && (n0 <=? 0xDF) then
        match r0 with
        | [] => [0xFFFD]
        | b1 :: r1 =>
            let n1 := Byte.to_N b1 in
            if is_cont n1
            then ((n0 - 0xC0) * 64 + (n1 - 0x80)) :: decode r1
            else 0xFFFD :: decode r0
        end
      else if (0xE0 <=? n0) && (n0 <=? 0xEF) then
        match r0 with
        | [] => [0xFFFD]
        | b1 :: r1 =>
            let n1 := Byte.to_N b1 in
            if second3 n0 n1 then
              match r1 with
              | [] => [0xFFFD]
              | b2 :: r2 =>
                  let n2 := Byte.to_N b2 in
                  if is_cont n2
                  then ((n0 - 0xE0) * 4096 + (n1 - 0x80) * 64 + (n2 - 0x80))
                         :: decode r2
                  else 0xFFFD :: decode r1
              end
            else 0xFFFD :: decode r0
        end
      else if (0xF0 <=? n0) && (n0 <=? 0xF4) then
        match r0 with
        | [] => [0xFFFD]
        | b1 :: r1 =>
            let n1 := Byte.to_N b1 in
            if second4 n0 n1 then
              match r1 with
              | [] => [0xFFFD]
              | b2 :: r2 =>
                  let n2 := Byte.to_N b2 in
                  if is_cont n2 then
                    match r2 with
                    | [] => [0xFFFD]
                    | b3 :: r3 =>
                        let n3 := Byte.to_N b3 in
                        if is_cont n3
                        then to_units ((n0 - 0xF0) * 262144
                                       + (n1 - 0x80) * 4096
                                       + (n2 - 0x80) * 64 + (n3 - 0x80))
                               ++ decode r3
                        else 0xFFFD :: decode r2
                    end
                  else 0xFFFD :: decode r1
              end
            else 0xFFFD :: decode r0
        end
      else 0xFFFD :: decode r0
  end.

(** A string with no unpaired surrogate (and only 16-bit units). *)
Fixpoint well_formed (s : jsstring) : bool :=
  match s with
  | [] => true
  | u :: rest =>
      if is_high u then
        match rest with
        | lo :: rest' => is_low lo && well_formed rest'
        | [] => false
        end
      else negb (is_low u) && (u <? 0x10000) && well_formed rest
  end.

End Utf8.

Module Hex.

Definition digit (n : N) : N :=
  if n <? 10 then 48 + n else 97 + (n - 10).

(** The value of a character as a hexadecimal digit.  Node's decoder looks
    at the low byte of each UTF-16 code unit only, so that U+0130 reads as
    the digit [0] (0x30). *)
Definition value (c : N) : option N :=
  let c := c mod 256 in
  if (48 <=? c) && (c <=? 57) then Some (c - 48)
  else if (97 <=? c) && (c <=? 102) then Some (c - 97 + 10)
  else if (65 <=? c) && (c <=? 70) then Some (c - 65 + 10)
  else None.

(** [buf.toString('hex')], also the ['hex'] output encoding of a cipher. *)
Definition encode (bs : Buffer) : jsstring :=
  b ← bs; [digit (Byte.to_N b / 16); digit (Byte.to_N b mod 16)].

(** [Buffer.from(s, 'hex')]: decoding stops at the first pair that is not
    read as two hexadecimal digits. *)
Fixpoint decode (s : jsstring) : Buffer :=
  match s with
  | a :: b :: rest =>
      match value a, value b with
      | Some x, Some y => u8 (x * 16 + y) :: decode rest
      | _, _ => []
      end
  | _ => []
  end.

End Hex.

Module Base64.

Definition char (n : N) : N :=
  if n <? 26 then 65 + n
  else if n <? 52 then 97 + (n - 26)
  else if n <? 62 then 48 + (n - 52)
  else if n =? 62 then 43 else 47.

(** Both the standard and the URL-safe alphabet are accepted. *)
Definition value (c : N) : option N :=
  if (65 <=? c) && (c <=? 90) then Some (c - 65)
  else if (97 <=? c) && (c <=? 122) then Some (c - 97 + 26)
  else if (48 <=? c) && (c <=? 57) then Some (c - 48 + 52)
  else if (c =? 43) || (c =? 45) then Some 62
  else if (c =? 47) || (c =? 95) then Some 63
  else None.

Definition pad : N := 61.

(** [buf.toString('base64')]. *)
Fixpoint encode (bs : Buffer) : jsstring :=
  match bs with
  | [] => []
  | [a] =>
      let a := Byte.to_N a in
      [char (a / 4); char (a mod 4 * 16); pad; pad]
  | [a; b] =>
      let a := Byte.to_N a in
      let b := Byte.to_N b in
      [char (a / 4); char (a mod 4 * 16 + b / 16); char (b mod 16 * 4); pad]
  | a :: b :: c :: rest =>
      let a := Byte.to_N a in
      let b := Byte.to_N b in
      let c := Byte.to_N c in
      [char (a / 4); char (a mod 4 * 16 + b / 16);
       char (b mod 16 * 4 + c / 64); char (c mod 64)] ++ encode rest
  end.

(** The legal characters up to the first padding character; any other
    character is skipped. *)
Fixpoint sextets (s : jsstring) : list N :=
  match s with
  | [] => []
  | c :: rest =>
      match value c with
      | Some v => v :: sextets rest
      | None => if c =? pad then [] else sextets rest
      end
  end.

Fixpoint groups (vs : list N) : Buffer :=
  match vs with
  | v1 :: v2 :: v3 :: v4 :: rest =>
      [u8 (v1 * 4 + v2 / 16); u8 (v2 mod 16 * 16 + v3 / 4);
       u8 (v3 mod 4 * 64 + v4)] ++ groups rest
  | [v1; v2; v3] => [u8 (v1 * 4 + v2 / 16); u8 (v2 mod 16 * 16 + v3 / 4)]
  | [v1; v2] => [u8 (v1 * 4 + v2 / 16)]
  | _ => []
  end.

(** [Buffer.from(s, 'base64')]. *)
Definition decode (s : jsstring) : Buffer := groups (sextets s).

End Base64.

(** ** The credential vault ([lib/encryption]) *)

(** Bitwise exclusive or of two bytes. *)
Definition byte_xor (a b : byte) : byte :=
  let '(a0, (a1, (a2, (a3, (a4, (a5, (a6, a7))))))) := Byte.to_bits a in
  let '(b0, (b1, (b2, (b3, (b4, (b5, (b6, b7))))))) := Byte.to_bits b in
  Byte.of_bits
    (xorb a0 b0, (xorb a1 b1, (xorb a2 b2, (xorb a3 b3,
    (xorb a4 b4, (xorb a5 b5, (xorb a6 b6, xorb a7 b7))))))).

(** The byte [b] with bit [i] (0 to 7) inverted. *)
Definition flip_bit (i : nat) (b : byte) : byte :=
  byte_xor b (u8 (2 ^ N.of_nat (i mod 8))).

(** [aes-256-gcm] as Node's [crypto] provides it: counter-mode encryption
    (the data is xored with a key stream derived from key and nonce by the AES
    block function) and a 16-byte tag computed from key, nonce and
    ciphertext.  The block function and the tag function are not code of
    this repository; they are the two operations of this interface, and
    [aes_256_gcm] below is the instance that the standards define. *)
Class AesGcm := {
  keystream : Buffer -> Buffer -> nat -> byte;
  gcm_tag : Buffer -> Buffer -> Buffer -> Buffer;
  gcm_tag_length : forall key iv data, length (gcm_tag key iv data) = 16%nat
}.

(** [cipher.update] followed by [cipher.final], on bytes. *)
Definition ctr_xor `{AesGcm} (key iv data : Buffer) : Buffer :=
  imap (fun i b => byte_xor b (keystream key iv i)) data.

Inductive VaultError : Type :=
  | CannotEncryptEmpty      (* 'Cannot encrypt empty string' *)
  | CannotDecryptEmpty      (* 'Cannot decrypt empty string' *)
  | KeyRequired             (* 'ENCRYPTION_KEY environment variable is required. ...' *)
  | KeyWrongLength          (* 'ENCRYPTION_KEY must be 64 hex characters (32 bytes). ...' *)
  | InvalidKeyLength        (* thrown by createCipheriv / createDecipheriv *)
  | InvalidIv               (* thrown by createCipheriv / createDecipheriv *)
  | InvalidTagLength        (* thrown by decipher.setAuthTag *)
  | IntegrityError.         (* thrown by decipher.final: the tag does not verify *)

#[global] Instance VaultError_eq_dec : EqDecision VaultError.
Proof. solve_decision. Defined.

Definition IV_LENGTH : nat := 16.
Definition TAG_LENGTH : nat := 16.
Definition KEY_LENGTH : nat := 32.

(** [getEncryptionKey]; the argument is [process.env.ENCRYPTION_KEY]. *)
Definition getEncryptionKey (env_key : option jsstring) : result VaultError Buffer :=
  match env_key with
  | None | Some [] => Err KeyRequired
  | Some key =>
      if bool_decide (length key ≠ (KEY_LENGTH * 2)%nat) then Err KeyWrongLength
      else Ok (Hex.decode key)
  end.

(** [crypto.createCipheriv] and [crypto.createDecipheriv] check their
    arguments: a 32-byte key, a nonce that is not empty. *)
Definition createCipheriv (key iv : Buffer) : result VaultError unit :=
  if bool_decide (length key ≠ 32%nat) then Err InvalidKeyLength
  else if bool_decide (iv = []) then Err InvalidIv
  else Ok tt.

Definition createDecipheriv (key iv : Buffer) : result VaultError unit :=
  createCipheriv key iv.

(** [decipher.setAuthTag] accepts the tag lengths of NIST SP 800-38D. *)
Definition setAuthTag (authTag : Buffer) : result VaultError unit :=
  if bool_decide (length authTag ∈ [4; 8; 12; 13; 14; 15; 16]%nat) then Ok tt
  else Err InvalidTagLength.

(** [decipher.final]: the tag that was set is compared with the tag computed
    from key, nonce and ciphertext, cut to its length. *)
Definition tag_verifies `{AesGcm} (key iv data authTag : Buffer) : bool :=
  bool_decide (take (length authTag) (gcm_tag key iv data) = authTag).

(** [encrypt]; [iv] is the value of [crypto.randomBytes(IV_LENGTH)]. *)
Definition encrypt `{AesGcm} (env_key : option jsstring) (iv : Buffer)
    (plaintext : jsstring) : result VaultError jsstring :=
  match plaintext with
  | [] => Err CannotEncryptEmpty
  | _ =>
      key ← getEncryptionKey env_key;
      _ ← createCipheriv key iv;
      let encrypted := Hex.encode (ctr_xor key iv (Utf8.encode plaintext)) in
      let authTag := gcm_tag key iv (ctr_xor key iv (Utf8.encode plaintext)) in
      let combined := iv ++ Hex.decode encrypted ++ authTag in
      mret (Base64.encode combined)
  end.

(** [buf.subarray(start, end)] and [array.slice(start, end)]: a negative index
    counts from the end, every index is clamped to the length. *)
Definition rel_index (len : nat) (i : Z) : nat :=
  if (i <? 0)%Z then Z.to_nat (Z.max (Z.of_nat len + i) 0)
  else Nat.min (Z.to_nat i) len.

Definition slice {A} (l : list A) (start stop : Z) : list A :=
  take (rel_index (length l) stop - rel_index (length l) start)%nat
       (drop (rel_index (length l) start) l).

Definition subarray (b : Buffer) (start stop : Z) : Buffer := slice b start stop.

(** [decrypt]. *)
Definition decrypt `{AesGcm} (env_key : option jsstring)
    (encryptedData : jsstring) : result VaultError jsstring :=
  match encryptedData with
  | [] => Err CannotDecryptEmpty
  | _ =>
      key ← getEncryptionKey env_key;
      let combined := Base64.decode encryptedData in
      let len := Z.of_nat (length combined) in
      let iv := subarray combined 0 (Z.of_nat IV_LENGTH) in
      let authTag := subarray combined (len - Z.of_nat TAG_LENGTH) len in
      let encrypted :=
        subarray combined (Z.of_nat IV_LENGTH) (len - Z.of_nat TAG_LENGTH) in
      _ ← createDecipheriv key iv;
      _ ← setAuthTag authTag;
      let data := Hex.decode (Hex.encode encrypted) in
      let decrypted := Utf8.decode (ctr_xor key iv data) in
      if tag_verifies key iv data authTag then mret decrypted
      else Err IntegrityError
  end.

(** A well-formed key setting: 64 characters that [Buffer.from(key, 'hex')]
    reads as hexadecimal digits, that is 32 bytes. *)
Definition well_formed_key (env_key : option jsstring) : bool :=
  match env_key with
  | Some key =>
      Nat.eqb (length key) 64 && forallb (fun c => bool_decide (is_Some (Hex.value c))) key
  | None => false
  end.

(** The sealed bytes of [plaintext] under [key] and nonce [iv]: nonce, then
    ciphertext, then tag. *)
Definition sealed `{AesGcm} (key iv : Buffer) (plaintext : jsstring) : Buffer :=
  iv ++ ctr_xor key iv (Utf8.encode plaintext)
     ++ gcm_tag key iv (ctr_xor key iv (Utf8.encode plaintext)).

(** The buffer [b] with bit [pos mod 8] of byte [pos / 8] inverted. *)
Definition flip_at (pos : nat) (b : Buffer) : Buffer :=
  alter (flip_bit (pos mod 8)) (pos / 8)%nat b.

(** A small instance of the interface, used to run the vault on concrete
    inputs: the key stream repeats the key, the tag is the xor of all bytes
    followed by zeros. *)
Definition toy_keystream (key iv : Buffer) (i : nat) : byte :=
  byte_xor (nth (i mod 32) key x00) (nth (i mod 16) iv x00).

Definition toy_tag (key iv data : Buffer) : Buffer :=
  foldr byte_xor x00 (key ++ iv ++ data) :: replicate 15 x00.

Definition toy_gcm : AesGcm :=
  {| keystream := toy_keystream;
     gcm_tag := toy_tag;
     gcm_tag_length := fun _ _ _ => eq_refl |}.

(** ** The cipher behind ['aes-256-gcm'] (FIPS 197, NIST SP 800-38D) *)

(** The AES block cipher with a 256-bit key.  The state is the 16-byte block
    in input order: byte [r + 4c] stands in row [r] of column [c]. *)
Module Aes.

(** The S-box. *)
Definition sub_byte (b : byte) : byte :=
  match b with
  | x00 => x63 | x01 => x7c | x02 => x77 | x03 => x7b | x04 => xf2 | x05 => x6b | x06 => x6f | x07 => xc5
  | x08 => x30 | x09 => x01 | x0a => x67 | x0b => x2b | x0c => xfe | x0d => xd7 | x0e => xab | x0f => x76
  | x10 => xca | x11 => x82 | x12 => xc9 | x13 => x7d | x14 => xfa | x15 => x59 | x16 => x47 | x17 => xf0
  | x18 => xad | x19 => xd4 | x1a => xa2 | x1b => xaf | x1c => x9c | x1d => xa4 | x1e => x72 | x1f => xc0
  | x20 => xb7 | x21 => xfd | x22 => x93 | x23 => x26 | x24 => x36 | x25 => x3f | x26 => xf7 | x27 => xcc
  | x28 => x34 | x29 => xa5 | x2a => xe5 | x2b => xf1 | x2c => x71 | x2d => xd8 | x2e => x31 | x2f => x15
  | x30 => x04 | x31 => xc7 | x32 => x23 | x33 => xc3 | x34 => x18 | x35 => x96 | x36 => x05 | x37 => x9a
  | x38 => x07 | x39 => x12 | x3a => x80 | x3b => xe2 | x3c => xeb | x3d => x27 | x3e => xb2 | x3f => x75
  | x40 => x09 | x41 => x83 | x42 => x2c | x43 => x1a | x44 => x1b | x45 => x6e | x46 => x5a | x47 => xa0
  | x48 => x52 | x49 => x3b | x4a => xd6 | x4b => xb3 | x4c => x29 | x4d => xe3 | x4e => x2f | x4f => x84
  | x50 => x53 | x51 => xd1 | x52 => x00 | x53 => xed | x54 => x20 | x55 => xfc | x56 => xb1 | x57 => x5b
  | x58 => x6a | x59 => xcb | x5a => xbe | x5b => x39 | x5c => x4a | x5d => x4c | x5e => x58 | x5f => xcf
  | x60 => xd0 | x61 => xef | x62 => xaa | x63 => xfb | x64 => x43 | x65 => x4d | x66 => x33 | x67 => x85
  | x68 => x45 | x69 => xf9 | x6a => x02 | x6b => x7f | x6c => x50 | x6d => x3c | x6e => x9f | x6f => xa8
  | x70 => x51 | x71 => xa3 | x72 => x40 | x73 => x8f | x74 => x92 | x75 => x9d | x76 => x38 | x77 => xf5
  | x78 => xbc | x79 => xb6 | x7a => xda | x7b => x21 | x7c => x10 | x7d => xff | x7e => xf3 | x7f => xd2
  | x80 => xcd | x81 => x0c | x82 => x13 | x83 => xec | x84 => x5f | x85 => x97 | x86 => x44 | x87 => x17
  | x88 => xc4 | x89 => xa7 | x8a => x7e | x8b => x3d | x8c => x64 | x8d => x5d | x8e => x19 | x8f => x73
  | x90 => x60 | x91 => x81 | x92 => x4f | x93 => xdc | x94 => x22 | x95 => x2a | x96 => x90 | x97 => x88
  | x98 => x46 | x99 => xee | x9a => xb8 | x9b => x14 | x9c => xde | x9d => x5e | x9e => x0b | x9f => xdb
  | xa0 => xe0 | xa1 => x32 | xa2 => x3a | xa3 => x0a | xa4 => x49 | xa5 => x06 | xa6 => x24 | xa7 => x5c
  | xa8 => xc2 | xa9 => xd3 | xaa => xac | xab => x62 | xac => x91 | xad => x95 | xae => xe4 | xaf => x79
  | xb0 => xe7 | xb1 => xc8 | xb2 => x37 | xb3 => x6d | xb4 => x8d | xb5 => xd5 | xb6 => x4e | xb7 => xa9
  | xb8 => x6c | xb9 => x56 | xba => xf4 | xbb => xea | xbc => x65 | xbd => x7a | xbe => xae | xbf => x08
  | xc0 => xba | xc1 => x78 | xc2 => x25 | xc3 => x2e | xc4 => x1c | xc5 => xa6 | xc6 => xb4 | xc7 => xc6
  | xc8 => xe8 | xc9 => xdd | xca => x74 | xcb => x1f | xcc => x4b | xcd => xbd | xce => x8b | xcf => x8a
  | xd0 => x70 | xd1 => x3e | xd2 => xb5 | xd3 => x66 | xd4 => x48 | xd5 => x03 | xd6 => xf6 | xd7 => x0e
  | xd8 => x61 | xd9 => x35 | xda => x57 | xdb => xb9 | xdc => x86 | xdd => xc1 | xde => x1d | xdf => x9e
  | xe0 => xe1 | xe1 => xf8 | xe2 => x98 | xe3 => x11 | xe4 => x69 | xe5 => xd9 | xe6 => x8e | xe7 => x94
  | xe8 => x9b | xe9 => x1e | xea => x87 | xeb => xe9 | xec => xce | xed => x55 | xee => x28 | xef => xdf
  | xf0 => x8c | xf1 => xa1 | xf2 => x89 | xf3 => x0d | xf4 => xbf | xf5 => xe6 | xf6 => x42 | xf7 => x68
  | xf8 => x41 | xf9 => x99 | xfa => x2d | xfb => x0f | xfc => xb0 | xfd => x54 | xfe => xbb | xff => x16
  end.

Definition xor_bytes (a b : Buffer) : Buffer := zip_with byte_xor a b.

(** Multiplication by x in GF(2^8), modulo x^8 + x^4 + x^3 + x + 1. *)
Definition xtime (b : byte) : byte :=
  u8 (N.lxor (2 * Byte.to_N b) (if 128 <=? Byte.to_N b then 0x1b else 0)).

Definition sub_bytes (s : Buffer) : Buffer := sub_byte <$> s.

(** Row [r] is rotated left by [r] columns. *)
Definition shift_rows (s : Buffer) : Buffer :=
  (fun i => nth ((i + 4 * (i mod 4)) mod 16) s x00) <$> seq 0 16.

Definition mix_column (a0 a1 a2 a3 : byte) : Buffer :=
  let x := byte_xor in
  let x3 a := byte_xor (xtime a) a in
  [x (x (xtime a0) (x3 a1)) (x a2 a3);
   x (x a0 (xtime a1)) (x (x3 a2) a3);
   x (x a0 a1) (x (xtime a2) (x3 a3));
   x (x (x3 a0) a1) (x a2 (xtime a3))].

Fixpoint mix_columns (s : Buffer) : Buffer :=
  match s with
  | a0 :: a1 :: a2 :: a3 :: rest => mix_column a0 a1 a2 a3 ++ mix_columns rest
  | _ => []
  end.

Definition add_round_key (s k : Buffer) : Buffer := xor_bytes s k.

(** Word [i] of the key schedule [w]. *)
Definition word (w : Buffer) (i : nat) : Buffer := take 4 (drop (4 * i) w).

Definition rot_word (w : Buffer) : Buffer := drop 1 w ++ take 1 w.

Definition rcon (j : nat) : Buffer := [u8 (2 ^ N.of_nat (j - 1)); x00; x00; x00].

(** Words [i], [i + 1], ... of the schedule for an 8-word key, [n] of them,
    appended to the words [w] found so far. *)
Fixpoint expand (n i : nat) (w : Buffer) : Buffer :=
  match n with
  | O => w
  | S n =>
      let temp := word w (i - 1) in
      let temp :=
        if (i mod 8 =? 0)%nat
        then xor_bytes (sub_byte <$> rot_word temp) (rcon (i / 8))
        else if (i mod 8 =? 4)%nat then sub_byte <$> temp
        else temp in
      expand n (S i) (w ++ xor_bytes (word w (i - 8)) temp)
  end.

(** The 60 words of the schedule of a 32-byte key. *)
Definition key_expansion (key : Buffer) : Buffer := expand 52 8 key.

Definition round_key (w : Buffer) (r : nat) : Buffer := take 16 (drop (16 * r) w).

Definition round (w : Buffer) (s : Buffer) (r : nat) : Buffer :=
  add_round_key (mix_columns (shift_rows (sub_bytes s))) (round_key w r).

(** The cipher: 14 rounds, the last one without [mix_columns]. *)
Definition cipher (key input : Buffer) : Buffer :=
  let w := key_expansion key in
  let s := foldl (round w) (add_round_key input (round_key w 0)) (seq 1 13) in
  add_round_key (shift_rows (sub_bytes s)) (round_key w 14).

End Aes.

(** Galois/counter mode.  A block is the number whose big-endian form its 16
    bytes are; as an element of GF(2^128) its bit [127 - i] is the
    coefficient of x^i. *)
Module Gcm.

(** The number with big-endian digits [acc], then [bs]. *)
Fixpoint be (acc : N) (bs : Buffer) : N :=
  match bs with
  | [] => acc
  | b :: bs => be (acc * 256 + Byte.to_N b) bs
  end.

(** The low [len] bytes of [n], big-endian. *)
Fixpoint to_be (len : nat) (n : N) : Buffer :=
  match len with
  | O => []
  | S len => to_be len (n / 256) ++ [u8 n]
  end.

(** A block from at most 16 bytes, filled up with zero bytes. *)
Definition block_of_bytes (bs : Buffer) : N :=
  be 0 (take 16 (bs ++ replicate 16 x00)).

Definition bytes_of_block (b : N) : Buffer := to_be 16 b.

(** The first [n] blocks of [data]. *)
Fixpoint to_blocks (n : nat) (data : Buffer) : list N :=
  match n with
  | O => []
  | S n => block_of_bytes (take 16 data) :: to_blocks n (drop 16 data)
  end.

Definition blocks (data : Buffer) : list N :=
  to_blocks ((length data + 15) / 16) data.

(** The reduction constant: 11100001 followed by 120 zero bits. *)
Definition R : N := 0xE1 * 2 ^ 120.

(** Multiplication by x. *)
Definition mulx (v : N) : N :=
  N.lxor (N.shiftr v 1) (if N.testbit v 0 then R else 0).

(** The sum of [x_i * (v * x^i)] over the [n] bits of [x] from bit [n - 1]
    down. *)
Fixpoint mul_loop (n : nat) (x v : N) : N :=
  match n with
  | O => 0
  | S n => N.lxor (if N.testbit x (N.of_nat n) then v else 0)
                  (mul_loop n x (mulx v))
  end.

(** The product of two blocks in GF(2^128). *)
Definition mul (x y : N) : N := mul_loop 128 x y.

Definition one : N := 2 ^ 127.

(** A map that respects the sum of blocks, their bitwise exclusive or. *)
Definition linear (f : N -> N) : Prop :=
  forall a b, f (N.lxor a b) = N.lxor (f a) (f b).

(** An element with an inverse in GF(2^128). *)
Definition invertible (h : N) : Prop :=
  exists h', h' < 2 ^ 128 /\ mul h h' = one.

Definition ghash_from (h y : N) (xs : list N) : N :=
  foldl (fun y x => mul (N.lxor y x) h) y xs.

Definition ghash (h : N) (xs : list N) : N := ghash_from h 0 xs.

(** The bit lengths of associated data and ciphertext, 64 bits each. *)
Definition len_block (aad_len data_len : nat) : N :=
  (8 * N.of_nat aad_len) mod 2 ^ 64 * 2 ^ 64 + (8 * N.of_nat data_len) mod 2 ^ 64.

Definition encrypt_block (key : Buffer) (b : N) : N :=
  block_of_bytes (Aes.cipher key (bytes_of_block b)).

(** The hash subkey: the encryption of the zero block. *)
Definition hash_subkey (key : Buffer) : N := encrypt_block key 0.

(** The pre-counter block: a 12-byte nonce is followed by the counter 1, a
    nonce of another length is hashed. *)
Definition j0 (key iv : Buffer) : N :=
  if (length iv =? 12)%nat then block_of_bytes (iv ++ [x00; x00; x00; x01])
  else ghash (hash_subkey key) (blocks iv ++ [len_block 0 (length iv)]).

(** The last 32 bits count up, modulo 2^32. *)
Definition inc32 (b : N) : N := b / 2 ^ 32 * 2 ^ 32 + (b + 1) mod 2 ^ 32.

Definition keystream (key iv : Buffer) (i : nat) : byte :=
  nth (i mod 16)
      (bytes_of_block
         (encrypt_block key (Nat.iter (1 + i / 16) inc32 (j0 key iv))))
      x00.

Definition tag (key iv data : Buffer) : Buffer :=
  bytes_of_block
    (N.lxor (encrypt_block key (j0 key iv))
            (ghash (hash_subkey key)
                   (blocks data ++ [len_block 0 (length data)]))).

End Gcm.

(** ['aes-256-gcm'] without associated data. *)
Definition aes_256_gcm : AesGcm :=
  {| keystream := Gcm.keystream;
     gcm_tag := Gcm.tag;
     gcm_tag_length := fun _ _ _ => eq_refl |}.

Definition demo_key : option jsstring :=
  Some (js "000102030405060708090a0b0c0d0e0f101112131415161718191A1B1C1D1E1F").

Definition demo_iv : Buffer :=
  [xa0; xa1; xa2; xa3; xa4; xa5; xa6; xa7; xa8; xa9; xaa; xab; xac; xad; xae; xaf].

(** A Unicode scalar value: a code point that is not a surrogate. *)
Definition scalar (c : N) : Prop :=
  c < 0x110000 /\ ~ (0xD800 <= c <= 0xDFFF).

(** ** Token lifecycle ([lib/supabase-oauth]) *)

Module TokenResponse.
Record t : Type := Build {
  access_token : jsstring;
  refresh_token : jsstring;
  expires_in : Z;              (* seconds, a whole number *)
  token_type : jsstring
}.
End TokenResponse.

(** A row of the [integrations] table.  Timestamps are milliseconds since the
    epoch, the value [new Date(...)] gives for the stored text. *)
Module Integration.
Record t : Type := Build {
  id : jsstring;
  user_id : jsstring;
  provider : jsstring;
  access_token : jsstring;
  refresh_token : jsstring;
  token_expires_at : Z;
  created_at : Z;
  updated_at : Z
}.
End Integration.

(** What [fetch] of the token endpoint gives: it throws, or it resolves to a
    response with its [ok] flag, what [response.text()] gives (nothing when
    reading the body fails) and what [response.json()] gives (nothing when
    the body is not a token response).  The code reads the text of a response
    that is not OK and the JSON of one that is. *)
Inductive FetchOutcome : Type :=
  | FetchThrows
  | Response (ok : bool) (text : option jsstring) (json : option TokenResponse.t).

(** The requests the store can refuse. *)
Inductive DbOp : Type := DbSelect | DbDelete | DbUpdate | DbUpsert.

(** The writes the store has performed. *)
Inductive DbWrite : Type :=
  | Deleted (id : jsstring)
  | Updated (id : jsstring)
  | Upserted (user_id : jsstring).

(** What the process is configured with and talks to. *)
Record Env : Type := {
  ENCRYPTION_KEY : option jsstring;
  cipher : AesGcm;
  token_endpoint : jsstring -> FetchOutcome;   (* by the refresh token posted *)
  round_trip : Z;                              (* time a token request takes *)
  random_source : nat -> Buffer;               (* successive random draws *)
  db_fault : DbOp -> option jsstring;          (* error message of a refused request *)
  fresh_id : list Integration.t -> jsstring    (* primary key given to a new row *)
}.

(** What changes while the code runs. *)
Record World : Type := {
  integrations : list Integration.t;   (* the table *)
  now : Z;                             (* the clock, [Date.now()] *)
  draws : nat;                         (* random draws made so far *)
  token_requests : list jsstring;      (* refresh tokens posted so far *)
  db_writes : list DbWrite             (* writes performed so far *)
}.

Inductive TokenError : Type :=
  | NoIntegrationForUser      (* 'No Supabase integration found for user' *)
  | IntegrationNotFound       (* 'Integration not found' *)
  | ReauthorizationRequired   (* 'Token refresh failed. Please reconnect your Supabase account.' *)
  | FailedToUpdateTokens (message : jsstring)
  | FailedToStoreTokens (message : jsstring)
  | FetchFailed               (* thrown by fetch *)
  | BodyUnreadable            (* thrown by response.text() *)
  | InvalidJson               (* thrown by response.json() *)
  | InvalidTimeValue          (* RangeError 'Invalid time value', thrown by toISOString *)
  | Vault (e : VaultError).   (* thrown by encrypt / decrypt *)

(** An asynchronous function of the module: it may throw, and what it did to
    the world before throwing stays done. *)
Definition Eff (A : Type) : Type := World -> result TokenError A * World.

Definition ret {A} (a : A) : Eff A := fun w => (Ok a, w).
Definition throw {A} (e : TokenError) : Eff A := fun w => (Err e, w).
Definition bind {A B} (m : Eff A) (k : A -> Eff B) : Eff B :=
  fun w => match m w with
           | (Ok a, w') => k a w'
           | (Err e, w') => (Err e, w')
           end.

Notation "'let*' x ':=' m 'in' k" := (bind m (fun x => k))
  (at level 10, x pattern, m at level 100, k at level 200).

Definition lift_vault {A} (r : result VaultError A) : Eff A :=
  match r with Ok a => ret a | Err e => throw (Vault e) end.

Definition same_string (a b : jsstring) : bool := bool_decide (a = b).

(** [.select('*')...single()]: the row when exactly one row matches and the
    store answers, nothing otherwise. *)
Definition select_single (env : Env) (p : Integration.t -> bool) (w : World)
  : option Integration.t :=
  match db_fault env DbSelect with
  | Some _ => None
  | None => match filter (fun r => p r = true) (integrations w) with
            | [r] => Some r
            | _ => None
            end
  end.

(** [.delete().eq('id', id)]; the caller gets the error, if any. *)
Definition delete_by_id (env : Env) (id : jsstring) : Eff (option jsstring) :=
  fun w =>
    match db_fault env DbDelete with
    | Some msg => (Ok (Some msg), w)
    | None =>
        (Ok None,
         {| integrations :=
              filter (fun r => same_string (Integration.id r) id = false)
                     (integrations w);
            now := now w; draws := draws w;
            token_requests := token_requests w;
            db_writes := db_writes w ++ [Deleted id] |})
    end.

(** The four columns [storeTokens] writes. *)
Record TokenData : Type := {
  td_access_token : jsstring;
  td_refresh_token : jsstring;
  td_token_expires_at : Z;
  td_updated_at : Z
}.

Definition with_tokens (d : TokenData) (r : Integration.t) : Integration.t :=
  {| Integration.id := Integration.id r;
     Integration.user_id := Integration.user_id r;
     Integration.provider := Integration.provider r;
     Integration.access_token := td_access_token d;
     Integration.refresh_token := td_refresh_token d;
     Integration.token_expires_at := td_token_expires_at d;
     Integration.created_at := Integration.created_at r;
     Integration.updated_at := td_updated_at d |}.

(** [.update(tokenData).eq('id', id)]: one statement that rewrites the four
    columns of every matching row. *)
Definition update_by_id (env : Env) (d : TokenData) (id : jsstring)
  : Eff (option jsstring) :=
  fun w =>
    match db_fault env DbUpdate with
    | Some msg => (Ok (Some msg), w)
    | None =>
        (Ok None,
         {| integrations :=
              (fun r => if same_string (Integration.id r) id
                        then with_tokens d r else r) <$> integrations w;
            now := now w; draws := draws w;
            token_requests := token_requests w;
            db_writes := db_writes w ++ [Updated id] |})
    end.

(** [.upsert({user_id, provider: 'supabase', ...tokenData},
    {onConflict: 'user_id,provider'})]. *)
Definition upsert_for_user (env : Env) (d : TokenData) (userId : jsstring)
  : Eff (option jsstring) :=
  fun w =>
    match db_fault env DbUpsert with
    | Some msg => (Ok (Some msg), w)
    | None =>
        let hit r := same_string (Integration.user_id r) userId
                     && same_string (Integration.provider r) (js "supabase") in
        let rows :=
          if existsb hit (integrations w)
          then (fun r => if hit r then with_tokens d r else r) <$> integrations w
          else integrations w ++
               [{| Integration.id := fresh_id env (integrations w);
                   Integration.user_id := userId;
                   Integration.provider := js "supabase";
                   Integration.access_token := td_access_token d;
                   Integration.refresh_token := td_refresh_token d;
                   Integration.token_expires_at := td_token_expires_at d;
                   Integration.created_at := now w;
                   Integration.updated_at := td_updated_at d |}] in
        (Ok None,
         {| integrations := rows;
            now := now w; draws := draws w;
            token_requests := token_requests w;
            db_writes := db_writes w ++ [Upserted userId] |})
    end.

(** [crypto.randomBytes(n)]. *)
Definition randomBytes (env : Env) (n : nat) : Eff Buffer :=
  fun w =>
    (Ok (resize n x00 (random_source env (draws w))),
     {| integrations := integrations w; now := now w; draws := S (draws w);
        token_requests := token_requests w; db_writes := db_writes w |}).

(** [encrypt] and [decrypt] as the module calls them.  [encrypt] looks at
    its argument and at the key setting before it draws the nonce. *)
Definition encrypt_call (env : Env) (plaintext : jsstring) : Eff jsstring :=
  match plaintext with
  | [] => throw (Vault CannotEncryptEmpty)
  | _ =>
      let* _ := lift_vault (getEncryptionKey (ENCRYPTION_KEY env)) in
      let* iv := randomBytes env IV_LENGTH in
      lift_vault (encrypt (H:=cipher env) (ENCRYPTION_KEY env) iv plaintext)
  end.

Definition decrypt_call (env : Env) (blob : jsstring) : Eff jsstring :=
  lift_vault (decrypt (H:=cipher env) (ENCRYPTION_KEY env) blob).

(** [fetch(SUPABASE_OAUTH_TOKEN_URL, ...)] with [grant_type=refresh_token]. *)
Definition fetch_token (env : Env) (refreshToken : jsstring) : Eff FetchOutcome :=
  fun w =>
    (Ok (token_endpoint env refreshToken),
     {| integrations := integrations w; now := now w + round_trip env;
        draws := draws w;
        token_requests := token_requests w ++ [refreshToken];
        db_writes := db_writes w |})%Z.

Definition date_now : Eff Z := fun w => (Ok (now w), w).

(** The time values of a [Date]: at most 8.64e15 milliseconds either side of
    the epoch.  [new Date(t)] with another [t] is an invalid date. *)
Definition MAX_TIME_VALUE : Z := 8640000000000000.

Definition valid_time (t : Z) : bool :=
  (- MAX_TIME_VALUE <=? t)%Z && (t <=? MAX_TIME_VALUE)%Z.

(** [new Date(t).toISOString()]: it throws on an invalid date.  The text it
    returns is kept as the time value it stands for. *)
Definition toISOString (t : Z) : Eff Z :=
  if valid_time t then ret t else throw InvalidTimeValue.

(** [storeTokens]. *)
Definition storeTokens (env : Env) (userId : jsstring) (tokens : TokenResponse.t)
    (integrationId : option jsstring) : Eff unit :=
  let* encryptedAccessToken := encrypt_call env (TokenResponse.access_token tokens) in
  let* encryptedRefreshToken := encrypt_call env (TokenResponse.refresh_token tokens) in
  let* t := date_now in
  let expiresAt := (t + TokenResponse.expires_in tokens * 1000)%Z in
  let* token_expires_at := toISOString expiresAt in
  let* updated := date_now in
  let tokenData :=
    {| td_access_token := encryptedAccessToken;
       td_refresh_token := encryptedRefreshToken;
       td_token_expires_at := token_expires_at;
       td_updated_at := updated |} in
  match integrationId with
  | Some (c :: cs) =>
      let* error := update_by_id env tokenData (c :: cs) in
      match error with
      | Some message => throw (FailedToUpdateTokens message)
      | None => ret tt
      end
  | _ =>
      let* error := upsert_for_user env tokenData userId in
      match error with
      | Some message => throw (FailedToStoreTokens message)
      | None => ret tt
      end
  end.

(** [refreshAccessToken]. *)
Definition refreshAccessToken (env : Env) (integrationId : jsstring)
  : Eff TokenResponse.t :=
  fun w =>
    match select_single env
            (fun r => same_string (Integration.id r) integrationId) w with
    | None => throw IntegrationNotFound w
    | Some integration =>
        (let* refreshToken := decrypt_call env (Integration.refresh_token integration) in
         let* response := fetch_token env refreshToken in
         match response with
         | FetchThrows => throw FetchFailed
         | Response false None _ => throw BodyUnreadable
         | Response false (Some errorText) _ =>
             let* _ := delete_by_id env integrationId in
             throw ReauthorizationRequired
         | Response true _ None => throw InvalidJson
         | Response true _ (Some tokens) =>
             let* _ := storeTokens env (Integration.user_id integration) tokens
                         (Some integrationId) in
             ret tokens
         end) w
    end.

(** [getValidAccessToken]. *)
Definition getValidAccessToken (env : Env) (userId : jsstring) : Eff jsstring :=
  fun w =>
    match select_single env
            (fun r => same_string (Integration.user_id r) userId
                      && same_string (Integration.provider r) (js "supabase")) w with
    | None => throw NoIntegrationForUser w
    | Some integration =>
        let expiresAt := Integration.token_expires_at integration in
        let fiveMinutesFromNow := (now w + 5 * 60 * 1000)%Z in
        if (fiveMinutesFromNow <? expiresAt)%Z
        then decrypt_call env (Integration.access_token integration) w
        else
          (let* newTokens := refreshAccessToken env (Integration.id integration) in
           ret (TokenResponse.access_token newTokens)) w
    end.

(** The nonce of the [k]-th random draw. *)
Definition nonce (env : Env) (k : nat) : Buffer :=
  resize IV_LENGTH x00 (random_source env k).

(** The world after one more random draw. *)
Definition drawn (w : World) : World :=
  {| integrations := integrations w; now := now w; draws := S (draws w);
     token_requests := token_requests w; db_writes := db_writes w |}.

(** The world after the token endpoint answered a request for [refreshToken]. *)
Definition requested (env : Env) (refreshToken : jsstring) (w : World) : World :=
  {| integrations := integrations w; now := (now w + round_trip env)%Z;
     draws := draws w;
     token_requests := token_requests w ++ [refreshToken];
     db_writes := db_writes w |}.

(** The lookups of the two entry points. *)
Definition by_user (userId : jsstring) (r : Integration.t) : bool :=
  same_string (Integration.user_id r) userId
  && same_string (Integration.provider r) (js "supabase").

Definition by_id (integrationId : jsstring) (r : Integration.t) : bool :=
  same_string (Integration.id r) integrationId.

(** The columns written by a refresh that started in world [w]. *)
Definition refreshed_columns (env : Env) (key : Buffer) (tokens : TokenResponse.t)
    (w : World) : TokenData :=
  {| td_access_token :=
       Base64.encode (sealed (H:=cipher env) key (nonce env (draws w))
                        (TokenResponse.access_token tokens));
     td_refresh_token :=
       Base64.encode (sealed (H:=cipher env) key (nonce env (S (draws w)))
                        (TokenResponse.refresh_token tokens));
     td_token_expires_at :=
       (now w + round_trip env + TokenResponse.expires_in tokens * 1000)%Z;
     td_updated_at := (now w + round_trip env)%Z |}.

(** A sample deployment, used to run the module on concrete inputs: one
    connected user, a token endpoint that accepts the refresh token
    [live-refresh] and refuses every other one. *)
Definition demo_key_bytes : Buffer := Hex.decode (default [] demo_key).

Definition demo_blob (plaintext : jsstring) : jsstring :=
  Base64.encode (sealed (H:=toy_gcm) demo_key_bytes demo_iv plaintext).

Definition demo_tokens : TokenResponse.t :=
  {| TokenResponse.access_token := js "access-2";
     TokenResponse.refresh_token := js "refresh-2";
     TokenResponse.expires_in := 3600;
     TokenResponse.token_type := js "Bearer" |}.

Definition demo_env : Env :=
  {| ENCRYPTION_KEY := demo_key;
     cipher := toy_gcm;
     token_endpoint := fun rt =>
       if same_string rt (js "live-refresh")
       then Response true (Some (js "{...}")) (Some demo_tokens)
       else Response false (Some (js "invalid_grant")) None;
     round_trip := 120;
     random_source := fun k => replicate 16 (u8 (N.of_nat k));
     db_fault := fun _ => None;
     fresh_id := fun _ => js "id-new" |}.

(** The sample deployment with a store that refuses to delete. *)
Definition read_only_env : Env :=
  {| ENCRYPTION_KEY := demo_key;
     cipher := toy_gcm;
     token_endpoint := token_endpoint demo_env;
     round_trip := 120;
     random_source := random_source demo_env;
     db_fault := fun op =>
       match op with
       | DbDelete => Some (js "permission denied for table integrations")
       | _ => None
       end;
     fresh_id := fresh_id demo_env |}.

(** The sample deployment with a token endpoint whose refusals cannot be
    read to the end. *)
Definition cut_off_env : Env :=
  {| ENCRYPTION_KEY := demo_key;
     cipher := toy_gcm;
     token_endpoint := fun _ => Response false None None;
     round_trip := 120;
     random_source := random_source demo_env;
     db_fault := fun _ => None;
     fresh_id := fresh_id demo_env |}.

(** The sample deployment with a token endpoint that grants tokens for
    10^13 seconds. *)
Definition long_lived_env : Env :=
  {| ENCRYPTION_KEY := demo_key;
     cipher := toy_gcm;
     token_endpoint := fun _ =>
       Response true (Some (js "{...}"))
         (Some {| TokenResponse.access_token := js "access-2";
                  TokenResponse.refresh_token := js "refresh-2";
                  TokenResponse.expires_in := 10000000000000;
                  TokenResponse.token_type := js "Bearer" |});
     round_trip := 120;
     random_source := random_source demo_env;
     db_fault := fun _ => None;
     fresh_id := fresh_id demo_env |}.

Definition demo_row (refreshToken : jsstring) (expires : Z) : Integration.t :=
  {| Integration.id := js "int-1";
     Integration.user_id := js "user-1";
     Integration.provider := js "supabase";
     Integration.access_token := demo_blob (js "access-1");
     Integration.refresh_token := demo_blob refreshToken;
     Integration.token_expires_at := expires;
     Integration.created_at := 1000;
     Integration.updated_at := 1000 |}.

Definition demo_world (refreshToken : jsstring) (expires : Z) : World :=
  {| integrations := [demo_row refreshToken expires];
     now := 1000000; draws := 0; token_requests := []; db_writes := [] |}.

(** ** The scanner ([lib/scanner], [lib/supabase-management-api]) *)

(** A JSON value. *)
#[local] Unset Elimination Schemes.
Inductive Json : Type :=
  | JNull
  | JBool (b : bool)
  | JNumber (z : Z)
  | JString (s : jsstring)
  | JArray (items : list Json)
  | JObject (fields : list (jsstring * Json)).
#[local] Set Elimination Schemes.

(** A row returned by a read: its columns, in the order [Object.keys] lists
    them. *)
Abbreviation Row := (list (jsstring * Json)).

Definition Object_keys (o : Row) : list jsstring := o.*1.

Inductive Severity : Type := critical | high | medium.

Module Vulnerability.
Record t : Type := Build {
  table : jsstring;
  issue : jsstring;
  severity : Severity;
  details : jsstring;
  leaked_fields : list jsstring;
  sample_data : Row;
  ai_analysis : option Json      (* [None] is [undefined] *)
}.
End Vulnerability.

Record Summary : Type := {
  total_tables : Z;
  vulnerable_tables : Z;
  secure_tables : Z
}.

Module ScanResult.
Record t : Type := Build {
  success : bool;
  vulnerabilities : list Vulnerability.t;
  summary : Summary;
  error : option jsstring
}.
End ScanResult.

(** A thrown value: an [Error] with its message, or something else. *)
Inductive JsThrown : Type :=
  | ThrownError (message : jsstring)
  | ThrownOther.

(** A row of the catalog query. *)
Record CatalogRow : Type := {
  table_name : jsstring;
  rls_enabled : bool
}.

(** The value of [response.json()] for the catalog query: [null]; another
    falsy value ([false], [0], the empty string); an array of rows; an object
    with its properties (every key once); or another value ([true], a number
    that is not 0, a string that is not empty). *)
Inductive CatalogJson : Type :=
  | CatalogNull
  | CatalogFalsy
  | CatalogRows (rows : list CatalogRow)
  | CatalogObject (fields : list (jsstring * Json))
  | CatalogOther.

(** [value.key] on a JSON value ([None] is [undefined]). *)
Definition Json_get (key : jsstring) (value : Json) : option Json :=
  match value with
  | JObject fields =>
      snd <$> List.find (fun field => same_string (fst field) key) fields
  | _ => None
  end.

(** [result.length === 0] on an object. *)
Definition length_is_zero (fields : list (jsstring * Json)) : bool :=
  match Json_get (js "length") (JObject fields) with
  | Some (JNumber 0) => true
  | _ => false
  end.

(** What [fetch] of the query endpoint gives: it throws, or it resolves to a
    response with its [ok] flag, its status, and what [response.text()] and
    [response.json()] give. *)
Inductive QueryOutcome : Type :=
  | QueryThrows (e : JsThrown)
  | QueryResponse (ok : bool) (status : jsstring) (text : result JsThrown jsstring)
      (json : result JsThrown CatalogJson).

(** What the unprivileged read of a table gives: the client call throws, or
    it resolves to [{ data, error }]. *)
Inductive ProbeOutcome : Type :=
  | ProbeThrows
  | ProbeReply (data : option (list Row)) (error : option jsstring).

(** What [anthropic.messages.create] gives. *)
Inductive ContentBlock : Type :=
  | TextBlock (text : jsstring)
  | OtherBlock.

Inductive AiReply : Type :=
  | AiThrows
  | AiMessage (content : list ContentBlock).

(** The classifier client: its reply to the prompt built from table name,
    fields, sample row and protection flag. *)
Abbreviation Anthropic := (jsstring -> list jsstring -> Row -> bool -> AiReply).

(** The project under scan and the services around it. *)
Record Target : Type := {
  createClient_throws : option JsThrown;   (* what [createClient] throws, if it does *)
  ANTHROPIC_API_KEY : option jsstring;
  management_api : QueryOutcome;           (* the catalog query *)
  anon_read : jsstring -> ProbeOutcome;    (* the unprivileged read, by table *)
  classifier : Anthropic;
  JSON_parse : jsstring -> option Json     (* [None]: [JSON.parse] throws *)
}.

Record Options : Type := {
  maxTables : option Z;
  enableAI : option bool
}.

(** [executeQuery]. *)
Definition executeQuery (tg : Target) : result JsThrown CatalogJson :=
  match management_api tg with
  | QueryThrows e => Err e
  | QueryResponse false _ (Err e) _ => Err e
  | QueryResponse false status (Ok error) _ =>
      Err (ThrownError (js "Failed to execute query: " ++ status ++ js " " ++ error))
  | QueryResponse true _ _ (Err e) => Err e
  | QueryResponse true _ _ (Ok CatalogNull) =>
      (* the log line reads [result.length] *)
      Err (ThrownError (js "Cannot read properties of null (reading 'length')"))
  | QueryResponse true _ _ (Ok result) => Ok result
  end.

(** [text.match(/\{[\s\S]*\}/)]: from the first opening brace to the last
    closing brace after it. *)
Fixpoint from_first (c : N) (s : jsstring) : option jsstring :=
  match s with
  | [] => None
  | x :: rest => if x =? c then Some rest else from_first c rest
  end.

Definition match_braces (text : jsstring) : option jsstring :=
  match from_first 123 text with
  | None => None
  | Some rest =>
      match from_first 125 (reverse rest) with
      | None => None
      | Some inner => Some ([123] ++ reverse inner ++ [125])
      end
  end.

(** [analyzeWithAI]. *)
Definition analyzeWithAI (tg : Target) (anthropic : option Anthropic)
    (tableName : jsstring) (fields : list jsstring) (sampleData : Row)
    (rlsEnabled : bool) : option Json :=
  match anthropic with
  | None => None
  | Some client =>
      match client tableName fields sampleData rlsEnabled with
      | AiThrows => None
      | AiMessage [] => None            (* [content.type] throws, caught *)
      | AiMessage (OtherBlock :: _) => None
      | AiMessage (TextBlock text :: _) =>
          match match_braces text with
          | None => None
          | Some jsonMatch => JSON_parse tg jsonMatch
          end
      end
  end.

Definition quote : jsstring := [34].

(** The finding [scanTable] pushes. *)
Definition finding (tableName : jsstring) (fields : list jsstring) (row : Row)
    (rlsEnabled : bool) (aiAnalysis : option Json) : Vulnerability.t :=
  {| Vulnerability.table := tableName;
     Vulnerability.issue :=
       if rlsEnabled
       then js "RLS is enabled but policy is too permissive (public access)"
       else js "Anonymous users can read data from this table";
     Vulnerability.severity := critical;
     Vulnerability.details :=
       if rlsEnabled
       then js "Table " ++ quote ++ tableName ++ quote
            ++ js " has RLS enabled, but a policy is allowing broad public access. "
            ++ js (pretty (length fields)) ++ js " fields are exposed."
       else js "Table " ++ quote ++ tableName ++ quote
            ++ js " is publicly accessible without authentication. "
            ++ js (pretty (length fields)) ++ js " fields are exposed.";
     Vulnerability.leaked_fields := fields;
     Vulnerability.sample_data := row;
     Vulnerability.ai_analysis := aiAnalysis |}.

(** [!anonError && anonData && anonData.length > 0], with [anonData[0]]. *)
Definition exposed_row (o : ProbeOutcome) : option Row :=
  match o with
  | ProbeReply (Some (row :: _)) None => Some row
  | _ => None
  end.

Definition is_exposed (o : ProbeOutcome) : bool :=
  match exposed_row o with Some _ => true | None => false end.

Definition CONCURRENCY_LIMIT : nat := 5.

(** Where one call of [scanTable] is suspended. *)
Inductive Stage : Type :=
  | AwaitingRead
  | AwaitingAI (fields : list jsstring) (row : Row) (rlsEnabled : bool).

Record Task : Type := {
  task_index : nat;          (* position of the table in [tablesToScan] *)
  task_table : jsstring;
  task_stage : Stage
}.

Inductive Event : Type :=
  | CatalogDone
  | ProbeStarted (index : nat)      (* the read of a table is sent *)
  | ProbeSettled (index : nat)      (* the read of a table has settled *)
  | FindingPushed (index : nat).    (* the call for a table pushes its finding *)

#[global] Instance Event_eq_dec : EqDecision Event.
Proof. solve_decision. Defined.

(** The state of the probing loop between two turns of the event loop. *)
Record Loop : Type := {
  loop_i : nat;                          (* the loop variable [i] *)
  in_flight : list Task;                 (* the calls [Promise.all] waits for *)
  found : list Vulnerability.t;          (* the array [vulnerabilities] *)
  history : list Event                   (* what happened, newest first *)
}.

Definition is_started (e : Event) : bool :=
  match e with ProbeStarted _ => true | _ => false end.

Definition is_settled (e : Event) : bool :=
  match e with ProbeSettled _ => true | _ => false end.

(** The calls that have pushed their finding, oldest first. *)
Definition pushes (h : list Event) : list nat :=
  omap (fun e => match e with FindingPushed i => Some i | _ => None end)
       (reverse h).

(** The order of the groups: the group of [i] is not after the group of [j]. *)
Definition group_le (i j : nat) : Prop := (i / 5 <= j / 5)%nat.

(** The reads sent and not yet settled, counted from what happened. *)
Definition reads_in_flight (h : list Event) : Z :=
  (Z.of_nat (length (filter (fun e => is_started e = true) h))
   - Z.of_nat (length (filter (fun e => is_settled e = true) h)))%Z.

(** Group order in a history (newest event first): when a read is sent, the
    catalog query is over and every read of an earlier group has settled. *)
Fixpoint in_group_order (h : list Event) : Prop :=
  match h with
  | [] => True
  | e :: older =>
      match e with
      | ProbeStarted j =>
          CatalogDone ∈ older
          /\ forall k, (k < CONCURRENCY_LIMIT * (j / CONCURRENCY_LIMIT))%nat ->
                       ProbeSettled k ∈ older
      | _ => True
      end
      /\ in_group_order older
  end.

Section Probing.
Context (tg : Target) (anthropic : option Anthropic).
Context (tableRlsStatus : gmap jsstring bool) (tablesToScan : list jsstring).

(** [scanTable] up to its first [await]: the read is sent. *)
Definition scanTable_start (i : nat) (tableName : jsstring) : Task :=
  {| task_index := i; task_table := tableName; task_stage := AwaitingRead |}.

(** [scanTable] from one [await] to the next: what becomes of the call, what
    it pushes, what happened. *)
Definition scanTable_resume (t : Task)
  : option Task * list Vulnerability.t * list Event :=
  match task_stage t with
  | AwaitingRead =>
      match exposed_row (anon_read tg (task_table t)) with
      | Some row =>
          let fields := Object_keys row in
          let rlsEnabled := default false (tableRlsStatus !! task_table t) in
          (Some {| task_index := task_index t; task_table := task_table t;
                   task_stage := AwaitingAI fields row rlsEnabled |},
           [], [ProbeSettled (task_index t)])
      | None => (None, [], [ProbeSettled (task_index t)])
      end
  | AwaitingAI fields row rlsEnabled =>
      let aiAnalysis :=
        analyzeWithAI tg anthropic (task_table t) fields row rlsEnabled in
      (None, [finding (task_table t) fields row rlsEnabled aiAnalysis],
       [FindingPushed (task_index t)])
  end.

(** One iteration of the [for] loop up to its [await]: the chunk is cut and
    every call of it is started. *)
Definition start_chunk (lp : Loop) : Loop :=
  let chunk := take CONCURRENCY_LIMIT (drop (loop_i lp) tablesToScan) in
  {| loop_i := loop_i lp;
     in_flight := imap (fun k name => scanTable_start (loop_i lp + k) name) chunk;
     found := found lp;
     history :=
       reverse (imap (fun k _ => ProbeStarted (loop_i lp + k)) chunk)
       ++ history lp |}.

(** The awaited promise of the [k]-th call in flight settles; when no call is
    left, [Promise.all] resolves and the loop variable advances. *)
Definition resume (k : nat) (lp : Loop) : Loop :=
  match in_flight lp !! k with
  | None => lp
  | Some t =>
      let '(t', pushed, events) := scanTable_resume t in
      let rest := take k (in_flight lp) ++ option_list t'
                  ++ drop (S k) (in_flight lp) in
      {| loop_i := match rest with
                   | [] => loop_i lp + CONCURRENCY_LIMIT
                   | _ => loop_i lp
                   end;
         in_flight := rest;
         found := found lp ++ pushed;
         history := events ++ history lp |}
  end.

(** One turn of the event loop; [choice] picks the promise that settles.
    [None]: the loop has ended. *)
Definition step (choice : nat) (lp : Loop) : option Loop :=
  match in_flight lp with
  | [] =>
      if (loop_i lp <? length tablesToScan)%nat then Some (start_chunk lp)
      else None
  | _ :: _ => Some (resume (choice mod length (in_flight lp)) lp)
  end.

(** Turns [t], [t+1], ... of the event loop under the schedule [sched]. *)
Fixpoint run (fuel : nat) (sched : nat -> nat) (t : nat) (lp : Loop) : Loop :=
  match fuel with
  | O => lp
  | S fuel' =>
      match step (sched t) lp with
      | None => lp
      | Some lp' => run fuel' sched (S t) lp'
      end
  end.

(** What [scanTable] pushes for a table, from start to end. *)
Definition finding_of (tableName : jsstring) : option Vulnerability.t :=
  match exposed_row (anon_read tg tableName) with
  | Some row =>
      let fields := Object_keys row in
      let rlsEnabled := default false (tableRlsStatus !! tableName) in
      Some (finding tableName fields row rlsEnabled
              (analyzeWithAI tg anthropic tableName fields row rlsEnabled))
  | None => None
  end.

(** What the call for the [i]-th table pushes. *)
Definition finding_at (i : nat) : option Vulnerability.t :=
  tablesToScan !! i ≫= finding_of.

(** What a suspended call will still push. *)
Definition pending (t : Task) : option Vulnerability.t :=
  match task_stage t with
  | AwaitingRead => finding_of (task_table t)
  | AwaitingAI fields row rlsEnabled =>
      Some (finding (task_table t) fields row rlsEnabled
              (analyzeWithAI tg anthropic (task_table t) fields row rlsEnabled))
  end.

(** The [g]-th group of tables, [tablesToScan.slice(5 g, 5 g + 5)], and the
    findings of its tables in catalog order. *)
Definition group (g : nat) : list jsstring :=
  take CONCURRENCY_LIMIT (drop (CONCURRENCY_LIMIT * g) tablesToScan).

Definition group_findings (g : nat) : list Vulnerability.t :=
  omap finding_of (group g).

(** Turns of the event loop a state still needs at most. *)
Definition weight (t : Task) : nat :=
  match task_stage t with AwaitingRead => 2 | AwaitingAI _ _ _ => 1 end.

Definition turns_left (lp : Loop) : nat :=
  3 * (length tablesToScan
       - (loop_i lp + match in_flight lp with
                      | [] => 0
                      | _ => CONCURRENCY_LIMIT
                      end))
  + sum_list_with weight (in_flight lp).

Definition awaiting_read (t : Task) : bool :=
  match task_stage t with AwaitingRead => true | _ => false end.

(** The number of groups. *)
Definition group_count : nat :=
  ((length tablesToScan + 4) / CONCURRENCY_LIMIT)%nat.

(** The control state of the loop: [i] is a multiple of the group size, at
    most one group is in flight, and only while [i] points into the tables. *)
Definition loop_shape (lp : Loop) : Prop :=
  (loop_i lp mod CONCURRENCY_LIMIT = 0)%nat
  /\ (length (in_flight lp) <= CONCURRENCY_LIMIT)%nat
  /\ (in_flight lp ≠ [] -> (loop_i lp < length tablesToScan)%nat)
  /\ (loop_i lp <= CONCURRENCY_LIMIT * group_count)%nat.

(** The findings pushed so far: those of the finished groups, group after
    group, then those of the group in flight that are already pushed. *)
Definition findings_invariant (lp : Loop) : Prop :=
  exists ls cur,
    found lp = concat ls ++ cur
    /\ Forall2 (≡ₚ) ls (group_findings <$> seq 0 (loop_i lp / CONCURRENCY_LIMIT))
    /\ cur ++ omap pending (in_flight lp)
       ≡ₚ match in_flight lp with
          | [] => []
          | _ => group_findings (loop_i lp / CONCURRENCY_LIMIT)
          end.

(** What happened so far, against the control state. *)
Definition history_invariant (lp : Loop) : Prop :=
  CatalogDone ∈ history lp
  /\ in_group_order (history lp)
  /\ (forall k, (k < loop_i lp)%nat -> (k < length tablesToScan)%nat ->
                ProbeSettled k ∈ history lp)
  /\ (in_flight lp ≠ [] ->
      forall k, (loop_i lp <= k < loop_i lp + CONCURRENCY_LIMIT)%nat ->
                (k < length tablesToScan)%nat ->
        ProbeSettled k ∈ history lp
        \/ exists t, t ∈ in_flight lp /\ task_index t = k
                     /\ task_stage t = AwaitingRead)
  /\ reads_in_flight (history lp)
     = Z.of_nat (length (filter (fun t => awaiting_read t = true) (in_flight lp))).

(** The findings pushed so far against what happened: the array holds the
    findings of the calls that have pushed, in the order of their pushes;
    the pushes come group after group; a call in flight is the call for the
    table at its index, a table of the group the loop variable points to. *)
Definition push_invariant (lp : Loop) : Prop :=
  Some <$> found lp = finding_at <$> pushes (history lp)
  /\ StronglySorted group_le (pushes (history lp))
  /\ Forall (fun i => (i < loop_i lp + CONCURRENCY_LIMIT)%nat) (pushes (history lp))
  /\ Forall (fun t => tablesToScan !! task_index t = Some (task_table t)
                      /\ pending t = finding_of (task_table t)
                      /\ (loop_i lp <= task_index t < loop_i lp + CONCURRENCY_LIMIT)%nat)
            (in_flight lp).

Definition loop_start : Loop :=
  {| loop_i := 0; in_flight := []; found := []; history := [CatalogDone] |}.

(** The loop, run to its end: three turns per table are enough. *)
Definition probe_all (sched : nat -> nat) : Loop :=
  run (3 * length tablesToScan + 1) sched 0 loop_start.

(** The states the loop can be in. *)
Inductive reachable : Loop -> Prop :=
  | reachable_start : reachable loop_start
  | reachable_step lp choice lp' :
      reachable lp -> step choice lp = Some lp' -> reachable lp'.

End Probing.

Definition failed (message : jsstring) : ScanResult.t :=
  {| ScanResult.success := false;
     ScanResult.vulnerabilities := [];
     ScanResult.summary :=
       {| total_tables := 0; vulnerable_tables := 0; secure_tables := 0 |};
     ScanResult.error := Some message |}.

Definition no_tables : ScanResult.t :=
  {| ScanResult.success := true;
     ScanResult.vulnerabilities := [];
     ScanResult.summary :=
       {| total_tables := 0; vulnerable_tables := 0; secure_tables := 0 |};
     ScanResult.error := None |}.

(** [error instanceof Error ? error.message : fallback]. *)
Definition message_or (fallback : jsstring) (e : JsThrown) : jsstring :=
  match e with
  | ThrownError message => message
  | ThrownOther => fallback
  end.

(** The client [scanProject] hands to [analyzeWithAI]. *)
Definition anthropic_client (tg : Target) (options : Options) : option Anthropic :=
  match default true (enableAI options), ANTHROPIC_API_KEY tg with
  | true, Some (_ :: _) => Some (classifier tg)
  | _, _ => None
  end.

Definition rls_map (rows : list CatalogRow) : gmap jsstring bool :=
  foldl (fun m row => <[table_name row := rls_enabled row]> m) ∅ rows.

(** The tables [scanProject] probes. *)
Definition tables_to_scan (options : Options) (rows : list CatalogRow)
  : list jsstring :=
  slice (table_name <$> rows) 0 (default 10%Z (maxTables options)).

(** [scanProject]; [sched] is the order in which the event loop settles the
    pending promises. *)
Definition scanProject (tg : Target) (options : Options) (sched : nat -> nat)
  : ScanResult.t :=
  match createClient_throws tg with
  | Some e => failed (message_or (js "Unknown error occurred") e)
  | None =>
      let anthropic := anthropic_client tg options in
      match executeQuery tg with
      | Err e =>
          failed (message_or
                    (js "Failed to query database schema via Management API") e)
      | Ok CatalogNull | Ok CatalogFalsy | Ok (CatalogRows []) => no_tables
      | Ok (CatalogObject fields) =>
          if length_is_zero fields then no_tables
          else failed (js "result.forEach is not a function")
      | Ok CatalogOther =>
          failed (js "result.forEach is not a function")
      | Ok (CatalogRows rows) =>
          let tableRlsStatus := rls_map rows in
          let tablesToScan := tables_to_scan options rows in
          let scannedCount := Z.of_nat (length tablesToScan) in
          let lp := probe_all tg anthropic tableRlsStatus tablesToScan sched in
          {| ScanResult.success := true;
             ScanResult.vulnerabilities := found lp;
             ScanResult.summary :=
               {| total_tables := scannedCount;
                  vulnerable_tables := Z.of_nat (length (found lp));
                  secure_tables :=
                    (scannedCount - Z.of_nat (length (found lp)))%Z |};
             ScanResult.error := None |}
      end
  end.

(** A finding without its AI annotation. *)
Definition without_ai (v : Vulnerability.t) : Vulnerability.t :=
  {| Vulnerability.table := Vulnerability.table v;
     Vulnerability.issue := Vulnerability.issue v;
     Vulnerability.severity := Vulnerability.severity v;
     Vulnerability.details := Vulnerability.details v;
     Vulnerability.leaked_fields := Vulnerability.leaked_fields v;
     Vulnerability.sample_data := Vulnerability.sample_data v;
     Vulnerability.ai_analysis := None |}.

(** The same target with no classifier key configured. *)
Definition unconfigured (tg : Target) : Target :=
  {| createClient_throws := createClient_throws tg;
     ANTHROPIC_API_KEY := None;
     management_api := management_api tg;
     anon_read := anon_read tg;
     classifier := classifier tg;
     JSON_parse := JSON_parse tg |}.

(** A sample target, used to run the scanner on concrete inputs: three tables,
    two of them readable without authorization. *)
Definition demo_catalog : list CatalogRow :=
  [ {| table_name := js "orders"; rls_enabled := true |};
    {| table_name := js "profiles"; rls_enabled := true |};
    {| table_name := js "user_secrets"; rls_enabled := false |} ].

Definition demo_secret_row : Row :=
  [(js "id", JNumber 1); (js "secret_data", JString (js "hunter2"))].

Definition demo_profile_row : Row :=
  [(js "id", JNumber 7); (js "email", JString (js "a@b.c"))].

Definition demo_target : Target :=
  {| createClient_throws := None;
     ANTHROPIC_API_KEY := None;
     management_api :=
       QueryResponse true (js "201") (Ok []) (Ok (CatalogRows demo_catalog));
     anon_read := fun name =>
       if same_string name (js "user_secrets")
       then ProbeReply (Some [demo_secret_row]) None
       else if same_string name (js "profiles")
       then ProbeReply (Some [demo_profile_row]) None
       else ProbeReply (Some []) None;
     classifier := fun _ _ _ _ => AiThrows;
     JSON_parse := fun _ => None |}.

(** The same target behind an unreachable management API. *)
Definition unreachable_target : Target :=
  {| createClient_throws := None;
     ANTHROPIC_API_KEY := None;
     management_api := QueryThrows (ThrownError (js "fetch failed"));
     anon_read := anon_read demo_target;
     classifier := classifier demo_target;
     JSON_parse := JSON_parse demo_target |}.

(** The same target behind a [fetch] that throws an [Error] with no message. *)
Definition silent_target : Target :=
  {| createClient_throws := None;
     ANTHROPIC_API_KEY := None;
     management_api := QueryThrows (ThrownError []);
     anon_read := anon_read demo_target;
     classifier := classifier demo_target;
     JSON_parse := JSON_parse demo_target |}.

(** The same target behind a management API that answers the catalog query
    with the object [{ length: 0 }]. *)
Definition odd_target : Target :=
  {| createClient_throws := None;
     ANTHROPIC_API_KEY := None;
     management_api :=
       QueryResponse true (js "201") (Ok [])
         (Ok (CatalogObject [(js "length", JNumber 0)]));
     anon_read := anon_read demo_target;
     classifier := classifier demo_target;
     JSON_parse := JSON_parse demo_target |}.

Definition demo_options : Options := {| maxTables := Some 50%Z; enableAI := None |}.

(** Two orders in which the event loop may settle the promises: always the
    oldest call in flight, or always the youngest (59 is one less than a
    multiple of each of 1 to 5). *)
Definition oldest_first : nat -> nat := fun _ => 0%nat.
Definition youngest_first : nat -> nat := fun _ => 59%nat.

(** The same project seen through another classifier set-up. *)
Definition with_classifier (tg : Target) (key : option jsstring)
    (client : Anthropic) (parse : jsstring -> option Json) : Target :=
  {| createClient_throws := createClient_throws tg;
     ANTHROPIC_API_KEY := key;
     management_api := management_api tg;
     anon_read := anon_read tg;
     classifier := client;
     JSON_parse := parse |}.

(** Two loop states that differ at most in the AI annotations pushed. *)
Definition same_but_ai (lp lp' : Loop) : Prop :=
  loop_i lp = loop_i lp'
  /\ in_flight lp = in_flight lp'
  /\ history lp = history lp'
  /\ without_ai <$> found lp = without_ai <$> found lp'.

(** ** The vault at start-up ([validateEncryptionKey]) *)

(** How [validateEncryptionKey] fails: always with an [Error] whose message is
    [Encryption configuration error: ] followed by the message of what was
    thrown inside, which is an error of the vault or the function's own
    [Encryption validation failed: decrypted value does not match]. *)
Inductive ConfigurationError : Type :=
  | Misconfigured (cause : VaultError)
  | DoesNotMatch.

(** [validateEncryptionKey]; [iv] is the value of [crypto.randomBytes] inside
    [encrypt], [millis] the value of [Date.now()]. *)
Definition validateEncryptionKey `{AesGcm} (env_key : option jsstring)
    (iv : Buffer) (millis : Z) : result ConfigurationError unit :=
  let attempt : result VaultError bool :=
    _ ← getEncryptionKey env_key;
    let testString := js "test-encryption-" ++ js (pretty millis) in
    encrypted ← encrypt env_key iv testString;
    decrypted ← decrypt env_key encrypted;
    mret (bool_decide (decrypted = testString)) in
  match attempt with
  | Ok true => Ok tt
  | Ok false => Err DoesNotMatch
  | Err e => Err (Misconfigured e)
  end.

(** A key setting of the right length that is not hexadecimal throughout. *)
Definition demo_bad_key : option jsstring :=
  Some (js "000102030405060708090a0b0c0d0e0f101112131415161718191a1b1c1d1eZZ").

(** ** Token lifecycle, continued ([hasIntegration], [getIntegration]) *)

(** [.select(...)...maybeSingle()]: the row when exactly one row matches,
    [null] when none does; an error when the store refuses the request or
    when several rows match. *)
Definition select_maybe_single (env : Env) (p : Integration.t -> bool) (w : World)
  : result jsstring (option Integration.t) :=
  match db_fault env DbSelect with
  | Some message => Err message
  | None => match filter (fun r => p r = true) (integrations w) with
            | [] => Ok None
            | [r] => Ok (Some r)
            | _ => Err (js "JSON object requested, multiple (or no) rows returned")
            end
  end.

(** [hasIntegration]: [!error && data !== null]. *)
Definition hasIntegration (env : Env) (userId : jsstring) : Eff bool :=
  fun w =>
    (Ok match select_maybe_single env
                (fun r => same_string (Integration.user_id r) userId
                          && same_string (Integration.provider r) (js "supabase")) w with
        | Ok (Some _) => true
        | _ => false
        end, w).

(** [getIntegration]: an error is logged and [null] returned. *)
Definition getIntegration (env : Env) (userId : jsstring)
  : Eff (option Integration.t) :=
  fun w =>
    (Ok match select_maybe_single env
                (fun r => same_string (Integration.user_id r) userId
                          && same_string (Integration.provider r) (js "supabase")) w with
        | Ok data => data
        | Err _ => None
        end, w).

(** The world [millis] milliseconds later. *)
Definition later (millis : Z) (w : World) : World :=
  {| integrations := integrations w; now := (now w + millis)%Z; draws := draws w;
     token_requests := token_requests w; db_writes := db_writes w |}.

(** The row [storeTokens] is about: the one with the given id, or, with no id
    (or an empty one), the user's. *)
Definition addressed (userId : jsstring) (integrationId : option jsstring)
    (r : Integration.t) : bool :=
  match integrationId with
  | Some (c :: cs) => by_id (c :: cs) r
  | _ => by_user userId r
  end.

(** The sample deployment with a token endpoint that cannot be reached. *)
Definition offline_env : Env :=
  {| ENCRYPTION_KEY := demo_key;
     cipher := toy_gcm;
     token_endpoint := fun _ => FetchThrows;
     round_trip := 30000;
     random_source := random_source demo_env;
     db_fault := fun _ => None;
     fresh_id := fresh_id demo_env |}.

(** A deployment with no user connected yet. *)
Definition empty_world : World :=
  {| integrations := []; now := 1000000; draws := 0;
     token_requests := []; db_writes := [] |}.

(** ** The Management API client, continued ([lib/supabase-management-api]) *)

(** What [fetch] of a Management API endpoint gives: it throws, or it resolves
    to a response with its [ok] flag, its status, what [response.text()]
    gives, and what [response.json()] gives read as a value of type [A]
    ([Err]: the body is not JSON, or not a value the code can use as an [A],
    so that the first use throws). *)
Inductive ApiOutcome (A : Type) : Type :=
  | ApiThrows (e : JsThrown)
  | ApiResponse (ok : bool) (status : jsstring) (text : result JsThrown jsstring)
      (json : result JsThrown A).
Arguments ApiThrows {A} e.
Arguments ApiResponse {A} ok status text json.

Module ApiKey.
Record t : Type := Build {
  name : jsstring;
  api_key : option jsstring     (* [None] is [undefined] *)
}.
End ApiKey.

Record ProjectApiKeys : Type := {
  anon : jsstring;
  service_role : jsstring
}.

(** [listProjects]. *)
Definition listProjects {A} (response : ApiOutcome A) : result JsThrown A :=
  match response with
  | ApiThrows e => Err e
  | ApiResponse false _ (Err e) _ => Err e
  | ApiResponse false status (Ok error) _ =>
      Err (ThrownError (js "Failed to list projects: " ++ status ++ js " " ++ error))
  | ApiResponse true _ _ json => json
  end.

(** [keys.find(k => k.name === name)?.api_key]. *)
Definition find_api_key (name : jsstring) (keys : list ApiKey.t) : option jsstring :=
  k ← List.find (fun k => same_string (ApiKey.name k) name) keys; ApiKey.api_key k.

(** [getProjectApiKeys]. *)
Definition getProjectApiKeys (response : ApiOutcome (list ApiKey.t))
  : result JsThrown ProjectApiKeys :=
  match response with
  | ApiThrows e => Err e
  | ApiResponse false _ (Err e) _ => Err e
  | ApiResponse false status (Ok error) _ =>
      Err (ThrownError (js "Failed to get project API keys: " ++ status
                        ++ js " " ++ error))
  | ApiResponse true _ _ (Err e) => Err e
  | ApiResponse true _ _ (Ok keys) =>
      let anonKey := find_api_key (js "anon") keys in
      let serviceRoleKey := find_api_key (js "service_role") keys in
      match anonKey, serviceRoleKey with
      | Some (a :: anonKey), Some (s :: serviceRoleKey) =>
          Ok {| anon := a :: anonKey; service_role := s :: serviceRoleKey |}
      | _, _ =>
          Err (ThrownError
                 (js "Could not find required API keys (anon and service_role)"))
      end
  end.

(** [getProjectUrl]. *)
Definition getProjectUrl (projectRef : jsstring) : jsstring :=
  js "https://" ++ projectRef ++ js ".supabase.co".

(** [testAccessToken]. *)
Definition testAccessToken {A} (response : ApiOutcome A) : bool :=
  match listProjects response with
  | Ok _ => true
  | Err _ => false
  end.

(** A sample reply of the api-keys endpoint. *)
Definition demo_api_keys : list ApiKey.t :=
  [ {| ApiKey.name := js "anon"; ApiKey.api_key := Some (js "anon-key-1") |};
    {| ApiKey.name := js "service_role"; ApiKey.api_key := Some (js "service-key-1") |};
    {| ApiKey.name := js "anon"; ApiKey.api_key := Some (js "anon-key-2") |} ].

(** ** The scanner, continued *)

(** A scan of the sample target with a negative cap. *)
Definition negative_cap : Options := {| maxTables := Some (-1)%Z; enableAI := None |}.

(** The number of reads sent when the probing loop is in state [lp]: those of
    the groups before the loop variable, and those of the group in flight. *)
Definition reads_sent (tablesToScan : list jsstring) (lp : Loop) : nat :=
  match in_flight lp with
  | [] => loop_i lp `min` length tablesToScan
  | _ => (loop_i lp + CONCURRENCY_LIMIT) `min` length tablesToScan
  end.

(** ** The authorization route ([api/auth/supabase/authorize]) *)

Module Base64url.

Definition char (n : N) : N :=
  if n <? 26 then 65 + n
  else if n <? 52 then 97 + (n - 26)
  else if n <? 62 then 48 + (n - 52)
  else if n =? 62 then 45 else 95.

(** [buf.toString('base64url')]: the URL-safe alphabet, no padding. *)
Fixpoint encode (bs : Buffer) : jsstring :=
  match bs with
  | [] => []
  | [a] =>
      let a := Byte.to_N a in
      [char (a / 4); char (a mod 4 * 16)]
  | [a; b] =>
      let a := Byte.to_N a in
      let b := Byte.to_N b in
      [char (a / 4); char (a mod 4 * 16 + b / 16); char (b mod 16 * 4)]
  | a :: b :: c :: rest =>
      let a := Byte.to_N a in
      let b := Byte.to_N b in
      let c := Byte.to_N c in
      [char (a / 4); char (a mod 4 * 16 + b / 16);
       char (b mod 16 * 4 + c / 64); char (c mod 64)] ++ encode rest
  end.

End Base64url.

(** The characters a PKCE code verifier may consist of (RFC 7636, 4.1):
    letters, digits, [-], [.], [_], [~]. *)
Definition unreserved (c : N) : bool :=
  ((65 <=? c) && (c <=? 90)) || ((97 <=? c) && (c <=? 122))
  || ((48 <=? c) && (c <=? 57))
  || (c =? 45) || (c =? 46) || (c =? 95) || (c =? 126).

(** [generateCodeVerifier]; [random] is the value of [crypto.randomBytes(32)]. *)
Definition generateCodeVerifier (random : Buffer) : jsstring :=
  Base64url.encode random.

(** [generateCodeChallenge]; [sha256] is the hash function of Node's
    [crypto], which is given the UTF-8 form of the verifier. *)
Definition generateCodeChallenge (sha256 : Buffer -> Buffer) (verifier : jsstring)
  : jsstring :=
  Base64url.encode (sha256 (Utf8.encode verifier)).

(** [generateState]; [random] is the value of [crypto.randomBytes(16)]. *)
Definition generateState (random : Buffer) : jsstring :=
  Base64url.encode random.

(** A stand-in for SHA-256 with a digest of the right length, used to run the
    route's helpers on concrete inputs. *)
Definition toy_sha256 (message : Buffer) : Buffer :=
  resize 32 x00 message.

(** ** The direct scan route ([api/scan]) *)

(** An element of the reply of the [get_public_tables] function: a string,
    [null], or another value with its [table_name] property ([None] is
    [undefined]). *)
Inductive TableRow : Type :=
  | RowString (s : jsstring)
  | RowNull
  | RowObject (table_name : option Json).

(** [typeof tableRow === 'string' ? tableRow : tableRow.table_name], when it
    is a string. *)
Definition row_table_name (tableRow : TableRow) : option jsstring :=
  match tableRow with
  | RowString s => Some s
  | RowObject (Some (JString s)) => Some s
  | _ => None
  end.

(** What is thrown on an element with no table name that is a string: by
    reading [tableRow.table_name] of [null], or by calling
    [tableName.startsWith]. *)
Definition nameless_row_error (tableRow : TableRow) : jsstring :=
  match tableRow with
  | RowNull => js "Cannot read properties of null (reading 'table_name')"
  | RowObject None =>
      js "Cannot read properties of undefined (reading 'startsWith')"
  | RowObject (Some JNull) =>
      js "Cannot read properties of null (reading 'startsWith')"
  | _ => js "tableName.startsWith is not a function"
  end.

(** [s.startsWith(prefix)]. *)
Fixpoint startsWith (s prefix : jsstring) : bool :=
  match prefix, s with
  | [], _ => true
  | p :: prefix', c :: s' => (c =? p) && startsWith s' prefix'
  | _ :: _, [] => false
  end.

(** The tables the route skips. *)
Definition is_system_table (tableName : jsstring) : bool :=
  startsWith tableName (js "_") || startsWith tableName (js "pg_").

(** The body of the request: [url], [serviceKey], [anonKey] (an absent field
    is the empty string: both are falsy). *)
Record ScanRequest : Type := {
  req_url : jsstring;
  req_serviceKey : jsstring;
  req_anonKey : jsstring
}.

(** The project the route is pointed at and the services around it. *)
Record DirectScan : Type := {
  ds_createClient_throws : option JsThrown;
  ds_ANTHROPIC_API_KEY : option jsstring;
  (* [adminClient.rpc('get_public_tables')]: the error's message, or the data
     ([None] is [null]) *)
  ds_get_public_tables : result jsstring (option (list TableRow));
  ds_anon_read : jsstring -> ProbeOutcome;
  (* the reply to the prompt built from table name, fields and sample row *)
  ds_classifier : jsstring -> list jsstring -> Row -> AiReply;
  ds_JSON_parse : jsstring -> option Json
}.

(** The route's own [analyzeWithAI]. *)
Definition route_analyzeWithAI (ds : DirectScan) (tableName : jsstring)
    (fields : list jsstring) (sampleData : Row) : option Json :=
  match ds_ANTHROPIC_API_KEY ds with
  | Some (_ :: _) =>
      match ds_classifier ds tableName fields sampleData with
      | AiThrows => None
      | AiMessage [] => None
      | AiMessage (OtherBlock :: _) => None
      | AiMessage (TextBlock text :: _) =>
          match match_braces text with
          | None => None
          | Some jsonMatch => ds_JSON_parse ds jsonMatch
          end
      end
  | _ => None
  end.

(** What one pass of the loop body pushes for a table it tests. *)
Definition route_finding (ds : DirectScan) (tableName : jsstring)
  : option Vulnerability.t :=
  match exposed_row (ds_anon_read ds tableName) with
  | Some row =>
      let fields := Object_keys row in
      Some {| Vulnerability.table := tableName;
              Vulnerability.issue := js "Anonymous users can read data from this table";
              Vulnerability.severity := critical;
              Vulnerability.details :=
                js "Table " ++ quote ++ tableName ++ quote
                ++ js " is publicly accessible without authentication. "
                ++ js (pretty (length fields)) ++ js " fields are exposed.";
              Vulnerability.leaked_fields := fields;
              Vulnerability.sample_data := row;
              Vulnerability.ai_analysis :=
                route_analyzeWithAI ds tableName fields row |}
  | None => None
  end.

(** The state of the route's loop: [scannedCount], [vulnerabilities], and the
    tables read so far. *)
Record Scanned : Type := {
  scannedCount : nat;
  pushed : list Vulnerability.t;
  tables_read : list jsstring
}.

(** The [for ... of] loop over the tables, from a given state. *)
Fixpoint scan_tables (ds : DirectScan) (tables : list TableRow) (st : Scanned)
  : result JsThrown Scanned :=
  match tables with
  | [] => Ok st
  | tableRow :: rest =>
      match row_table_name tableRow with
      | None => Err (ThrownError (nameless_row_error tableRow))
      | Some tableName =>
          if is_system_table tableName then scan_tables ds rest st   (* continue *)
          else
            let st' :=
              {| scannedCount := S (scannedCount st);
                 pushed := pushed st ++ option_list (route_finding ds tableName);
                 tables_read := tables_read st ++ [tableName] |} in
            if (10 <=? scannedCount st')%nat then Ok st'   (* break *)
            else scan_tables ds rest st'
      end
  end.

Inductive ScanResponse : Type :=
  | BadRequest                            (* 400 *)
  | TablesUnavailable (details : jsstring) (* 500, could not fetch tables *)
  | NoTablesFound                         (* 404 *)
  | ScanDone (body : ScanResult.t)        (* 200 *)
  | ServerError (message : jsstring).     (* 500, from the route's [catch] *)

(** The route's [POST]; [request] is what [req.json()] gives. *)
Definition POST_scan (ds : DirectScan) (request : result JsThrown ScanRequest)
  : ScanResponse * list jsstring :=
  match request with
  | Err e => (ServerError (message_or (js "Internal server error") e), [])
  | Ok body =>
      match req_url body, req_serviceKey body, req_anonKey body with
      | _ :: _, _ :: _, _ :: _ =>
          match ds_createClient_throws ds with
          | Some e => (ServerError (message_or (js "Internal server error") e), [])
          | None =>
              match ds_get_public_tables ds with
              | Err details => (TablesUnavailable details, [])
              | Ok None | Ok (Some []) => (NoTablesFound, [])
              | Ok (Some tables) =>
                  match scan_tables ds tables
                          {| scannedCount := 0; pushed := []; tables_read := [] |} with
                  | Err e =>
                      (ServerError (message_or (js "Internal server error") e), [])
                  | Ok st =>
                      (ScanDone
                         {| ScanResult.success := true;
                            ScanResult.vulnerabilities := pushed st;
                            ScanResult.summary :=
                              {| total_tables := Z.of_nat (scannedCount st);
                                 vulnerable_tables := Z.of_nat (length (pushed st));
                                 secure_tables :=
                                   (Z.of_nat (scannedCount st)
                                    - Z.of_nat (length (pushed st)))%Z |};
                            ScanResult.error := None |},
                       tables_read st)
                  end
              end
          end
      | _, _, _ => (BadRequest, [])
      end
  end.

(** A sample project for the route: twelve tables, two of them system
    tables, every table readable without authorization. *)
Definition demo_direct_scan : DirectScan :=
  {| ds_createClient_throws := None;
     ds_ANTHROPIC_API_KEY := None;
     ds_get_public_tables :=
       Ok (Some (RowString (js "_migrations")
                 :: RowObject (Some (JString (js "pg_stat")))
                 :: ((fun k => RowObject (Some (JString (js "t" ++ js (pretty k)))))
                       <$> seq 0 12)));
     ds_anon_read := fun _ => ProbeReply (Some [demo_secret_row]) None;
     ds_classifier := fun _ _ _ => AiThrows;
     ds_JSON_parse := fun _ => None |}.

Definition demo_request : result JsThrown ScanRequest :=
  Ok {| req_url := js "https://p.supabase.co"; req_serviceKey := js "service";
        req_anonKey := js "anon" |}.

(** ** The scan route of a connected project ([api/integrations/supabase/scan]) *)

(** The options the route passes to [scanProject]. *)
Definition scan_route_options : Options :=
  {| maxTables := Some 50%Z; enableAI := Some true |}.

(** Truthiness of a JSON value. *)
Definition truthy (value : Json) : bool :=
  match value with
  | JNull => false
  | JBool b => b
  | JNumber z => negb (z =? 0)%Z
  | JString s => match s with [] => false | _ => true end
  | JArray _ | JObject _ => true
  end.

(** A severity as the string it is in JavaScript. *)
Definition severity_text (s : Severity) : jsstring :=
  match s with
  | critical => js "critical"
  | high => js "high"
  | medium => js "medium"
  end.

(** An element of the [vulnerabilities] column of a scan record. *)
Module StoredVulnerability.
Record t : Type := Build {
  table : jsstring;
  issue : jsstring;
  description : jsstring;
  recommendation : jsstring;
  ai_analysis : Json;
  severity : jsstring
}.
End StoredVulnerability.

(** The function the route maps over [scanResult.vulnerabilities]
    ([toLowerCase] leaves the three severities as they are). *)
Definition stored_vulnerability (v : Vulnerability.t) : StoredVulnerability.t :=
  {| StoredVulnerability.table := Vulnerability.table v;
     StoredVulnerability.issue := Vulnerability.issue v;
     StoredVulnerability.description := Vulnerability.details v;
     StoredVulnerability.recommendation :=
       js "Enable RLS on the " ++ Vulnerability.table v
       ++ js " table and create appropriate policies";
     StoredVulnerability.ai_analysis :=
       match Vulnerability.ai_analysis v ≫= Json_get (js "risk_assessment") with
       | Some risk => if truthy risk then risk else JString []
       | None => JString []
       end;
     StoredVulnerability.severity := severity_text (Vulnerability.severity v) |}.

(** [aiInsights]. *)
Definition aiInsights (scanResult : ScanResult.t) : jsstring :=
  if (0 <? length (ScanResult.vulnerabilities scanResult))%nat
  then js "Found " ++ js (pretty (length (ScanResult.vulnerabilities scanResult)))
       ++ js " security issue(s) across "
       ++ js (pretty (vulnerable_tables (ScanResult.summary scanResult)))
       ++ js " table(s). "
       ++ js (pretty (secure_tables (ScanResult.summary scanResult)))
       ++ js " table(s) are properly secured with RLS."
  else js "All " ++ js (pretty (total_tables (ScanResult.summary scanResult)))
       ++ js " tables are properly secured with Row Level Security.".

(** The row the route inserts into [scan_results]. *)
Record ScanRecord : Type := {
  sr_project_id : jsstring;
  sr_user_id : jsstring;
  sr_scan_date : Z;
  sr_vulnerabilities_found : Z;
  sr_summary : Summary;
  sr_vulnerabilities : list StoredVulnerability.t;
  sr_ai_insights : jsstring;
  sr_details : list Vulnerability.t
}.

Definition scan_record (project_id user_id : jsstring) (date : Z)
    (scanResult : ScanResult.t) : ScanRecord :=
  {| sr_project_id := project_id;
     sr_user_id := user_id;
     sr_scan_date := date;
     sr_vulnerabilities_found :=
       Z.of_nat (length (ScanResult.vulnerabilities scanResult));
     sr_summary := ScanResult.summary scanResult;
     sr_vulnerabilities :=
       stored_vulnerability <$> ScanResult.vulnerabilities scanResult;
     sr_ai_insights := aiInsights scanResult;
     sr_details := ScanResult.vulnerabilities scanResult |}.

(** ** The OAuth state ([api/auth/supabase/authorize], [api/auth/supabase/callback]) *)

(** The escape [\uXXXX] of a code unit, in lowercase hexadecimal digits. *)
Definition unicode_escape (u : N) : jsstring :=
  [92; 117; Hex.digit (u / 4096 mod 16); Hex.digit (u / 256 mod 16);
   Hex.digit (u / 16 mod 16); Hex.digit (u mod 16)].

(** A code unit that is no surrogate, as [JSON.stringify] writes it inside a
    string: the short escapes, [\u00XX] for the other control characters,
    itself otherwise. *)
Definition quote_unit (u : N) : jsstring :=
  if u =? 8 then [92; 98]
  else if u =? 9 then [92; 116]
  else if u =? 10 then [92; 110]
  else if u =? 12 then [92; 102]
  else if u =? 13 then [92; 114]
  else if u =? 34 then [92; 34]
  else if u =? 92 then [92; 92]
  else if u <? 32 then unicode_escape u
  else [u].

(** The characters of a string between the quotes: a surrogate pair is kept,
    an unpaired surrogate is escaped. *)
Fixpoint quote_units (s : jsstring) : jsstring :=
  match s with
  | [] => []
  | u :: rest =>
      if Utf8.is_high u then
        match rest with
        | lo :: rest' =>
            if Utf8.is_low lo then u :: lo :: quote_units rest'
            else unicode_escape u ++ quote_units rest
        | [] => unicode_escape u
        end
      else if Utf8.is_low u then unicode_escape u ++ quote_units rest
      else quote_unit u ++ quote_units rest
  end.

(** [JSON.stringify] of a string. *)
Definition QuoteJSONString (s : jsstring) : jsstring :=
  [34] ++ quote_units s ++ [34].

(** [JSON.stringify({ random, user_id })]. *)
Definition stringify_state (random user_id : jsstring) : jsstring :=
  [123] ++ QuoteJSONString (js "random") ++ [58] ++ QuoteJSONString random
  ++ [44] ++ QuoteJSONString (js "user_id") ++ [58] ++ QuoteJSONString user_id
  ++ [125].

(** The value [JSON.stringify] was given. *)
Definition state_data (random user_id : jsstring) : Json :=
  JObject [(js "random", JString random); (js "user_id", JString user_id)].

(** The [state] the authorization route sends along and keeps in its cookie;
    [random16] is the value of [crypto.randomBytes(16)]. *)
Definition authorize_state (random16 : Buffer) (userId : jsstring) : jsstring :=
  Base64url.encode (Utf8.encode (stringify_state (generateState random16) userId)).

(** What the callback route takes for the user id out of the stored state
    ([None]: it redirects with [error=invalid_state]).  [JSON_parse] gives
    [None] where [JSON.parse] throws. *)
Definition callback_user_id (JSON_parse : jsstring -> option Json)
    (storedState : jsstring) : option Json :=
  stateData ← JSON_parse (Utf8.decode (Base64.decode storedState));
  userId ← Json_get (js "user_id") stateData;
  if truthy userId then Some userId else None.

(** A user id with a quote, a line feed and an unpaired surrogate in it. *)
Definition odd_user_id : jsstring := [117; 34; 10; 0xD800; 45; 49].

(** A parser that knows one text. *)
Definition toy_JSON_parse (text : jsstring) (value : Json) (s : jsstring)
  : option Json :=
  if same_string s text then Some value else None.

(** * Properties *)

Example utf8_ascii : Utf8.decode (Utf8.encode (js "sbp_0123abc")) = js "sbp_0123abc".
Proof. reflexivity. Qed.

Example utf8_euro : Utf8.encode [0x20AC] = [xe2; x82; xac].
Proof. reflexivity. Qed.

Example utf8_pair : Utf8.decode (Utf8.encode [0xD83D; 0xDE00]) = [0xD83D; 0xDE00].
Proof. reflexivity. Qed.

Example utf8_lone : Utf8.decode (Utf8.encode [0xD800]) = [0xFFFD].
Proof. reflexivity. Qed.

Example utf8_cut_short : Utf8.decode [xe2; x82; x41] = [0xFFFD; 0x41].
Proof. reflexivity. Qed.

Example utf8_encoded_surrogate :
  Utf8.decode [xed; xa0; x80] = [0xFFFD; 0xFFFD; 0xFFFD].
Proof. reflexivity. Qed.

Example base64_man : Base64.encode (Utf8.encode (js "Ma")) = js "TWE=".
Proof. reflexivity. Qed.

Example base64_back : Base64.decode (js "TWFu TQ==") = Utf8.encode (js "ManM").
Proof. reflexivity. Qed.

Example hex_back : Hex.decode (Hex.encode [x00; xff; x3c]) = [x00; xff; x3c].
Proof. reflexivity. Qed.

(** ** Bytes *)

Lemma to_N_lt (b : byte) : Byte.to_N b < 256.
Proof. pose proof (Byte.to_N_bounded b). lia. Qed.

Lemma u8_to_N (n : N) : n < 256 -> Byte.to_N (u8 n) = n.
Proof.
  intros Hn. unfold u8. rewrite N.mod_small by done.
  destruct (Byte.of_N n) as [b|] eqn:E.
  - by apply Byte.to_of_N.
  - apply Byte.of_N_None_iff in E. lia.
Qed.

Lemma u8_of_byte (b : byte) : u8 (Byte.to_N b) = b.
Proof.
  unfold u8. rewrite N.mod_small by apply to_N_lt.
  by rewrite Byte.of_to_N.
Qed.

Lemma u8_eq (n : N) (b : byte) : n = Byte.to_N b -> u8 n = b.
Proof. intros ->. apply u8_of_byte. Qed.

Lemma byte_xor_cancel (a k : byte) : byte_xor (byte_xor a k) k = a.
Proof.
  unfold byte_xor.
  destruct (Byte.to_bits a) as (a0 & a1 & a2 & a3 & a4 & a5 & a6 & a7) eqn:Ea.
  destruct (Byte.to_bits k) as (k0 & k1 & k2 & k3 & k4 & k5 & k6 & k7) eqn:Ek.
  rewrite Byte.to_bits_of_bits.
  rewrite !xorb_assoc, !xorb_nilpotent, !xorb_false_r.
  by rewrite <- Ea, Byte.of_bits_to_bits.
Qed.

Lemma flip_bit_neq (i : nat) (b : byte) : flip_bit i b ≠ b.
Proof.
  assert (Hi : (i mod 8 < 8)%nat) by (apply Nat.mod_upper_bound; lia).
  unfold flip_bit. generalize dependent (i mod 8)%nat. intros j Hj.
  do 8 (destruct j as [|j]; [by destruct b; vm_compute|]). lia.
Qed.

(** ** Codecs *)

(** Linear arithmetic with division and remainder by constants. *)
Ltac dlia := zify; Z.to_euclidean_division_equations; lia.

(** Decide the comparisons of a codec step by arithmetic. *)
Ltac cmp_tac :=
  repeat match goal with
  | |- context [?a <? ?b] => destruct (N.ltb_spec a b); try dlia
  | |- context [?a <=? ?b] => destruct (N.leb_spec a b); try dlia
  | |- context [?a =? ?b] => destruct (N.eqb_spec a b); try dlia
  end.

Lemma hex_value_digit (n : N) : n < 16 -> Hex.value (Hex.digit n) = Some n.
Proof.
  intros Hn. unfold Hex.value, Hex.digit.
  cmp_tac; simpl; f_equal; dlia.
Qed.

Lemma hex_decode_encode (bs : Buffer) : Hex.decode (Hex.encode bs) = bs.
Proof.
  induction bs as [|b bs IH]; [done|].
  change (Hex.encode (b :: bs))
    with (Hex.digit (Byte.to_N b / 16) :: Hex.digit (Byte.to_N b mod 16)
            :: Hex.encode bs).
  pose proof (to_N_lt b) as Hb. cbn [Hex.decode].
  rewrite !hex_value_digit by dlia. rewrite IH. f_equal.
  apply u8_eq. dlia.
Qed.

Lemma b64_value_char (n : N) : n < 64 -> Base64.value (Base64.char n) = Some n.
Proof.
  intros Hn. unfold Base64.value, Base64.char.
  cmp_tac; simpl; f_equal; dlia.
Qed.

Lemma base64_decode_encode (bs : Buffer) : Base64.decode (Base64.encode bs) = bs.
Proof.
  unfold Base64.decode.
  remember (length bs) as n eqn:Hlen.
  revert bs Hlen. induction (lt_wf n) as [n _ IH]. intros bs ->.
  destruct bs as [|a [|b [|c rest]]]; [done|..].
  - pose proof (to_N_lt a). cbn [Base64.encode Base64.sextets].
    rewrite !b64_value_char by dlia. cbn. f_equal. apply u8_eq. dlia.
  - pose proof (to_N_lt a). pose proof (to_N_lt b).
    cbn [Base64.encode Base64.sextets].
    rewrite !b64_value_char by dlia. cbn.
    f_equal; [|f_equal]; apply u8_eq; dlia.
  - pose proof (to_N_lt a). pose proof (to_N_lt b). pose proof (to_N_lt c).
    cbn [Base64.encode Base64.sextets app].
    rewrite !b64_value_char by dlia. cbn [Base64.groups app].
    rewrite (IH (length rest)) by (cbn; lia || done).
    f_equal; [|f_equal; [|f_equal]]; apply u8_eq; dlia.
Qed.

(** Settle the first comparison of the goal, splitting only when the context
    leaves it open. *)
Ltac cmp1 :=
  match goal with
  | |- context [?a <? ?b] =>
      first [ rewrite (proj2 (N.ltb_lt a b)) by dlia
            | rewrite (proj2 (N.ltb_ge a b)) by dlia ]
  | |- context [?a <=? ?b] =>
      first [ rewrite (proj2 (N.leb_le a b)) by dlia
            | rewrite (proj2 (N.leb_gt a b)) by dlia ]
  | |- context [?a =? ?b] =>
      first [ rewrite (proj2 (N.eqb_eq a b)) by dlia
            | rewrite (proj2 (N.eqb_neq a b)) by dlia
            | destruct (N.eqb_spec a b) ]
  end.

Ltac utf8_cmp :=
  repeat (cmp1;
          unfold Utf8.is_cont, Utf8.second3, Utf8.second4, Utf8.to_units;
          cbn [andb negb]);
  cbn [app].

(** One step of the decoder. *)
Lemma utf8_decode_cons (b0 : byte) (r0 : Buffer) :
  Utf8.decode (b0 :: r0)
  = let n0 := Byte.to_N b0 in
    if n0 <? 0x80 then n0 :: Utf8.decode r0
    else if (0xC2 <=? n0) && (n0 <=? 0xDF) then
      match r0 with
      | [] => [0xFFFD]
      | b1 :: r1 =>
          let n1 := Byte.to_N b1 in
          if Utf8.is_cont n1
          then ((n0 - 0xC0) * 64 + (n1 - 0x80)) :: Utf8.decode r1
          else 0xFFFD :: Utf8.decode r0
      end
    else if (0xE0 <=? n0) && (n0 <=? 0xEF) then
      match r0 with
      | [] => [0xFFFD]
      | b1 :: r1 =>
          let n1 := Byte.to_N b1 in
          if Utf8.second3 n0 n1 then
            match r1 with
            | [] => [0xFFFD]
            | b2 :: r2 =>
                let n2 := Byte.to_N b2 in
                if Utf8.is_cont n2
                then ((n0 - 0xE0) * 4096 + (n1 - 0x80) * 64 + (n2 - 0x80))
                       :: Utf8.decode r2
                else 0xFFFD :: Utf8.decode r1
            end
          else 0xFFFD :: Utf8.decode r0
      end
    else if (0xF0 <=? n0) && (n0 <=? 0xF4) then
      match r0 with
      | [] => [0xFFFD]
      | b1 :: r1 =>
          let n1 := Byte.to_N b1 in
          if Utf8.second4 n0 n1 then
            match r1 with
            | [] => [0xFFFD]
            | b2 :: r2 =>
                let n2 := Byte.to_N b2 in
                if Utf8.is_cont n2 then
                  match r2 with
                  | [] => [0xFFFD]
                  | b3 :: r3 =>
                      let n3 := Byte.to_N b3 in
                      if Utf8.is_cont n3
                      then Utf8.to_units ((n0 - 0xF0) * 262144
                                          + (n1 - 0x80) * 4096
                                          + (n2 - 0x80) * 64 + (n3 - 0x80))
                             ++ Utf8.decode r3
                      else 0xFFFD :: Utf8.decode r2
                  end
                else 0xFFFD :: Utf8.decode r1
            end
          else 0xFFFD :: Utf8.decode r0
      end
    else 0xFFFD :: Utf8.decode r0.
Proof. by destruct r0 as [|b1 [|b2 [|b3 r3]]]. Qed.

Lemma utf8_decode_of_cp (c : N) (rest : Buffer) :
  scalar c ->
  Utf8.decode (Utf8.of_cp c ++ rest) = Utf8.to_units c ++ Utf8.decode rest.
Proof.
  intros [Hmax Hsur]. unfold Utf8.of_cp, Utf8.to_units.
  destruct (N.ltb_spec c 0x80); [|destruct (N.ltb_spec c 0x800);
    [|destruct (N.ltb_spec c 0x10000)]];
  cbn [app]; rewrite utf8_decode_cons; cbv beta iota zeta;
  rewrite !u8_to_N by dlia;
  unfold Utf8.is_cont, Utf8.second3, Utf8.second4.
  - utf8_cmp; repeat f_equal; dlia.
  - utf8_cmp; repeat f_equal; dlia.
  - utf8_cmp; repeat f_equal; dlia.
  - utf8_cmp;
    match goal with |- context [?e - 65536] =>
      lazymatch e with c => fail | _ => replace e with c by dlia end end;
    done.
Qed.

(** Text without unpaired surrogates survives the UTF-8 codec. *)
Lemma utf8_decode_encode (s : jsstring) :
  Utf8.well_formed s = true -> Utf8.decode (Utf8.encode s) = s.
Proof.
  remember (length s) as n eqn:Hlen.
  revert s Hlen. induction (lt_wf n) as [n _ IH]. intros s -> Hwf.
  destruct s as [|u rest]; [done|].
  cbn [Utf8.encode Utf8.well_formed] in *.
  destruct (Utf8.is_high u) eqn:Hhi.
  - destruct rest as [|lo rest']; [done|].
    apply andb_true_iff in Hwf as [Hlo Hwf]. rewrite Hlo.
    unfold Utf8.is_high, Utf8.is_low in Hhi, Hlo.
    apply andb_true_iff in Hhi as [?%N.leb_le ?%N.leb_le].
    apply andb_true_iff in Hlo as [?%N.leb_le ?%N.leb_le].
    rewrite utf8_decode_of_cp by (unfold scalar; lia).
    rewrite (IH (length rest')) by (cbn; lia || done).
    unfold Utf8.to_units. utf8_cmp. repeat f_equal; dlia.
  - apply andb_true_iff in Hwf as [[Hlo Hu]%andb_true_iff Hwf].
    apply negb_true_iff in Hlo. rewrite Hlo.
    apply N.ltb_lt in Hu.
    unfold Utf8.is_high, Utf8.is_low in Hhi, Hlo.
    rewrite utf8_decode_of_cp.
    + rewrite (IH (length rest)) by (cbn; lia || done).
      unfold Utf8.to_units. by utf8_cmp.
    + split; [lia|]. intros [? ?].
      apply andb_false_iff in Hhi as [?%N.leb_gt | ?%N.leb_gt];
      apply andb_false_iff in Hlo as [?%N.leb_gt | ?%N.leb_gt]; lia.
Qed.

(** ** Counter mode and buffer slices *)

Lemma imap_compose {A B C} (f : nat -> B -> C) (g : nat -> A -> B) (l : list A) :
  imap f (imap g l) = imap (fun i x => f i (g i x)) l.
Proof.
  revert f g. induction l as [|x l IH]; intros f g; [done|].
  cbn. f_equal. apply IH.
Qed.

Lemma imap_fixes {A} (f : nat -> A -> A) (l : list A) :
  (forall i x, f i x = x) -> imap f l = l.
Proof.
  revert f. induction l as [|x l IH]; intros f Hf; [done|].
  cbn. rewrite Hf. f_equal. apply IH. intros i y. apply Hf.
Qed.

Lemma ctr_xor_cancel `{AesGcm} (key iv data : Buffer) :
  ctr_xor key iv (ctr_xor key iv data) = data.
Proof.
  unfold ctr_xor. rewrite imap_compose.
  apply imap_fixes. intros i b. apply byte_xor_cancel.
Qed.

Lemma ctr_xor_length `{AesGcm} (key iv data : Buffer) :
  length (ctr_xor key iv data) = length data.
Proof. apply length_imap. Qed.

Lemma subarray_nat (b : Buffer) (i j : nat) :
  (i <= j <= length b)%nat ->
  subarray b (Z.of_nat i) (Z.of_nat j) = take (j - i) (drop i b).
Proof.
  intros Hij. unfold subarray, slice, rel_index.
  destruct (Z.ltb_spec (Z.of_nat i) 0); [lia|].
  destruct (Z.ltb_spec (Z.of_nat j) 0); [lia|].
  rewrite !Nat2Z.id. by rewrite !Nat.min_l by lia.
Qed.

Section Slices.
Context (iv data tag : Buffer).
Hypothesis Hiv : length iv = IV_LENGTH.
Hypothesis Htag : length tag = TAG_LENGTH.
Let combined := iv ++ data ++ tag.
Let len := Z.of_nat (length combined).

Lemma combined_length : length combined = (length data + 32)%nat.
Proof using Hiv Htag.
  unfold combined, IV_LENGTH, TAG_LENGTH in *. rewrite !length_app. lia.
Qed.

Lemma subarray_iv : subarray combined 0 (Z.of_nat IV_LENGTH) = iv.
Proof using Hiv Htag.
  change 0%Z with (Z.of_nat 0). rewrite subarray_nat.
  - unfold combined. cbn [drop]. rewrite Nat.sub_0_r, <- Hiv.
    apply take_app_length.
  - rewrite combined_length. unfold IV_LENGTH. lia.
Qed.

Lemma subarray_tag : subarray combined (len - Z.of_nat TAG_LENGTH) len = tag.
Proof using Hiv Htag.
  unfold len. rewrite <- Nat2Z.inj_sub, subarray_nat.
  - unfold combined. rewrite app_assoc.
    replace (length ((iv ++ data) ++ tag) - TAG_LENGTH)%nat
      with (length (iv ++ data)) by (rewrite !length_app; lia).
    rewrite drop_app_length. apply firstn_all2.
    unfold combined, IV_LENGTH, TAG_LENGTH in *. rewrite ?length_app. lia.
  - lia.
  - rewrite combined_length. unfold TAG_LENGTH. lia.
Qed.

Lemma subarray_data :
  subarray combined (Z.of_nat IV_LENGTH) (len - Z.of_nat TAG_LENGTH) = data.
Proof using Hiv Htag.
  unfold len. rewrite <- Nat2Z.inj_sub, subarray_nat.
  - unfold combined. rewrite <- Hiv at 2. rewrite drop_app_length.
    replace (length (iv ++ data ++ tag) - TAG_LENGTH - IV_LENGTH)%nat
      with (length data) by (rewrite !length_app; lia).
    apply take_app_length.
  - rewrite combined_length. unfold IV_LENGTH, TAG_LENGTH. lia.
  - rewrite combined_length. unfold TAG_LENGTH. lia.
Qed.

End Slices.

(** ** The vault *)

Lemma hex_decode_length (s : jsstring) :
  Forall (fun c => is_Some (Hex.value c)) s ->
  length (Hex.decode s) = (length s / 2)%nat.
Proof.
  remember (length s) as n eqn:Hlen.
  revert s Hlen. induction (lt_wf n) as [n _ IH]. intros s -> Hs.
  destruct s as [|a [|b rest]]; [done..|].
  apply Forall_cons in Hs as [[x Hx] Hs]. apply Forall_cons in Hs as [[y Hy] Hs].
  cbn [Hex.decode]. rewrite Hx, Hy. cbn [length].
  rewrite (IH (length rest)) by (cbn; lia || done).
  change (S (S (length rest))) with (1 * 2 + length rest)%nat.
  rewrite Nat.add_comm, Nat.div_add by lia. lia.
Qed.

Lemma getEncryptionKey_well_formed (env_key : option jsstring) :
  well_formed_key env_key = true ->
  exists key, getEncryptionKey env_key = Ok key /\ length key = 32%nat.
Proof.
  destruct env_key as [k|]; [|done]. cbn.
  intros [Hlen Hhex]%andb_true_iff.
  apply Nat.eqb_eq in Hlen. rewrite forallb_forall in Hhex.
  assert (Forall (fun c => is_Some (Hex.value c)) k).
  { apply Forall_forall. intros c Hc%list_elem_of_In.
    apply Hhex in Hc. by apply bool_decide_eq_true in Hc. }
  exists (Hex.decode k). split.
  - unfold getEncryptionKey. destruct k as [|c k]; [done|].
    rewrite bool_decide_eq_false_2; [done|]. intros Hne. by apply Hne.
  - by rewrite hex_decode_length, Hlen.
Qed.

Lemma base64_encode_nonempty (bs : Buffer) : bs ≠ [] -> Base64.encode bs ≠ [].
Proof. by destruct bs as [|a [|b [|c rest]]]. Qed.

Lemma setAuthTag_full (tag : Buffer) :
  length tag = 16%nat -> setAuthTag tag = Ok tt.
Proof.
  intros Htag. unfold setAuthTag. rewrite Htag.
  by rewrite bool_decide_eq_true_2 by set_solver.
Qed.

Section Vault.
Context `{G : AesGcm}.
Context (env_key : option jsstring) (key iv : Buffer).
Hypothesis Hkey : getEncryptionKey env_key = Ok key.
Hypothesis Hkeylen : length key = 32%nat.
Hypothesis Hiv : length iv = 16%nat.

Lemma createCipheriv_ok : createCipheriv key iv = Ok tt.
Proof using Hkeylen Hiv.
  unfold createCipheriv.
  rewrite bool_decide_eq_false_2 by (intros Hne; by apply Hne).
  rewrite bool_decide_eq_false_2; [done|]. by intros ->.
Qed.

Lemma encrypt_sealed (s : jsstring) :
  s ≠ [] -> encrypt env_key iv s = Ok (Base64.encode (sealed key iv s)).
Proof using Hkey Hkeylen Hiv.
  intros Hs. unfold encrypt. destruct s as [|u s]; [done|].
  rewrite Hkey. cbn [mbind result_bind]. rewrite createCipheriv_ok.
  cbn [mbind result_bind mret result_ret]. by rewrite hex_decode_encode.
Qed.

Lemma decrypt_layout (data tag : Buffer) :
  length tag = 16%nat ->
  decrypt env_key (Base64.encode (iv ++ data ++ tag)) =
    if tag_verifies key iv data tag
    then Ok (Utf8.decode (ctr_xor key iv data))
    else Err IntegrityError.
Proof using Hkey Hkeylen Hiv.
  intros Htag. unfold decrypt.
  destruct (Base64.encode (iv ++ data ++ tag)) as [|c blob] eqn:Hblob.
  { apply base64_encode_nonempty in Hblob; [done|]. by destruct iv. }
  rewrite <- Hblob, Hkey. cbn [mbind result_bind].
  rewrite base64_decode_encode.
  rewrite subarray_iv, subarray_tag, subarray_data by done.
  unfold createDecipheriv. rewrite createCipheriv_ok. cbn [mbind result_bind].
  rewrite setAuthTag_full by done.
  cbn [mbind result_bind mret result_ret]. by rewrite hex_decode_encode.
Qed.

Lemma tag_verifies_own (data : Buffer) :
  tag_verifies key iv data (gcm_tag key iv data) = true.
Proof.
  unfold tag_verifies. apply bool_decide_eq_true_2.
  apply firstn_all2. lia.
Qed.

(** What [decrypt] returns on what [encrypt] produced: the plaintext after
    one pass through the UTF-8 codec. *)
Lemma decrypt_sealed (s : jsstring) :
  decrypt env_key (Base64.encode (sealed key iv s)) =
    Ok (Utf8.decode (Utf8.encode s)).
Proof using Hkey Hkeylen Hiv.
  unfold sealed. rewrite decrypt_layout by apply gcm_tag_length.
  by rewrite tag_verifies_own, ctr_xor_cancel.
Qed.

End Vault.

(** C1 (amended).  With a well-formed 32-byte key configured, for every
    non-empty plaintext [s] that contains no unpaired surrogate, [encrypt]
    returns the base64 text of nonce (16 bytes), then ciphertext (as long as
    the UTF-8 form of [s]), then tag (16 bytes), and [decrypt] of that blob
    returns exactly [s]. *)
Theorem encrypt_decrypt_roundtrip `{G : AesGcm} (env_key : option jsstring)
    (iv : Buffer) (s : jsstring) :
  well_formed_key env_key = true ->
  length iv = IV_LENGTH ->
  s ≠ [] ->
  Utf8.well_formed s = true ->
  exists key,
    getEncryptionKey env_key = Ok key /\
    let data := ctr_xor key iv (Utf8.encode s) in
    let tag := gcm_tag key iv data in
    length iv = 16%nat /\ length data = length (Utf8.encode s) /\
    length tag = 16%nat /\
    encrypt env_key iv s = Ok (Base64.encode (iv ++ data ++ tag)) /\
    decrypt env_key (Base64.encode (iv ++ data ++ tag)) = Ok s.
Proof.
  intros Hwf Hiv Hs Hutf.
  destruct (getEncryptionKey_well_formed _ Hwf) as (key & Hkey & Hlen).
  exists key. split; [done|]. cbn zeta.
  split; [done|]. split; [apply ctr_xor_length|].
  split; [apply gcm_tag_length|]. split.
  - by apply encrypt_sealed.
  - fold (sealed key iv s). rewrite (decrypt_sealed _ _ _ Hkey) by done.
    by rewrite utf8_decode_encode.
Qed.

Lemma encrypt_decrypt_roundtrip_witness :
  exists key,
    getEncryptionKey demo_key = Ok key /\
    let data := ctr_xor (H:=toy_gcm) key demo_iv (Utf8.encode (js "sbp_oauth_4f2a")) in
    let tag := gcm_tag (AesGcm:=toy_gcm) key demo_iv data in
    length demo_iv = 16%nat /\
    length data = length (Utf8.encode (js "sbp_oauth_4f2a")) /\
    length tag = 16%nat /\
    encrypt (H:=toy_gcm) demo_key demo_iv (js "sbp_oauth_4f2a")
      = Ok (Base64.encode (demo_iv ++ data ++ tag)) /\
    decrypt (H:=toy_gcm) demo_key (Base64.encode (demo_iv ++ data ++ tag))
      = Ok (js "sbp_oauth_4f2a").
Proof.
  apply (encrypt_decrypt_roundtrip (G:=toy_gcm) demo_key demo_iv
           (js "sbp_oauth_4f2a")); [reflexivity|reflexivity|discriminate|reflexivity].
Defined.

(** C1, as stated, fails on a plaintext that holds an unpaired surrogate:
    whatever the cipher, key and nonce, the one-unit string U+D800 comes back
    from [decrypt] as U+FFFD. *)
Lemma roundtrip_loses_lone_surrogate :
  (forall (G : AesGcm) env_key iv,
     well_formed_key env_key = true -> length iv = IV_LENGTH ->
     exists blob, encrypt env_key iv [0xD800] = Ok blob
                  /\ decrypt env_key blob = Ok [0xFFFD])
  /\ (exists blob, encrypt (H:=toy_gcm) demo_key demo_iv [0xD800] = Ok blob
                   /\ decrypt (H:=toy_gcm) demo_key blob = Ok [0xFFFD])
  /\ [0xFFFD] ≠ [0xD800].
Proof.
  assert (Hall : forall (G : AesGcm) env_key iv,
     well_formed_key env_key = true -> length iv = IV_LENGTH ->
     exists blob, encrypt env_key iv [0xD800] = Ok blob
                  /\ decrypt env_key blob = Ok [0xFFFD]).
  { intros G env_key iv Hwf Hiv.
    destruct (getEncryptionKey_well_formed _ Hwf) as (key & Hkey & Hlen).
    exists (Base64.encode (sealed key iv [0xD800])). split.
    - by apply encrypt_sealed.
    - by rewrite (decrypt_sealed _ _ _ Hkey). }
  split; [exact Hall|]. split; [|discriminate].
  by apply Hall.
Qed.

(** ** Tampering *)

Lemma flip_at_length (pos : nat) (b : Buffer) : length (flip_at pos b) = length b.
Proof. apply length_alter. Qed.

Lemma flip_at_neq (pos : nat) (b : Buffer) :
  (pos < 8 * length b)%nat -> flip_at pos b ≠ b.
Proof.
  intros Hpos Heq.
  assert (Hi : (pos / 8 < length b)%nat) by (apply Nat.Div0.div_lt_upper_bound; lia).
  destruct (lookup_lt_is_Some_2 b _ Hi) as [x Hx].
  assert (Hy : flip_at pos b !! (pos / 8)%nat = Some (flip_bit (pos mod 8) x)).
  { unfold flip_at. by rewrite list_lookup_alter_eq, Hx. }
  rewrite Heq, Hx in Hy. injection Hy as Hy. symmetry in Hy.
  by apply flip_bit_neq in Hy.
Qed.

Lemma flip_at_app_l (pos : nat) (l1 l2 : Buffer) :
  (pos < 8 * length l1)%nat -> flip_at pos (l1 ++ l2) = flip_at pos l1 ++ l2.
Proof.
  intros Hpos. unfold flip_at. apply alter_app_l.
  apply Nat.Div0.div_lt_upper_bound. lia.
Qed.

Lemma flip_at_app_r (pos : nat) (l1 l2 : Buffer) :
  (8 * length l1 <= pos)%nat ->
  flip_at pos (l1 ++ l2) = l1 ++ flip_at (pos - 8 * length l1) l2.
Proof.
  intros Hpos. unfold flip_at.
  replace pos with (length l1 * 8 + (pos - 8 * length l1))%nat at 1 2 by lia.
  rewrite Nat.add_comm, Nat.Div0.mod_add, Nat.div_add by lia.
  rewrite (Nat.add_comm _ (length l1)). apply alter_app_r.
Qed.

Section Tamper.
Context `{G : AesGcm}.
Context (env_key : option jsstring) (key iv : Buffer).
Hypothesis Hkey : getEncryptionKey env_key = Ok key.
Hypothesis Hkeylen : length key = 32%nat.
Hypothesis Hiv : length iv = 16%nat.

Lemma decrypt_flipped_tag (data : Buffer) (pos : nat) :
  (pos < 8 * 16)%nat ->
  decrypt env_key
    (Base64.encode (iv ++ data ++ flip_at pos (gcm_tag key iv data)))
  = Err IntegrityError.
Proof using Hkey Hkeylen Hiv.
  intros Hpos.
  rewrite (decrypt_layout _ _ _ Hkey) by
    (try done; by rewrite flip_at_length, gcm_tag_length).
  unfold tag_verifies. rewrite bool_decide_eq_false_2; [done|].
  rewrite flip_at_length, firstn_all2 by (rewrite gcm_tag_length; lia).
  intros Heq. symmetry in Heq. revert Heq. apply flip_at_neq.
  by rewrite gcm_tag_length.
Qed.

Lemma decrypt_flipped_data (data : Buffer) (pos : nat) :
  gcm_tag key iv (flip_at pos data) ≠ gcm_tag key iv data ->
  decrypt env_key
    (Base64.encode (iv ++ flip_at pos data ++ gcm_tag key iv data))
  = Err IntegrityError.
Proof using Hkey Hkeylen Hiv.
  intros Hne.
  rewrite (decrypt_layout _ _ _ Hkey) by (try done; apply gcm_tag_length).
  unfold tag_verifies. rewrite bool_decide_eq_false_2; [done|].
  by rewrite firstn_all2 by (rewrite !gcm_tag_length; lia).
Qed.

(** Sealed bytes need not be the UTF-8 form of a text: [decrypt] decodes
    whatever bytes carry a tag that verifies. *)
Lemma decrypt_sealed_bytes (p : Buffer) :
  decrypt env_key
    (Base64.encode (iv ++ ctr_xor key iv p ++ gcm_tag key iv (ctr_xor key iv p)))
  = Ok (Utf8.decode p).
Proof using Hkey Hkeylen Hiv.
  rewrite (decrypt_layout _ _ _ Hkey) by (try done; apply gcm_tag_length).
  by rewrite tag_verifies_own, ctr_xor_cancel.
Qed.

(** [encrypt] returns the sealed form of the bytes [p] only for a text whose
    UTF-8 form [p] is. *)
Lemma encrypt_seals_text (p iv' : Buffer) (s : jsstring) :
  length iv' = 16%nat ->
  encrypt env_key iv' s
  = Ok (Base64.encode
          (iv ++ ctr_xor key iv p ++ gcm_tag key iv (ctr_xor key iv p))) ->
  s ≠ [] /\ Utf8.encode s = p.
Proof using Hkey Hkeylen Hiv.
  intros Hiv' Henc. destruct (decide (s = [])) as [->|Hs]; [done|].
  split; [done|].
  rewrite (encrypt_sealed _ _ _ Hkey Hkeylen Hiv' s Hs) in Henc.
  injection Henc as Heq. apply (f_equal Base64.decode) in Heq.
  rewrite !base64_decode_encode in Heq. unfold sealed in Heq.
  apply app_inj_1 in Heq as [-> Heq]; [|congruence].
  apply app_inj_2 in Heq as [Heq _]; [|by rewrite !gcm_tag_length].
  apply (f_equal (ctr_xor key iv)) in Heq. by rewrite !ctr_xor_cancel in Heq.
Qed.

End Tamper.

Lemma of_cp_single (c : N) (rest : Buffer) (b : byte) :
  Utf8.of_cp c ++ rest = [b] -> Byte.to_N b < 0x80.
Proof.
  unfold Utf8.of_cp.
  destruct (N.ltb_spec c 0x80) as [Hc|_];
    [|destruct (c <? 0x800); [|destruct (c <? 0x10000)]; by intros [=]].
  intros [= <- _]. rewrite u8_to_N; lia.
Qed.

Lemma utf8_encode_nonempty (s : jsstring) : s ≠ [] -> Utf8.encode s ≠ [].
Proof.
  destruct s as [|u rest]; [done|]. intros _. cbn [Utf8.encode].
  assert (Hcp : forall c tl, Utf8.of_cp c ++ tl ≠ []).
  { intros c tl. unfold Utf8.of_cp.
    by destruct (c <? 0x80); [|destruct (c <? 0x800); [|destruct (c <? 0x10000)]]. }
  destruct (Utf8.is_high u);
    [destruct rest as [|lo rest']; [done|destruct (Utf8.is_low lo)]
    |destruct (Utf8.is_low u)]; apply Hcp.
Qed.

(** The byte 0xFF alone is the UTF-8 form of no text. *)
Lemma utf8_encode_not_ff (s : jsstring) : Utf8.encode s ≠ [xff].
Proof.
  destruct s as [|u rest]; [done|]. cbn [Utf8.encode].
  destruct (Utf8.is_high u);
    [destruct rest as [|lo rest']; [done|destruct (Utf8.is_low lo)]
    |destruct (Utf8.is_low u)];
    intros Heq; apply of_cp_single in Heq; vm_compute in Heq; done.
Qed.

Lemma flip_at_middle (data : Buffer) (pos : nat) (x : byte) :
  data !! (pos / 8)%nat = Some x ->
  flip_at pos data
  = take (pos / 8) data ++ flip_bit (pos mod 8) x :: drop (S (pos / 8)) data.
Proof.
  intros Hx. unfold flip_at.
  assert (Hlen : length (take (pos / 8) data) = (pos / 8)%nat).
  { apply lookup_lt_Some in Hx. rewrite length_take. lia. }
  rewrite <- (take_drop_middle data _ x Hx) at 1.
  rewrite alter_app_r_alt by lia. by rewrite Hlen, Nat.sub_diag.
Qed.

(** ** The field of GHASH *)

Lemma testbit_high (a n m : N) : a < 2 ^ n -> n <= m -> N.testbit a m = false.
Proof.
  intros Ha Hm. destruct (N.eq_dec a 0) as [->|Hne]; [apply N.bits_0|].
  apply N.bits_above_log2.
  assert (N.log2 a < n) by (apply N.log2_lt_pow2; lia). lia.
Qed.

Lemma lt_pow2_bits (a n : N) :
  (forall m, n <= m -> N.testbit a m = false) -> a < 2 ^ n.
Proof.
  intros Hbits. destruct (N.lt_ge_cases a (2 ^ n)) as [|Hge]; [done|].
  assert (Hpos : 0 < a).
  { pose proof (N.pow_nonzero 2 n). lia. }
  assert (Hlog : n <= N.log2 a) by (by apply N.log2_le_pow2).
  assert (Hbit : N.testbit a (N.log2 a) = true) by (apply N.bit_log2; lia).
  by rewrite (Hbits _ Hlog) in Hbit.
Qed.

Lemma lxor_lt (a b n : N) : a < 2 ^ n -> b < 2 ^ n -> N.lxor a b < 2 ^ n.
Proof.
  intros Ha Hb. apply lt_pow2_bits. intros m Hm.
  by rewrite N.lxor_spec, (testbit_high a n m), (testbit_high b n m).
Qed.

Lemma lxor_swap (a b c d : N) :
  N.lxor (N.lxor a b) (N.lxor c d) = N.lxor (N.lxor a c) (N.lxor b d).
Proof.
  rewrite !N.lxor_assoc. f_equal.
  rewrite <- !N.lxor_assoc. f_equal. apply N.lxor_comm.
Qed.

Lemma linear_0 (f : N -> N) : Gcm.linear f -> f 0 = 0.
Proof.
  intros Hf. pose proof (Hf 0 0) as H0.
  by rewrite N.lxor_0_r, N.lxor_nilpotent in H0.
Qed.

Lemma split_top_bit (x : N) (n : N) :
  x < 2 ^ N.succ n ->
  N.clearbit x n < 2 ^ n
  /\ x = N.lxor (N.clearbit x n) (if N.testbit x n then 2 ^ n else 0).
Proof.
  intros Hx. split.
  - apply lt_pow2_bits. intros m Hm. rewrite N.clearbit_eqb.
    destruct (N.eqb_spec n m) as [->|Hne]; [apply andb_false_r|].
    rewrite (testbit_high x (N.succ n) m) by lia. done.
  - apply N.bits_inj. intros m. rewrite N.lxor_spec, N.clearbit_eqb.
    destruct (N.testbit x n) eqn:Hb.
    + rewrite N.pow2_bits_eqb.
      destruct (N.eqb_spec n m) as [->|Hne]; [by rewrite Hb|].
      by rewrite andb_true_r, xorb_false_r.
    + rewrite N.bits_0, xorb_false_r.
      destruct (N.eqb_spec n m) as [->|Hne]; [by rewrite Hb|].
      by rewrite andb_true_r.
Qed.

(** Two linear maps that agree on the powers of two below [2 ^ n] agree
    below [2 ^ n]. *)
Lemma linear_ext (f g : N -> N) (n : nat) :
  Gcm.linear f -> Gcm.linear g ->
  (forall k, (k < n)%nat -> f (2 ^ N.of_nat k) = g (2 ^ N.of_nat k)) ->
  forall x, x < 2 ^ N.of_nat n -> f x = g x.
Proof.
  intros Hf Hg. induction n as [|n IH]; intros Hbasis x Hx.
  - assert (x = 0) as -> by (cbn in Hx; lia).
    by rewrite !linear_0.
  - rewrite Nat2N.inj_succ in Hx.
    destruct (split_top_bit x _ Hx) as [Hlo Hsplit].
    rewrite Hsplit, Hf, Hg. f_equal.
    + apply IH; [|done]. intros k Hk. apply Hbasis. lia.
    + destruct (N.testbit x (N.of_nat n)); [apply Hbasis; lia|].
      by rewrite !linear_0.
Qed.

Lemma linear_compose (f g : N -> N) :
  Gcm.linear f -> Gcm.linear g -> Gcm.linear (fun x => f (g x)).
Proof. intros Hf Hg a b. by rewrite Hg, Hf. Qed.

Lemma linear_lxor (f g : N -> N) :
  Gcm.linear f -> Gcm.linear g -> Gcm.linear (fun x => N.lxor (f x) (g x)).
Proof. intros Hf Hg a b. rewrite Hf, Hg. apply lxor_swap. Qed.

Lemma linear_id : Gcm.linear (fun x => x).
Proof. by intros a b. Qed.

Lemma linear_iter (f : N -> N) (n : nat) : Gcm.linear f -> Gcm.linear (Nat.iter n f).
Proof.
  intros Hf. induction n as [|n IH]; [by intros a b|].
  intros a b. by rewrite !Nat.iter_succ, IH, Hf.
Qed.

Lemma R_lt : Gcm.R < 2 ^ 128.
Proof. reflexivity. Qed.

Lemma mulx_linear : Gcm.linear Gcm.mulx.
Proof.
  intros a b. unfold Gcm.mulx.
  rewrite N.shiftr_lxor, N.lxor_spec, (lxor_swap (N.shiftr a 1)). f_equal.
  by destruct (N.testbit a 0), (N.testbit b 0); cbn [xorb];
    rewrite ?N.lxor_nilpotent, ?N.lxor_0_r, ?N.lxor_0_l.
Qed.

Lemma mulx_lt (v : N) : v < 2 ^ 128 -> Gcm.mulx v < 2 ^ 128.
Proof.
  intros Hv. unfold Gcm.mulx. apply lxor_lt.
  - rewrite N.shiftr_div_pow2. change (2 ^ 1) with 2.
    apply N.Div0.div_lt_upper_bound. lia.
  - destruct (N.testbit v 0); [apply R_lt|done].
Qed.

Lemma iter_mulx_lt (n : nat) (v : N) :
  v < 2 ^ 128 -> Nat.iter n Gcm.mulx v < 2 ^ 128.
Proof.
  intros Hv. induction n as [|n IH]; [done|].
  rewrite Nat.iter_succ. by apply mulx_lt.
Qed.

Lemma mul_loop_linear_l (n : nat) (v : N) : Gcm.linear (fun x => Gcm.mul_loop n x v).
Proof.
  revert v. induction n as [|n IH]; intros v a b; [done|].
  cbn [Gcm.mul_loop]. rewrite IH, N.lxor_spec.
  destruct (N.testbit a (N.of_nat n)), (N.testbit b (N.of_nat n)); cbn [xorb];
    rewrite lxor_swap; f_equal;
    by rewrite ?N.lxor_nilpotent, ?N.lxor_0_r, ?N.lxor_0_l.
Qed.

Lemma mul_loop_linear_r (n : nat) (x : N) : Gcm.linear (Gcm.mul_loop n x).
Proof.
  induction n as [|n IH]; intros a b; [done|].
  cbn [Gcm.mul_loop]. rewrite mulx_linear, IH.
  destruct (N.testbit x (N.of_nat n)); [apply lxor_swap|].
  by rewrite !N.lxor_0_l.
Qed.

Lemma mul_linear_l (y : N) : Gcm.linear (fun x => Gcm.mul x y).
Proof. apply mul_loop_linear_l. Qed.

Lemma mul_linear_r (x : N) : Gcm.linear (Gcm.mul x).
Proof. apply mul_loop_linear_r. Qed.

Lemma mul_loop_lt (n : nat) (x v : N) :
  v < 2 ^ 128 -> Gcm.mul_loop n x v < 2 ^ 128.
Proof.
  revert v. induction n as [|n IH]; intros v Hv; [done|].
  cbn [Gcm.mul_loop]. apply lxor_lt; [|by apply IH, mulx_lt].
  by destruct (N.testbit _ _).
Qed.

Lemma mul_lt (x y : N) : y < 2 ^ 128 -> Gcm.mul x y < 2 ^ 128.
Proof. apply mul_loop_lt. Qed.

Lemma mul_0_l (y : N) : Gcm.mul 0 y = 0.
Proof. apply (linear_0 _ (mul_linear_l y)). Qed.

(** A power of two picks one term of the sum. *)
Lemma mul_loop_pow2 (n j : nat) (v : N) :
  Gcm.mul_loop n (2 ^ N.of_nat j) v
  = if decide (j < n)%nat then Nat.iter (n - 1 - j) Gcm.mulx v else 0.
Proof.
  revert v. induction n as [|n IH]; intros v; [done|].
  cbn [Gcm.mul_loop]. rewrite IH, N.pow2_bits_eqb.
  destruct (N.eqb_spec (N.of_nat j) (N.of_nat n)) as [Heq|Hne].
  - apply Nat2N.inj in Heq as ->.
    rewrite decide_False by lia. rewrite decide_True by lia.
    replace (S n - 1 - n)%nat with 0%nat by lia. cbn. apply N.lxor_0_r.
  - assert (j ≠ n) by congruence.
    destruct (decide (j < n)%nat).
    + rewrite decide_True by lia. rewrite N.lxor_0_l.
      replace (S n - 1 - j)%nat with (S (n - 1 - j)) by lia.
      by rewrite Nat.iter_succ_r.
    + rewrite decide_False by lia. done.
Qed.

Lemma mul_pow2 (j : nat) (v : N) :
  (j < 128)%nat -> Gcm.mul (2 ^ N.of_nat j) v = Nat.iter (127 - j) Gcm.mulx v.
Proof.
  intros Hj. unfold Gcm.mul. rewrite mul_loop_pow2, decide_True by done.
  by replace (128 - 1 - j)%nat with (127 - j)%nat by lia.
Qed.

Lemma mulx_pow2_succ (j : N) : Gcm.mulx (2 ^ N.succ j) = 2 ^ j.
Proof.
  unfold Gcm.mulx. rewrite N.pow2_bits_eqb.
  destruct (N.eqb_spec (N.succ j) 0); [lia|]. rewrite N.lxor_0_r.
  rewrite N.shiftr_div_pow2, N.pow_succ_r'. change (2 ^ 1) with 2.
  rewrite N.mul_comm. apply N.div_mul. lia.
Qed.

(** x^128 = 1 + x + x^2 + x^7. *)
Lemma mulx_128 (z : N) :
  z < 2 ^ 128 ->
  Nat.iter 128 Gcm.mulx z
  = N.lxor (N.lxor z (Gcm.mulx z))
           (N.lxor (Nat.iter 2 Gcm.mulx z) (Nat.iter 7 Gcm.mulx z)).
Proof.
  apply (linear_ext (Nat.iter 128 Gcm.mulx)
           (fun z => N.lxor (N.lxor z (Gcm.mulx z))
                       (N.lxor (Nat.iter 2 Gcm.mulx z) (Nat.iter 7 Gcm.mulx z)))
           128).
  - apply linear_iter, mulx_linear.
  - apply linear_lxor; apply linear_lxor;
      first [apply linear_id | apply mulx_linear
            | apply (linear_iter Gcm.mulx), mulx_linear].
  - intros k Hk.
    assert (Hall : forallb (fun k =>
              Nat.iter 128 Gcm.mulx (2 ^ N.of_nat k)
              =? N.lxor (N.lxor (2 ^ N.of_nat k) (Gcm.mulx (2 ^ N.of_nat k)))
                   (N.lxor (Nat.iter 2 Gcm.mulx (2 ^ N.of_nat k))
                           (Nat.iter 7 Gcm.mulx (2 ^ N.of_nat k))))
              (seq 0 128) = true) by (vm_compute; reflexivity).
    rewrite forallb_forall in Hall.
    apply N.eqb_eq, Hall, in_seq. lia.
Qed.

Lemma R_sum : Gcm.R = N.lxor (N.lxor (2 ^ 127) (2 ^ 126)) (N.lxor (2 ^ 125) (2 ^ 120)).
Proof. reflexivity. Qed.

(** Multiplication by x commutes with the product. *)
Lemma mul_mulx_l (y z : N) :
  y < 2 ^ 128 -> z < 2 ^ 128 ->
  Gcm.mul (Gcm.mulx y) z = Gcm.mulx (Gcm.mul y z).
Proof.
  intros Hy Hz. revert y Hy.
  apply (linear_ext (fun y => Gcm.mul (Gcm.mulx y) z)
           (fun y => Gcm.mulx (Gcm.mul y z)) 128).
  - apply (linear_compose (fun x => Gcm.mul x z) Gcm.mulx);
      [apply mul_linear_l|apply mulx_linear].
  - apply (linear_compose Gcm.mulx (fun x => Gcm.mul x z));
      [apply mulx_linear|apply mul_linear_l].
  - intros [|k] Hk.
    + change (Gcm.mulx (2 ^ N.of_nat 0)) with Gcm.R.
      rewrite mul_pow2 by lia. rewrite <- Nat.iter_succ.
      change (S (127 - 0)) with 128%nat.
      rewrite mulx_128 by done. rewrite R_sum.
      rewrite !(mul_linear_l z).
      change (2 ^ 127) with (2 ^ N.of_nat 127).
      change (2 ^ 126) with (2 ^ N.of_nat 126).
      change (2 ^ 125) with (2 ^ N.of_nat 125).
      change (2 ^ 120) with (2 ^ N.of_nat 120).
      by rewrite !mul_pow2 by lia.
    + rewrite Nat2N.inj_succ, mulx_pow2_succ. rewrite <- Nat2N.inj_succ.
      rewrite !mul_pow2 by lia.
      replace (127 - k)%nat with (S (127 - S k)) by lia. done.
Qed.

Lemma mul_iter_mulx_l (n : nat) (y z : N) :
  y < 2 ^ 128 -> z < 2 ^ 128 ->
  Gcm.mul (Nat.iter n Gcm.mulx y) z = Nat.iter n Gcm.mulx (Gcm.mul y z).
Proof.
  intros Hy Hz. induction n as [|n IH]; [done|].
  rewrite !Nat.iter_succ.
  rewrite mul_mulx_l by (done || by apply iter_mulx_lt). by rewrite IH.
Qed.

Lemma iter_mulx_one (i : nat) :
  (i <= 127)%nat -> Nat.iter i Gcm.mulx Gcm.one = 2 ^ N.of_nat (127 - i).
Proof.
  induction i as [|i IH]; intros Hi; [done|].
  rewrite Nat.iter_succ, IH by lia.
  replace (127 - i)%nat with (S (127 - S i)) by lia.
  by rewrite Nat2N.inj_succ, mulx_pow2_succ.
Qed.

(** Multiplying by an invertible element can be undone. *)
Lemma mul_cancel (h h' d : N) :
  h < 2 ^ 128 -> h' < 2 ^ 128 -> Gcm.mul h h' = Gcm.one ->
  d < 2 ^ 128 -> Gcm.mul (Gcm.mul d h) h' = d.
Proof.
  intros Hh Hh' Hinv. revert d.
  apply (linear_ext (fun d => Gcm.mul (Gcm.mul d h) h') (fun d => d) 128).
  - apply (linear_compose (fun x => Gcm.mul x h') (fun x => Gcm.mul x h));
      apply mul_linear_l.
  - apply linear_id.
  - intros k Hk. rewrite mul_pow2 by done.
    rewrite mul_iter_mulx_l by done. rewrite Hinv, iter_mulx_one by lia.
    f_equal. lia.
Qed.

(** An invertible element is no zero divisor. *)
Lemma mul_nonzero (h d : N) :
  h < 2 ^ 128 -> Gcm.invertible h ->
  d < 2 ^ 128 -> d ≠ 0 -> Gcm.mul d h ≠ 0.
Proof.
  intros Hh (h' & Hh' & Hinv) Hd Hne Hz.
  pose proof (mul_cancel h h' d Hh Hh' Hinv Hd) as Hc.
  rewrite Hz, mul_0_l in Hc. done.
Qed.

(** ** Blocks *)

Lemma be_bound (bs : Buffer) (acc : N) :
  Gcm.be acc bs < (acc + 1) * 256 ^ N.of_nat (length bs).
Proof.
  revert acc. induction bs as [|b bs IH]; intros acc; [cbn; lia|].
  cbn [Gcm.be length]. rewrite Nat2N.inj_succ, N.pow_succ_r'.
  pose proof (IH (acc * 256 + Byte.to_N b)) as Hlt.
  pose proof (to_N_lt b) as Hb.
  eapply N.lt_le_trans; [exact Hlt|].
  rewrite N.mul_assoc. apply N.mul_le_mono_r. lia.
Qed.

Lemma be_inj (bs bs' : Buffer) (acc acc' : N) :
  length bs = length bs' -> Gcm.be acc bs = Gcm.be acc' bs' ->
  acc = acc' /\ bs = bs'.
Proof.
  revert bs' acc acc'. induction bs as [|b bs IH]; intros [|b' bs'] acc acc';
    [done..|].
  cbn [Gcm.be length]. intros [= Hlen] Heq.
  destruct (IH _ _ _ Hlen Heq) as [Hacc ->].
  pose proof (to_N_lt b) as Hb. pose proof (to_N_lt b') as Hb'.
  assert (Byte.to_N b = Byte.to_N b') as Hbb by lia.
  split; [lia|]. f_equal.
  apply (f_equal u8) in Hbb. by rewrite !u8_of_byte in Hbb.
Qed.

Lemma be_snoc (bs : Buffer) (b : byte) (acc : N) :
  Gcm.be acc (bs ++ [b]) = Gcm.be acc bs * 256 + Byte.to_N b.
Proof. revert acc. induction bs as [|c bs IH]; intros acc; [done|]. apply IH. Qed.

Lemma to_be_length (len : nat) (n : N) : length (Gcm.to_be len n) = len.
Proof.
  revert n. induction len as [|len IH]; intros n; [done|].
  cbn [Gcm.to_be]. rewrite length_app, IH. cbn. lia.
Qed.

Lemma be_to_be (len : nat) (n : N) :
  Gcm.be 0 (Gcm.to_be len n) = n mod 256 ^ N.of_nat len.
Proof.
  revert n. induction len as [|len IH]; intros n.
  - cbn. by rewrite N.mod_1_r.
  - cbn [Gcm.to_be]. rewrite be_snoc, IH.
    assert (Hu : Byte.to_N (u8 n) = n mod 256).
    { replace (u8 n) with (u8 (n mod 256))
        by (unfold u8; by rewrite N.Div0.mod_mod).
      apply u8_to_N. by apply N.mod_upper_bound. }
    rewrite Hu, Nat2N.inj_succ, N.pow_succ_r', N.Div0.mod_mul_r. lia.
Qed.

Lemma bytes_of_block_inj (a b : N) :
  a < 2 ^ 128 -> b < 2 ^ 128 ->
  Gcm.bytes_of_block a = Gcm.bytes_of_block b -> a = b.
Proof.
  intros Ha Hb Heq. apply (f_equal (Gcm.be 0)) in Heq.
  unfold Gcm.bytes_of_block in Heq. rewrite !be_to_be in Heq.
  change (256 ^ N.of_nat 16) with (2 ^ 128) in Heq.
  by rewrite !N.mod_small in Heq.
Qed.

Lemma padded_block (c : Buffer) :
  (length c <= 16)%nat ->
  take 16 (c ++ replicate 16 x00) = c ++ replicate (16 - length c) x00.
Proof.
  intros Hc. rewrite take_app_ge by done. f_equal.
  rewrite take_replicate. f_equal. lia.
Qed.

Lemma block_of_bytes_lt (bs : Buffer) : Gcm.block_of_bytes bs < 2 ^ 128.
Proof.
  unfold Gcm.block_of_bytes.
  pose proof (be_bound (take 16 (bs ++ replicate 16 x00)) 0) as Hlt.
  rewrite length_take, length_app, length_replicate in Hlt.
  replace (16 `min` (length bs + 16))%nat with 16%nat in Hlt by lia.
  exact Hlt.
Qed.

Lemma block_of_bytes_inj (c c' : Buffer) :
  length c = length c' -> (length c <= 16)%nat ->
  Gcm.block_of_bytes c = Gcm.block_of_bytes c' -> c = c'.
Proof.
  intros Hlen Hc. unfold Gcm.block_of_bytes.
  rewrite !padded_block by lia. intros Heq.
  apply be_inj in Heq as [_ Heq]; [|by rewrite !length_app, !length_replicate, Hlen].
  rewrite Hlen in Heq. by apply app_inv_tail in Heq.
Qed.

(** Two buffers that differ in one byte differ in one block. *)
Lemma to_blocks_differ (a a' : byte) (l2 : Buffer) (n : nat) (l1 : Buffer) :
  a ≠ a' -> (length l1 < 16 * n)%nat ->
  exists xs x x' ys,
    Gcm.to_blocks n (l1 ++ a :: l2) = xs ++ x :: ys
    /\ Gcm.to_blocks n (l1 ++ a' :: l2) = xs ++ x' :: ys
    /\ x ≠ x'.
Proof.
  intros Hne. revert l1. induction n as [|n IH]; intros l1 Hlen; [lia|].
  cbn [Gcm.to_blocks].
  destruct (decide (length l1 < 16)%nat) as [Hlt|Hge].
  - exists [], (Gcm.block_of_bytes (take 16 (l1 ++ a :: l2))),
      (Gcm.block_of_bytes (take 16 (l1 ++ a' :: l2))),
      (Gcm.to_blocks n (drop 16 (l1 ++ a :: l2))).
    split; [done|]. split.
    + cbn [app]. do 2 f_equal. rewrite !drop_app_ge by lia.
      by replace (16 - length l1)%nat with (S (15 - length l1)) by lia.
    + rewrite !take_app_ge by lia.
      replace (16 - length l1)%nat with (S (15 - length l1)) by lia.
      cbn [take]. intros Heq.
      apply block_of_bytes_inj in Heq.
      * apply app_inv_head in Heq. by injection Heq.
      * by rewrite !length_app.
      * rewrite length_app. cbn [length]. rewrite length_take. lia.
  - destruct (IH (drop 16 l1)) as (xs & x & x' & ys & H1 & H2 & Hx).
    { rewrite length_drop. lia. }
    exists (Gcm.block_of_bytes (take 16 l1) :: xs), x, x', ys.
    rewrite !take_app_le, !drop_app_le by lia.
    cbn [app]. by rewrite H1, H2.
Qed.

(** ** GHASH and the tag *)

Lemma ghash_from_app (h y : N) (xs ys : list N) :
  Gcm.ghash_from h y (xs ++ ys) = Gcm.ghash_from h (Gcm.ghash_from h y xs) ys.
Proof. apply foldl_app. Qed.

Lemma ghash_from_lt (h y : N) (xs : list N) :
  h < 2 ^ 128 -> y < 2 ^ 128 -> Gcm.ghash_from h y xs < 2 ^ 128.
Proof.
  intros Hh. revert y. induction xs as [|x xs IH]; intros y Hy; [done|].
  cbn. apply IH. by apply mul_lt.
Qed.

(** A difference in the running value is carried to the end through one
    multiplication by the hash subkey for every block that follows. *)
Lemma ghash_from_lxor (h y e : N) (ys : list N) :
  Gcm.ghash_from h (N.lxor y e) ys
  = N.lxor (Gcm.ghash_from h y ys)
           (Nat.iter (length ys) (fun e => Gcm.mul e h) e).
Proof.
  revert y e. induction ys as [|x ys IH]; intros y e; [done|].
  cbn [Gcm.ghash_from foldl length].
  change (foldl ?f ?a ys) with (Gcm.ghash_from h a ys).
  rewrite Nat.iter_succ_r, <- IH. f_equal.
  rewrite <- (mul_linear_l h). f_equal.
  rewrite !N.lxor_assoc. f_equal. apply N.lxor_comm.
Qed.

Section Subkey.
Context (h : N).
Hypothesis Hh : h < 2 ^ 128.
Hypothesis Hinv : Gcm.invertible h.

Lemma iter_mul_nonzero (n : nat) (e : N) :
  e < 2 ^ 128 -> e ≠ 0 ->
  Nat.iter n (fun e => Gcm.mul e h) e ≠ 0.
Proof using Hh Hinv.
  revert e. induction n as [|n IH]; intros e He Hne; [done|].
  rewrite Nat.iter_succ_r. apply IH; [by apply mul_lt|by apply mul_nonzero].
Qed.

Lemma ghash_differ (y x x' : N) (xs ys : list N) :
  x < 2 ^ 128 -> x' < 2 ^ 128 -> x ≠ x' ->
  Gcm.ghash_from h y (xs ++ x :: ys) ≠ Gcm.ghash_from h y (xs ++ x' :: ys).
Proof using Hh Hinv.
  intros Hx Hx' Hne. rewrite !ghash_from_app.
  set (y' := Gcm.ghash_from h y xs).
  cbn [Gcm.ghash_from foldl].
  change (foldl ?f ?a ys) with (Gcm.ghash_from h a ys).
  set (d := N.lxor x x').
  assert (Hd : d ≠ 0) by (intros Hd; by apply N.lxor_eq in Hd).
  assert (Hdlt : d < 2 ^ 128) by (by apply lxor_lt).
  assert (Hx'd : N.lxor y' x' = N.lxor (N.lxor y' x) d).
  { unfold d. by rewrite N.lxor_assoc, <- (N.lxor_assoc x x x'),
      N.lxor_nilpotent, N.lxor_0_l. }
  rewrite Hx'd, (mul_linear_l h (N.lxor y' x) d), ghash_from_lxor.
  set (g := Gcm.ghash_from h _ ys). intros Heq.
  apply (f_equal (N.lxor g)) in Heq.
  rewrite N.lxor_nilpotent, <- N.lxor_assoc, N.lxor_nilpotent, N.lxor_0_l in Heq.
  symmetry in Heq. revert Heq. apply iter_mul_nonzero; [by apply mul_lt|].
  by apply mul_nonzero.
Qed.

End Subkey.

Lemma to_blocks_lt (n : nat) (data : Buffer) :
  Forall (fun x => x < 2 ^ 128) (Gcm.to_blocks n data).
Proof.
  revert data. induction n as [|n IH]; intros data; [constructor|].
  constructor; [apply block_of_bytes_lt|apply IH].
Qed.

(** With an invertible hash subkey, the tag tells apart two ciphertexts
    that differ in one bit. *)
Lemma tag_flip (key iv data : Buffer) (pos : nat) :
  Gcm.invertible (Gcm.hash_subkey key) ->
  (pos < 8 * length data)%nat ->
  Gcm.tag key iv (flip_at pos data) ≠ Gcm.tag key iv data.
Proof.
  intros Hinv Hpos Heq. unfold Gcm.tag in Heq.
  assert (Hh : Gcm.hash_subkey key < 2 ^ 128) by apply block_of_bytes_lt.
  apply bytes_of_block_inj in Heq;
    [|apply lxor_lt; [apply block_of_bytes_lt|by apply ghash_from_lt]..].
  apply (f_equal (N.lxor (Gcm.encrypt_block key (Gcm.j0 key iv)))) in Heq.
  rewrite <- !N.lxor_assoc, N.lxor_nilpotent, !N.lxor_0_l in Heq.
  rewrite flip_at_length in Heq. unfold Gcm.ghash, Gcm.blocks in Heq.
  rewrite flip_at_length in Heq.
  assert (Hi : (pos / 8 < length data)%nat)
    by (apply Nat.Div0.div_lt_upper_bound; lia).
  destruct (lookup_lt_is_Some_2 data _ Hi) as [b Hb].
  rewrite (flip_at_middle _ _ _ Hb) in Heq.
  destruct (to_blocks_differ (flip_bit (pos mod 8) b) b
              (drop (S (pos / 8)) data) ((length data + 15) / 16)
              (take (pos / 8) data))
    as (xs & x & x' & ys & H1 & H2 & Hx).
  { apply flip_bit_neq. }
  { rewrite length_take. dlia. }
  rewrite (take_drop_middle data _ b Hb) in H2.
  rewrite H1, H2, <- !app_assoc in Heq. cbn [app] in Heq.
  revert Heq. apply ghash_differ; [done..| | |done].
  - pose proof (to_blocks_lt ((length data + 15) / 16)
                  (take (pos / 8) data ++ flip_bit (pos mod 8) b
                     :: drop (S (pos / 8)) data)) as Hall.
    rewrite H1 in Hall. apply Forall_app in Hall as [_ Hall].
    by apply Forall_cons in Hall as [? _].
  - pose proof (to_blocks_lt ((length data + 15) / 16) data) as Hall.
    rewrite H2 in Hall. apply Forall_app in Hall as [_ Hall].
    by apply Forall_cons in Hall as [? _].
Qed.

(** The precondition cannot be dropped: under a hash subkey of zero every
    ciphertext has the tag of the empty one. *)
Lemma tag_blind (key iv data : Buffer) :
  Gcm.hash_subkey key = 0 -> Gcm.tag key iv data = Gcm.tag key iv [].
Proof.
  intros Hh. unfold Gcm.tag, Gcm.ghash. rewrite Hh, !ghash_from_app.
  cbn [Gcm.ghash_from foldl].
  by rewrite !(linear_0 _ (mul_linear_r _)).
Qed.

(** ** The cipher on known values *)

Definition hex_bytes (s : string) : Buffer := Hex.decode (js s).

(** FIPS 197, appendix C.3. *)
Example aes_256_known_answer :
  Aes.cipher
    (hex_bytes "000102030405060708090a0b0c0d0e0f101112131415161718191a1b1c1d1e1f")
    (hex_bytes "00112233445566778899aabbccddeeff")
  = hex_bytes "8ea2b7ca516745bfeafc49904b496089".
Proof. vm_compute. reflexivity. Qed.

(** The AES-256 cases of the GCM specification with a 12-byte nonce: the
    empty plaintext and one zero block, under the zero key and nonce. *)
Example gcm_zero_key_empty :
  gcm_tag (AesGcm:=aes_256_gcm) (replicate 32 x00) (replicate 12 x00) []
  = hex_bytes "530f8afbc74536b9a963b4f1c4cb738b".
Proof. vm_compute. reflexivity. Qed.

Example gcm_zero_key_zero_block :
  let c := ctr_xor (H:=aes_256_gcm) (replicate 32 x00) (replicate 12 x00)
             (replicate 16 x00) in
  c = hex_bytes "cea7403d4d606b6e074ec5d3baf39d18"
  /\ gcm_tag (AesGcm:=aes_256_gcm) (replicate 32 x00) (replicate 12 x00) c
     = hex_bytes "d0d1c8a799996bf0265b98b5d48ab919".
Proof. vm_compute. split; reflexivity. Qed.

(** A 16-byte nonce, as [encrypt] draws it: more than two blocks of
    plaintext, ciphertext and tag as OpenSSL gives them. *)
Example gcm_16_byte_nonce :
  let c := ctr_xor (H:=aes_256_gcm) demo_key_bytes demo_iv (replicate 40 x78) in
  c = hex_bytes
        "52db5bc460b5b50ebbe667c9956cf5e8fa3d3b01064c29d4856a12ce614d5eff74e99e1bedabc7c5"
  /\ gcm_tag (AesGcm:=aes_256_gcm) demo_key_bytes demo_iv c
     = hex_bytes "d40e7342b20f93f98b3407a9ce39c492".
Proof. vm_compute. split; reflexivity. Qed.

Example encrypt_known_answer :
  encrypt (H:=aes_256_gcm) demo_key demo_iv (js "sbp_oauth_4f2a")
  = Ok (js "oKGio6SlpqeoqaqrrK2ur1nBU+N3rLgCq8Er1991bNKyHPWKveAQpBtntBfoow==").
Proof. vm_compute. reflexivity. Qed.

Example decrypt_known_answer :
  decrypt (H:=aes_256_gcm) demo_key
    (js "oKGio6SlpqeoqaqrrK2ur1nBU+N3rLgCq8Er1991bNKyHPWKveAQpBtntBfoow==")
  = Ok (js "sbp_oauth_4f2a").
Proof. vm_compute. reflexivity. Qed.

(** The hash subkey of the sample key, and its inverse. *)
Example demo_hash_subkey :
  Gcm.hash_subkey demo_key_bytes = 0xf29000b62a499fd0a9f39a6add2e7780
  /\ Gcm.mul (Gcm.hash_subkey demo_key_bytes) 0xc3b5508a86ff2cef4a16f2b83c0e501f
     = Gcm.one.
Proof. vm_compute. split; reflexivity. Qed.

(** C8 (amended).  Let a blob be sealed by [encrypt], with the cipher
    ['aes-256-gcm'], under a well-formed key.  Inverting any single bit of
    its tag region makes [decrypt] fail with the integrity error.  Inverting
    any single bit of its ciphertext region does so too, when the hash subkey
    of the key (the AES encryption of the zero block) has an inverse in
    GF(2^128). *)
Theorem decrypt_rejects_tampering (env_key : option jsstring)
    (iv : Buffer) (s : jsstring) :
  well_formed_key env_key = true ->
  length iv = IV_LENGTH ->
  s ≠ [] ->
  exists key,
    getEncryptionKey env_key = Ok key /\
    let blob := sealed (H:=aes_256_gcm) key iv s in
    let n := length (Utf8.encode s) in
    encrypt (H:=aes_256_gcm) env_key iv s = Ok (Base64.encode blob) /\
    length blob = (IV_LENGTH + n + TAG_LENGTH)%nat /\
    (forall pos,
       (8 * (IV_LENGTH + n) <= pos < 8 * (IV_LENGTH + n + TAG_LENGTH))%nat ->
       decrypt (H:=aes_256_gcm) env_key (Base64.encode (flip_at pos blob))
       = Err IntegrityError) /\
    (Gcm.invertible (Gcm.hash_subkey key) ->
     forall pos,
       (8 * IV_LENGTH <= pos < 8 * (IV_LENGTH + n))%nat ->
       decrypt (H:=aes_256_gcm) env_key (Base64.encode (flip_at pos blob))
       = Err IntegrityError).
Proof.
  intros Hwf Hiv Hs.
  destruct (getEncryptionKey_well_formed _ Hwf) as (key & Hkey & Hlen).
  exists key. split; [done|]. cbn zeta.
  split; [exact (encrypt_sealed _ _ _ Hkey Hlen Hiv s Hs)|].
  unfold sealed, IV_LENGTH, TAG_LENGTH in *.
  set (data := ctr_xor key iv (Utf8.encode s)).
  assert (Hdata : length data = length (Utf8.encode s)) by apply ctr_xor_length.
  rewrite <- Hdata. split.
  { rewrite !length_app, gcm_tag_length. lia. }
  split.
  - intros pos Hpos.
    rewrite flip_at_app_r by lia. rewrite flip_at_app_r by lia.
    apply (decrypt_flipped_tag _ _ _ Hkey Hlen Hiv). lia.
  - intros Hinv pos Hpos.
    rewrite flip_at_app_r by lia. rewrite flip_at_app_l by lia.
    apply (decrypt_flipped_data _ _ _ Hkey Hlen Hiv).
    apply tag_flip; [done|lia].
Qed.

Lemma decrypt_rejects_tampering_witness :
  exists key,
    getEncryptionKey demo_key = Ok key /\
    let blob := sealed (H:=aes_256_gcm) key demo_iv (js "sbp_oauth_4f2a") in
    encrypt (H:=aes_256_gcm) demo_key demo_iv (js "sbp_oauth_4f2a")
      = Ok (Base64.encode blob) /\
    length blob = 46%nat /\
    (forall pos, (8 * 16 <= pos < 8 * 46)%nat ->
       decrypt (H:=aes_256_gcm) demo_key (Base64.encode (flip_at pos blob))
       = Err IntegrityError).
Proof.
  destruct (decrypt_rejects_tampering demo_key demo_iv (js "sbp_oauth_4f2a"))
    as (key & Hkey & Henc & Hlen & Htag & Hdata);
    [reflexivity|reflexivity|discriminate|].
  exists key. split; [exact Hkey|]. split; [exact Henc|]. split; [exact Hlen|].
  intros pos Hpos.
  destruct (le_lt_dec (8 * 30) pos) as [Hge|Hlt].
  - apply Htag. change (length (Utf8.encode (js "sbp_oauth_4f2a"))) with 14%nat.
    unfold IV_LENGTH, TAG_LENGTH. lia.
  - apply Hdata.
    + injection Hkey as <-. exists 0xc3b5508a86ff2cef4a16f2b83c0e501f.
      split; vm_compute; reflexivity.
    + change (length (Utf8.encode (js "sbp_oauth_4f2a"))) with 14%nat.
      unfold IV_LENGTH. lia.
Defined.

(** C8, as stated, fails in its last part: [decrypt] returns a string for
    blobs that [encrypt] never produces under the same key.  Whatever the
    cipher, the key and the nonce, a nonce followed by the sealed byte 0xFF
    and its tag gives U+FFFD, and a nonce followed by the tag of the empty
    ciphertext gives the empty string; no call of [encrypt] under that key
    returns either blob.  Under the sample key, with ['aes-256-gcm'], the
    first blob is the text shown. *)
Lemma decrypt_accepts_unsealed_blobs :
  (forall (G : AesGcm) env_key (iv : Buffer),
     well_formed_key env_key = true -> length iv = IV_LENGTH ->
     exists garbled empty,
       decrypt env_key garbled = Ok [0xFFFD]
       /\ decrypt env_key empty = Ok []
       /\ forall (iv' : Buffer) s, length iv' = IV_LENGTH ->
            encrypt env_key iv' s ≠ Ok garbled
            /\ encrypt env_key iv' s ≠ Ok empty)
  /\ decrypt (H:=aes_256_gcm) demo_key
       (js "oKGio6SlpqeoqaqrrK2ur9VYoUrccF2s9JaDpqt/pRMU") = Ok [0xFFFD]
  /\ (forall (iv' : Buffer) s, length iv' = IV_LENGTH ->
        encrypt (H:=aes_256_gcm) demo_key iv' s
        ≠ Ok (js "oKGio6SlpqeoqaqrrK2ur9VYoUrccF2s9JaDpqt/pRMU")).
Proof.
  split; [|split].
  - intros G env_key iv Hwf Hiv.
    destruct (getEncryptionKey_well_formed _ Hwf) as (key & Hkey & Hlen).
    exists (Base64.encode (iv ++ ctr_xor key iv [xff]
                              ++ gcm_tag key iv (ctr_xor key iv [xff]))),
      (Base64.encode (iv ++ ctr_xor key iv []
                         ++ gcm_tag key iv (ctr_xor key iv []))).
    split; [exact (decrypt_sealed_bytes _ _ _ Hkey Hlen Hiv [xff])|].
    split; [exact (decrypt_sealed_bytes _ _ _ Hkey Hlen Hiv [])|].
    intros iv' s Hiv'. split; intros Henc;
      apply (encrypt_seals_text _ _ _ Hkey Hlen Hiv) in Henc as [Hs Hp];
      try done.
    + by apply utf8_encode_not_ff in Hp.
    + by apply utf8_encode_nonempty in Hp.
  - vm_compute. reflexivity.
  - intros iv' s Hiv' Henc.
    change (js "oKGio6SlpqeoqaqrrK2ur9VYoUrccF2s9JaDpqt/pRMU")
      with (Base64.encode
              (demo_iv ++ ctr_xor (H:=aes_256_gcm) demo_key_bytes demo_iv [xff]
                 ++ gcm_tag (AesGcm:=aes_256_gcm) demo_key_bytes demo_iv
                      (ctr_xor (H:=aes_256_gcm) demo_key_bytes demo_iv [xff])))
      in Henc.
    apply (encrypt_seals_text (G:=aes_256_gcm) demo_key demo_key_bytes demo_iv)
      in Henc as [_ Hp]; [|reflexivity..|done].
    by apply utf8_encode_not_ff in Hp.
Qed.

Example tampered_ciphertext_bit :
  decrypt (H:=aes_256_gcm) demo_key
    (Base64.encode (flip_at 131 (sealed (H:=aes_256_gcm)
       demo_key_bytes demo_iv (js "sbp_oauth_4f2a"))))
  = Err IntegrityError.
Proof. vm_compute. reflexivity. Qed.

Example tampered_tag_bit :
  decrypt (H:=aes_256_gcm) demo_key
    (Base64.encode (flip_at 245 (sealed (H:=aes_256_gcm)
       demo_key_bytes demo_iv (js "sbp_oauth_4f2a"))))
  = Err IntegrityError.
Proof. vm_compute. reflexivity. Qed.

(** ** Token lifecycle *)

Lemma decrypt_ok_key `{G : AesGcm} (env_key : option jsstring) (blob s : jsstring) :
  decrypt env_key blob = Ok s ->
  exists key, getEncryptionKey env_key = Ok key /\ length key = 32%nat.
Proof.
  unfold decrypt. destruct blob as [|c blob]; [done|].
  destruct (getEncryptionKey env_key) as [key|e]; [|done].
  cbn [mbind result_bind]. unfold createDecipheriv, createCipheriv at 1.
  case_bool_decide as Hlen; [done|]. intros _. exists key. split; [done|].
  destruct (decide (length key = 32%nat)); [done|]. by destruct Hlen.
Qed.

Lemma nonce_length (env : Env) (k : nat) : length (nonce env k) = 16%nat.
Proof. apply length_resize. Qed.

Lemma encrypt_call_ok (env : Env) (plaintext : jsstring) (key : Buffer) (w : World) :
  getEncryptionKey (ENCRYPTION_KEY env) = Ok key ->
  length key = 32%nat -> plaintext ≠ [] ->
  encrypt_call env plaintext w =
    (Ok (Base64.encode
           (sealed (H:=cipher env) key (nonce env (draws w)) plaintext)),
     drawn w).
Proof.
  intros Hkey Hlen Hs. unfold encrypt_call.
  destruct plaintext as [|c s]; [done|].
  unfold bind, lift_vault at 1. rewrite Hkey. unfold ret, randomBytes.
  fold (nonce env (draws w)).
  by rewrite (encrypt_sealed _ _ _ Hkey Hlen (nonce_length _ _) _ Hs).
Qed.

Lemma decrypt_call_pure (env : Env) (blob : jsstring) (w : World) :
  decrypt_call env blob w
  = (match decrypt (H:=cipher env) (ENCRYPTION_KEY env) blob with
     | Ok t => Ok t
     | Err e => Err (Vault e)
     end, w).
Proof. unfold decrypt_call, lift_vault. by destruct (decrypt _ _). Qed.

(** C4.  Let the lookup of [getValidAccessToken] find the credential record
    [r].  If its expiry is more than five minutes after the current time, the
    call returns what [decrypt] gives for the stored access token (the token
    itself when the stored blob was sealed from it) and leaves the world as
    it was: no request reaches the token endpoint, nothing is written.  If
    the expiry is five minutes away or less, or past, the call is the refresh
    path: [refreshAccessToken] on the record's id, then the access token of
    its result. *)
Theorem getValidAccessToken_by_expiry (env : Env) (userId : jsstring)
    (w : World) (r : Integration.t) :
  select_single env (by_user userId) w = Some r ->
  ((now w + 5 * 60 * 1000 < Integration.token_expires_at r)%Z ->
     getValidAccessToken env userId w
     = (match decrypt (H:=cipher env) (ENCRYPTION_KEY env)
                (Integration.access_token r) with
        | Ok t => Ok t
        | Err e => Err (Vault e)
        end, w)
     /\ token_requests (getValidAccessToken env userId w).2 = token_requests w
     /\ (forall key iv t,
           getEncryptionKey (ENCRYPTION_KEY env) = Ok key ->
           length key = 32%nat -> length iv = 16%nat ->
           Utf8.well_formed t = true ->
           Integration.access_token r
             = Base64.encode (sealed (H:=cipher env) key iv t) ->
           (getValidAccessToken env userId w).1 = Ok t))
  /\ ((Integration.token_expires_at r <= now w + 5 * 60 * 1000)%Z ->
      getValidAccessToken env userId w
      = (let* newTokens := refreshAccessToken env (Integration.id r) in
         ret (TokenResponse.access_token newTokens)) w).
Proof.
  intros Hsel. unfold getValidAccessToken. fold (by_user userId).
  rewrite Hsel. cbn zeta. split.
  - intros Hfresh. rewrite (proj2 (Z.ltb_lt _ _) Hfresh).
    rewrite decrypt_call_pure. split; [done|]. split; [done|].
    intros key iv t Hkey Hlen Hiv Hwf ->. cbn [fst].
    rewrite (decrypt_sealed _ _ _ Hkey Hlen Hiv).
    by rewrite utf8_decode_encode.
  - intros Hstale. by rewrite (proj2 (Z.ltb_ge _ _) Hstale).
Qed.

Lemma getValidAccessToken_by_expiry_witness :
  (getValidAccessToken demo_env (js "user-1")
     (demo_world (js "live-refresh") 1300001)
   = (match decrypt (H:=cipher demo_env) (ENCRYPTION_KEY demo_env)
              (Integration.access_token (demo_row (js "live-refresh") 1300001)) with
      | Ok t => Ok t
      | Err e => Err (Vault e)
      end, demo_world (js "live-refresh") 1300001)
   /\ token_requests
        (getValidAccessToken demo_env (js "user-1")
           (demo_world (js "live-refresh") 1300001)).2
      = token_requests (demo_world (js "live-refresh") 1300001)
   /\ (getValidAccessToken demo_env (js "user-1")
         (demo_world (js "live-refresh") 1300001)).1 = Ok (js "access-1"))
  /\ getValidAccessToken demo_env (js "user-1")
       (demo_world (js "live-refresh") 1300000)
     = (let* newTokens :=
          refreshAccessToken demo_env
            (Integration.id (demo_row (js "live-refresh") 1300000)) in
        ret (TokenResponse.access_token newTokens))
         (demo_world (js "live-refresh") 1300000).
Proof.
  split.
  - destruct (getValidAccessToken_by_expiry demo_env (js "user-1")
                (demo_world (js "live-refresh") 1300001)
                (demo_row (js "live-refresh") 1300001) eq_refl) as [Hfresh _].
    destruct (Hfresh eq_refl) as (H1 & H2 & H3).
    split; [exact H1|]. split; [exact H2|].
    apply (H3 demo_key_bytes demo_iv (js "access-1")); reflexivity.
  - destruct (getValidAccessToken_by_expiry demo_env (js "user-1")
                (demo_world (js "live-refresh") 1300000)
                (demo_row (js "live-refresh") 1300000) eq_refl) as [_ Hstale].
    apply Hstale. vm_compute. discriminate.
Defined.

Example fresh_token_is_returned :
  getValidAccessToken demo_env (js "user-1") (demo_world (js "live-refresh") 1300001)
  = (Ok (js "access-1"), demo_world (js "live-refresh") 1300001).
Proof. vm_compute. reflexivity. Qed.

Example boundary_token_is_refreshed :
  (getValidAccessToken demo_env (js "user-1")
     (demo_world (js "live-refresh") 1300000)).1 = Ok (js "access-2")
  /\ token_requests
       (getValidAccessToken demo_env (js "user-1")
          (demo_world (js "live-refresh") 1300000)).2 = [js "live-refresh"].
Proof. vm_compute. split; reflexivity. Qed.

Lemma encrypt_call_pure (env : Env) (plaintext : jsstring) (w : World) :
  encrypt_call env plaintext w
  = match plaintext, getEncryptionKey (ENCRYPTION_KEY env) with
    | [], _ => (Err (Vault CannotEncryptEmpty), w)
    | _ :: _, Err e => (Err (Vault e), w)
    | _ :: _, Ok _ =>
        (match encrypt (H:=cipher env) (ENCRYPTION_KEY env) (nonce env (draws w))
                 plaintext with
         | Ok blob => Ok blob
         | Err e => Err (Vault e)
         end, drawn w)
    end.
Proof.
  unfold encrypt_call. destruct plaintext as [|c s]; [done|].
  unfold bind, lift_vault at 1.
  destruct (getEncryptionKey (ENCRYPTION_KEY env)) as [key|e]; [|done].
  unfold ret, randomBytes, lift_vault. fold (nonce env (draws w)).
  by destruct (encrypt _ _ _).
Qed.

(** [encrypt] touches nothing but the random source. *)
Lemma encrypt_call_frame (env : Env) (plaintext : jsstring) (w : World) :
  let w' := (encrypt_call env plaintext w).2 in
  integrations w' = integrations w /\ now w' = now w
  /\ token_requests w' = token_requests w /\ db_writes w' = db_writes w.
Proof.
  rewrite encrypt_call_pure. destruct plaintext as [|c s]; [done|].
  by destruct (getEncryptionKey _).
Qed.

(** [storeTokens], step by step. *)
Lemma storeTokens_unfold (env : Env) (userId : jsstring) (tokens : TokenResponse.t)
    (integrationId : option jsstring) (w : World) :
  storeTokens env userId tokens integrationId w
  = match encrypt_call env (TokenResponse.access_token tokens) w with
    | (Err e, w1) => (Err e, w1)
    | (Ok a, w1) =>
        match encrypt_call env (TokenResponse.refresh_token tokens) w1 with
        | (Err e, w2) => (Err e, w2)
        | (Ok r, w2) =>
            let expiresAt := (now w2 + TokenResponse.expires_in tokens * 1000)%Z in
            if valid_time expiresAt then
              let d := {| td_access_token := a; td_refresh_token := r;
                          td_token_expires_at := expiresAt;
                          td_updated_at := now w2 |} in
              match integrationId with
              | Some (c :: cs) =>
                  match update_by_id env d (c :: cs) w2 with
                  | (Ok (Some message), w') => (Err (FailedToUpdateTokens message), w')
                  | (Ok None, w') => (Ok tt, w')
                  | (Err e, w') => (Err e, w')
                  end
              | _ =>
                  match upsert_for_user env d userId w2 with
                  | (Ok (Some message), w') => (Err (FailedToStoreTokens message), w')
                  | (Ok None, w') => (Ok tt, w')
                  | (Err e, w') => (Err e, w')
                  end
              end
            else (Err InvalidTimeValue, w2)
        end
    end.
Proof.
  unfold storeTokens, bind.
  destruct (encrypt_call env (TokenResponse.access_token tokens) w) as [[a|e] w1];
    [|done].
  destruct (encrypt_call env (TokenResponse.refresh_token tokens) w1) as [[r|e] w2];
    [|done].
  unfold date_now, toISOString. cbn zeta.
  destruct (valid_time _); [|done]. unfold ret.
  destruct integrationId as [[|c cs]|].
  - by destruct (upsert_for_user _ _ _ _) as [[[m|]|e] w'].
  - by destruct (update_by_id _ _ _ _) as [[[m|]|e] w'].
  - by destruct (upsert_for_user _ _ _ _) as [[[m|]|e] w'].
Qed.

(** [refreshAccessToken], step by step. *)
Lemma refreshAccessToken_unfold (env : Env) (integrationId : jsstring) (w : World) :
  refreshAccessToken env integrationId w
  = match select_single env (by_id integrationId) w with
    | None => (Err IntegrationNotFound, w)
    | Some r =>
        match decrypt (H:=cipher env) (ENCRYPTION_KEY env)
                (Integration.refresh_token r) with
        | Err e => (Err (Vault e), w)
        | Ok rt =>
            match token_endpoint env rt with
            | FetchThrows => (Err FetchFailed, requested env rt w)
            | Response false None _ => (Err BodyUnreadable, requested env rt w)
            | Response false (Some _) _ =>
                (Err ReauthorizationRequired,
                 (delete_by_id env integrationId (requested env rt w)).2)
            | Response true _ None => (Err InvalidJson, requested env rt w)
            | Response true _ (Some tokens) =>
                match storeTokens env (Integration.user_id r) tokens
                        (Some integrationId) (requested env rt w) with
                | (Ok _, w') => (Ok tokens, w')
                | (Err e, w') => (Err e, w')
                end
            end
        end
    end.
Proof.
  unfold refreshAccessToken. fold (by_id integrationId).
  destruct (select_single _ _ _) as [r|]; [|done].
  unfold bind at 1. rewrite decrypt_call_pure.
  destruct (decrypt _ _) as [rt|e]; [|done].
  unfold bind at 1, fetch_token. fold (requested env rt w).
  destruct (token_endpoint env rt) as [|[] [text|] [tokens|]]; try done;
    unfold bind, ret, delete_by_id, throw;
    first [ by destruct (db_fault env DbDelete)
          | by destruct (storeTokens env (Integration.user_id r) tokens
                           (Some integrationId) (requested env rt w))
                 as [[[]|e] w'] ].
Qed.

Lemma select_single_inv (env : Env) (p : Integration.t -> bool) (w : World)
    (r : Integration.t) :
  select_single env p w = Some r ->
  db_fault env DbSelect = None
  /\ filter (fun x => p x = true) (integrations w) = [r].
Proof.
  unfold select_single. destruct (db_fault env DbSelect); [done|].
  destruct (filter _ _) as [|x [|y l]]; [done| |done].
  by intros [= ->].
Qed.

Lemma filter_by_id_update (integrationId : jsstring) (d : TokenData)
    (rows : list Integration.t) :
  filter (fun x => by_id integrationId x = true)
    ((fun x => if by_id integrationId x then with_tokens d x else x) <$> rows)
  = with_tokens d <$> filter (fun x => by_id integrationId x = true) rows.
Proof.
  induction rows as [|x rows IH]; [done|].
  rewrite fmap_cons, !filter_cons.
  destruct (by_id integrationId x) eqn:Hx.
  - rewrite !decide_True by done. by rewrite fmap_cons, IH.
  - rewrite !decide_False by (by rewrite Hx). done.
Qed.

Lemma filter_none {A} (P : A -> Prop) `{forall x, Decision (P x)} (l : list A) :
  (forall x, ~ P x) -> filter P l = [].
Proof.
  intros HP. induction l as [|x l IH]; [done|].
  by rewrite filter_cons_False.
Qed.

Lemma no_row_after_delete (integrationId : jsstring) (rows : list Integration.t)
    (x : Integration.t) :
  x ∈ filter (fun r => same_string (Integration.id r) integrationId = false) rows ->
  Integration.id x ≠ integrationId.
Proof.
  intros [Hx _]%list_elem_of_filter. unfold same_string in Hx.
  by apply bool_decide_eq_false in Hx.
Qed.

(** [storeTokens] on a record id, when nothing is in its way. *)
Lemma storeTokens_update (env : Env) (userId integrationId : jsstring)
    (tokens : TokenResponse.t) (key : Buffer) (w : World) :
  getEncryptionKey (ENCRYPTION_KEY env) = Ok key ->
  length key = 32%nat ->
  TokenResponse.access_token tokens ≠ [] ->
  TokenResponse.refresh_token tokens ≠ [] ->
  integrationId ≠ [] ->
  valid_time (now w + TokenResponse.expires_in tokens * 1000) = true ->
  db_fault env DbUpdate = None ->
  storeTokens env userId tokens (Some integrationId) w
  = (Ok tt,
     {| integrations :=
          (fun x => if by_id integrationId x
                    then with_tokens
                           {| td_access_token :=
                                Base64.encode
                                  (sealed (H:=cipher env) key (nonce env (draws w))
                                     (TokenResponse.access_token tokens));
                              td_refresh_token :=
                                Base64.encode
                                  (sealed (H:=cipher env) key
                                     (nonce env (S (draws w)))
                                     (TokenResponse.refresh_token tokens));
                              td_token_expires_at :=
                                (now w + TokenResponse.expires_in tokens * 1000)%Z;
                              td_updated_at := now w |} x
                    else x) <$> integrations w;
        now := now w; draws := S (S (draws w));
        token_requests := token_requests w;
        db_writes := db_writes w ++ [Updated integrationId] |}).
Proof.
  intros Hkey Hlen Ha Hr Hid Hvalid Hfault. rewrite storeTokens_unfold.
  rewrite (encrypt_call_ok _ _ _ _ Hkey Hlen Ha).
  rewrite (encrypt_call_ok _ _ _ _ Hkey Hlen Hr).
  cbn [now drawn]. cbn zeta. rewrite Hvalid.
  destruct integrationId as [|c cs]; [done|].
  unfold update_by_id. rewrite Hfault. reflexivity.
Qed.

(** Whatever stops [storeTokens], the table is the one before and nothing
    was written. *)
Lemma storeTokens_failure (env : Env) (userId : jsstring) (tokens : TokenResponse.t)
    (integrationId : option jsstring) (w : World) (e : TokenError) :
  (storeTokens env userId tokens integrationId w).1 = Err e ->
  integrations (storeTokens env userId tokens integrationId w).2 = integrations w
  /\ db_writes (storeTokens env userId tokens integrationId w).2 = db_writes w
  /\ e ≠ ReauthorizationRequired /\ e ≠ NoIntegrationForUser
  /\ ((exists cause, e = Vault cause)
      \/ e = InvalidTimeValue
      \/ (exists message, e = FailedToUpdateTokens message)
      \/ (exists message, e = FailedToStoreTokens message)).
Proof.
  rewrite storeTokens_unfold.
  pose proof (encrypt_call_frame env (TokenResponse.access_token tokens) w) as H1.
  assert (Hvault : forall s w0 e0,
            (encrypt_call env s w0).1 = Err e0 -> exists cause, e0 = Vault cause).
  { intros s w0 e0. rewrite encrypt_call_pure.
    destruct s as [|c s]; [intros [= <-]; by eauto|].
    destruct (getEncryptionKey _); [|intros [= <-]; by eauto].
    cbn [fst]. destruct (encrypt _ _ _); [done|intros [= <-]; by eauto]. }
  destruct (encrypt_call env (TokenResponse.access_token tokens) w)
    as [[a|e1] w1] eqn:Hc1.
  2:{ cbn [fst snd] in *. intros [= <-]. destruct H1 as (? & _ & _ & ?).
      destruct (Hvault (TokenResponse.access_token tokens) w e1) as [cause ->];
        [by rewrite Hc1|].
      cbn [fst snd]; split_and!; first [congruence | done | eauto 6]. }
  pose proof (encrypt_call_frame env (TokenResponse.refresh_token tokens) w1) as H2.
  destruct (encrypt_call env (TokenResponse.refresh_token tokens) w1)
    as [[r|e2] w2] eqn:Hc2.
  2:{ cbn [fst snd] in *. intros [= <-].
      destruct H1 as (? & _ & _ & ?), H2 as (? & _ & _ & ?).
      destruct (Hvault (TokenResponse.refresh_token tokens) w1 e2) as [cause ->];
        [by rewrite Hc2|].
      cbn [fst snd]; split_and!; first [congruence | done | eauto 6]. }
  cbn [fst snd] in *. destruct H1 as (? & _ & _ & ?), H2 as (? & _ & _ & ?).
  cbn zeta. destruct (valid_time _).
  2:{ intros [= <-]. cbn [fst snd]; split_and!; first [congruence | done | eauto 6]. }
  unfold update_by_id, upsert_for_user.
  destruct integrationId as [[|c cs]|];
    (destruct (db_fault env _);
       [intros [= <-]; cbn [fst snd]; cbn [fst snd]; split_and!; first [congruence | done | eauto 6]|done]).
Qed.

Lemma storeTokens_requests (env : Env) (userId : jsstring) (tokens : TokenResponse.t)
    (integrationId : option jsstring) (w : World) :
  token_requests (storeTokens env userId tokens integrationId w).2 = token_requests w
  /\ now (storeTokens env userId tokens integrationId w).2 = now w.
Proof.
  rewrite storeTokens_unfold.
  pose proof (encrypt_call_frame env (TokenResponse.access_token tokens) w) as H1.
  destruct (encrypt_call env (TokenResponse.access_token tokens) w) as [[a|e1] w1];
    cbn [fst snd] in H1; destruct H1 as (_ & Hn1 & Hr1 & _); [|done].
  pose proof (encrypt_call_frame env (TokenResponse.refresh_token tokens) w1) as H2.
  destruct (encrypt_call env (TokenResponse.refresh_token tokens) w1) as [[r|e2] w2];
    cbn [fst snd] in H2; destruct H2 as (_ & Hn2 & Hr2 & _);
    [|cbn [snd]; split; congruence].
  cbn zeta. destruct (valid_time _); [|cbn [snd]; split; congruence].
  unfold update_by_id, upsert_for_user.
  destruct integrationId as [[|c cs]|]; destruct (db_fault env _);
    cbn [snd token_requests now]; split; congruence.
Qed.

(** What becomes of a call of [storeTokens] on a record id. *)
Lemma storeTokens_by_id (env : Env) (userId integrationId : jsstring)
    (tokens : TokenResponse.t) (key : Buffer) (w : World) :
  getEncryptionKey (ENCRYPTION_KEY env) = Ok key ->
  length key = 32%nat ->
  integrationId ≠ [] ->
  let out := storeTokens env userId tokens (Some integrationId) w in
  match TokenResponse.access_token tokens, TokenResponse.refresh_token tokens with
  | [], _ | _, [] => out.1 = Err (Vault CannotEncryptEmpty)
  | _ :: _, _ :: _ =>
      if valid_time (now w + TokenResponse.expires_in tokens * 1000) then
        match db_fault env DbUpdate with
        | Some message => out.1 = Err (FailedToUpdateTokens message)
        | None => out.1 = Ok tt
        end
      else out.1 = Err InvalidTimeValue
  end.
Proof.
  intros Hkey Hlen Hid out. subst out.
  destruct (TokenResponse.access_token tokens) as [|a0 acc] eqn:Ha.
  { rewrite storeTokens_unfold, encrypt_call_pure, Ha.
    by destruct (TokenResponse.refresh_token tokens). }
  assert (Ha' : TokenResponse.access_token tokens ≠ []) by (by rewrite Ha).
  destruct (TokenResponse.refresh_token tokens) as [|r0 ref] eqn:Hr.
  { rewrite storeTokens_unfold, (encrypt_call_ok _ _ _ _ Hkey Hlen Ha').
    by rewrite encrypt_call_pure, Hr. }
  assert (Hr' : TokenResponse.refresh_token tokens ≠ []) by (by rewrite Hr).
  destruct (valid_time _) eqn:Hvalid.
  - destruct (db_fault env DbUpdate) as [message|] eqn:Hfault.
    + rewrite storeTokens_unfold, (encrypt_call_ok _ _ _ _ Hkey Hlen Ha'),
        (encrypt_call_ok _ _ _ _ Hkey Hlen Hr').
      cbn [now drawn]. cbn zeta. rewrite Hvalid.
      destruct integrationId as [|c cs]; [done|].
      unfold update_by_id. by rewrite Hfault.
    + by rewrite (storeTokens_update _ _ _ _ _ _ Hkey Hlen Ha' Hr' Hid Hvalid Hfault).
  - rewrite storeTokens_unfold, (encrypt_call_ok _ _ _ _ Hkey Hlen Ha'),
      (encrypt_call_ok _ _ _ _ Hkey Hlen Hr').
    cbn [now drawn]. cbn zeta. by rewrite Hvalid.
Qed.

(** C5 (amended).  Let [refreshAccessToken] find the record [r] and post its
    refresh token [rt] to the token endpoint; one request is made.  If the
    response is not OK and its body can be read, the call sends one delete
    for the record's id and raises the reauthorization-required error,
    whatever the store answers: when the store carries out the delete, no row
    with that id is left; when it refuses, the record stays as it was.  If
    the body of that response cannot be read, that failure is raised and no
    delete is sent.  If the response is OK and carries a token response, the
    tokens are stored: with an empty token the call fails in [encrypt], with
    an expiry [now + expires_in] that is no valid date it fails with the
    range error, with a store that refuses the update it fails with the
    update error, each time with the table as it was; otherwise the call
    returns the tokens and the table differs from the one before by one
    write, an update of that row which sets together the freshly sealed
    access token, the freshly sealed refresh token and the expiry
    [now + expires_in] (in milliseconds), [now] being the clock when the
    response arrived. *)
Theorem refreshAccessToken_outcomes (env : Env) (integrationId : jsstring)
    (w : World) (r : Integration.t) (rt : jsstring) :
  select_single env (by_id integrationId) w = Some r ->
  decrypt (H:=cipher env) (ENCRYPTION_KEY env) (Integration.refresh_token r)
    = Ok rt ->
  integrationId ≠ [] ->
  let out := refreshAccessToken env integrationId w in
  let untouched :=
    integrations out.2 = integrations w /\ db_writes out.2 = db_writes w in
  token_requests out.2 = token_requests w ++ [rt]
  /\ match token_endpoint env rt with
     | FetchThrows => out.1 = Err FetchFailed /\ untouched
     | Response false None _ => out.1 = Err BodyUnreadable /\ untouched
     | Response false (Some _) _ =>
         out.1 = Err ReauthorizationRequired
         /\ match db_fault env DbDelete with
            | None =>
                integrations out.2
                = filter (fun x => by_id integrationId x = false) (integrations w)
                /\ db_writes out.2 = db_writes w ++ [Deleted integrationId]
                /\ (forall x, x ∈ integrations out.2 ->
                              Integration.id x ≠ integrationId)
                /\ select_single env (by_id integrationId) out.2 = None
            | Some _ =>
                untouched
                /\ select_single env (by_id integrationId) out.2 = Some r
            end
     | Response true _ None => out.1 = Err InvalidJson /\ untouched
     | Response true _ (Some tokens) =>
         let expiry :=
           (now w + round_trip env + TokenResponse.expires_in tokens * 1000)%Z in
         match TokenResponse.access_token tokens,
               TokenResponse.refresh_token tokens with
         | [], _ | _, [] => out.1 = Err (Vault CannotEncryptEmpty) /\ untouched
         | _ :: _, _ :: _ =>
             if valid_time expiry then
               match db_fault env DbUpdate with
               | Some message =>
                   out.1 = Err (FailedToUpdateTokens message) /\ untouched
               | None =>
                   exists key,
                     getEncryptionKey (ENCRYPTION_KEY env) = Ok key /\
                     let d := refreshed_columns env key tokens w in
                     out.1 = Ok tokens
                     /\ integrations out.2
                        = (fun x => if by_id integrationId x
                                    then with_tokens d x else x)
                            <$> integrations w
                     /\ select_single env (by_id integrationId) out.2
                        = Some (with_tokens d r)
                     /\ db_writes out.2 = db_writes w ++ [Updated integrationId]
                     /\ td_token_expires_at d
                        = (now out.2 + TokenResponse.expires_in tokens * 1000)%Z
                     /\ decrypt (H:=cipher env) (ENCRYPTION_KEY env)
                          (td_access_token d)
                        = Ok (Utf8.decode
                                (Utf8.encode (TokenResponse.access_token tokens)))
                     /\ decrypt (H:=cipher env) (ENCRYPTION_KEY env)
                          (td_refresh_token d)
                        = Ok (Utf8.decode
                                (Utf8.encode (TokenResponse.refresh_token tokens)))
               end
             else out.1 = Err InvalidTimeValue /\ untouched
         end
     end.
Proof.
  intros Hsel Hdec Hid out untouched. subst untouched.
  destruct (select_single_inv _ _ _ _ Hsel) as [Hfs Hrows].
  destruct (decrypt_ok_key _ _ _ Hdec) as (key & Hkey & Hlen).
  subst out. rewrite refreshAccessToken_unfold, Hsel, Hdec.
  destruct (token_endpoint env rt) as [|[] text [tokens|]] eqn:Hresp;
    [done| |done| |].
  - (* an OK response with a token response *)
    pose proof (storeTokens_by_id env (Integration.user_id r) integrationId tokens
                  key (requested env rt w) Hkey Hlen Hid) as Hout.
    pose proof (storeTokens_failure env (Integration.user_id r) tokens
                  (Some integrationId) (requested env rt w)) as Hfail.
    pose proof (storeTokens_requests env (Integration.user_id r) tokens
                  (Some integrationId) (requested env rt w)) as [Hreq _].
    cbn zeta in Hout. cbn [now requested] in Hout.
    split; [by destruct (storeTokens _ _ _ _ _) as [[[]|e0] w']|].
    cbn zeta.
    assert (Hstopped : forall e,
              (storeTokens env (Integration.user_id r) tokens (Some integrationId)
                 (requested env rt w)).1 = Err e ->
              (let (r0, w') :=
                 storeTokens env (Integration.user_id r) tokens
                   (Some integrationId) (requested env rt w) in
               match r0 with
               | Ok _ => (Ok tokens, w')
               | Err e => (Err e, w')
               end).1 = Err e
              /\ integrations
                   (let (r0, w') :=
                      storeTokens env (Integration.user_id r) tokens
                        (Some integrationId) (requested env rt w) in
                    match r0 with
                    | Ok _ => (Ok tokens, w')
                    | Err e => (Err e, w')
                    end).2 = integrations w
              /\ db_writes
                   (let (r0, w') :=
                      storeTokens env (Integration.user_id r) tokens
                        (Some integrationId) (requested env rt w) in
                    match r0 with
                    | Ok _ => (Ok tokens, w')
                    | Err e => (Err e, w')
                    end).2 = db_writes w).
    { intros e He. destruct (Hfail e He) as (Hi & Hd & _).
      destruct (storeTokens _ _ _ _ _) as [[[]|e0] w']; [done|].
      cbn [fst snd requested integrations db_writes] in *. injection He as ->. split_and!; done. }
    destruct (TokenResponse.access_token tokens) as [|a0 acc] eqn:Ha.
    { apply Hstopped. by destruct (TokenResponse.refresh_token tokens). }
    destruct (TokenResponse.refresh_token tokens) as [|r0 ref] eqn:Hr;
      [by apply Hstopped|].
    destruct (valid_time _) eqn:Hvalid; [|by apply Hstopped].
    destruct (db_fault env DbUpdate) as [message|] eqn:Hfault;
      [by apply Hstopped|].
    clear Hstopped Hfail Hout Hreq. exists key. split; [done|].
    rewrite (storeTokens_update _ _ _ _ _ _ Hkey Hlen) by
      (done || (by rewrite Ha) || (by rewrite Hr)).
    unfold refreshed_columns.
    cbn [fst snd integrations db_writes token_requests now draws requested
         td_token_expires_at td_access_token td_refresh_token].
    rewrite <- Ha, <- Hr.
    split; [done|]. split; [done|]. split.
    { unfold select_single. rewrite Hfs. cbn [integrations].
      by rewrite (filter_by_id_update integrationId), Hrows. }
    split; [done|]. split; [done|].
    split; rewrite (decrypt_sealed _ _ _ Hkey Hlen (nonce_length _ _)); done.
  - (* a response that is not OK *)
    destruct text as [errorText|]; [|done].
    unfold delete_by_id. destruct (db_fault env DbDelete) as [message|] eqn:Hdel;
      cbn [fst snd integrations db_writes token_requests requested].
    + split; [done|]. split; [done|]. split; [done|].
      unfold select_single. rewrite Hfs. cbn [integrations requested snd].
      by rewrite Hrows.
    + split; [done|]. split; [done|]. split; [done|]. split; [done|].
      split; [apply no_row_after_delete|].
      unfold select_single. rewrite Hfs. cbn [integrations requested snd].
      rewrite list_filter_filter.
      by rewrite filter_none by (intros x [H1 H2]; unfold by_id in H1; congruence).
  - destruct text as [errorText|]; [|done].
    unfold delete_by_id. destruct (db_fault env DbDelete) as [message|] eqn:Hdel;
      cbn [fst snd integrations db_writes token_requests requested].
    + split; [done|]. split; [done|]. split; [done|].
      unfold select_single. rewrite Hfs. cbn [integrations requested snd].
      by rewrite Hrows.
    + split; [done|]. split; [done|]. split; [done|]. split; [done|].
      split; [apply no_row_after_delete|].
      unfold select_single. rewrite Hfs. cbn [integrations requested snd].
      rewrite list_filter_filter.
      by rewrite filter_none by (intros x [H1 H2]; unfold by_id in H1; congruence).
Qed.

Lemma refreshAccessToken_outcomes_witness :
  (let out := refreshAccessToken demo_env (js "int-1")
                (demo_world (js "dead-refresh") 1000) in
   token_requests out.2
   = token_requests (demo_world (js "dead-refresh") 1000) ++ [js "dead-refresh"]
   /\ out.1 = Err ReauthorizationRequired
   /\ integrations out.2
      = filter (fun x => by_id (js "int-1") x = false)
          (integrations (demo_world (js "dead-refresh") 1000))
   /\ db_writes out.2
      = db_writes (demo_world (js "dead-refresh") 1000) ++ [Deleted (js "int-1")]
   /\ (forall x, x ∈ integrations out.2 -> Integration.id x ≠ js "int-1")
   /\ select_single demo_env (by_id (js "int-1")) out.2 = None)
  /\ (let out := refreshAccessToken demo_env (js "int-1")
                   (demo_world (js "live-refresh") 1000) in
      token_requests out.2
      = token_requests (demo_world (js "live-refresh") 1000) ++ [js "live-refresh"]
      /\ exists key,
        getEncryptionKey (ENCRYPTION_KEY demo_env) = Ok key /\
        let d := refreshed_columns demo_env key demo_tokens
                   (demo_world (js "live-refresh") 1000) in
        out.1 = Ok demo_tokens
        /\ integrations out.2
           = (fun x => if by_id (js "int-1") x then with_tokens d x else x)
               <$> integrations (demo_world (js "live-refresh") 1000)
        /\ select_single demo_env (by_id (js "int-1")) out.2
           = Some (with_tokens d (demo_row (js "live-refresh") 1000))
        /\ db_writes out.2
           = db_writes (demo_world (js "live-refresh") 1000) ++ [Updated (js "int-1")]
        /\ td_token_expires_at d
           = (now out.2 + TokenResponse.expires_in demo_tokens * 1000)%Z
        /\ decrypt (H:=cipher demo_env) (ENCRYPTION_KEY demo_env) (td_access_token d)
           = Ok (Utf8.decode (Utf8.encode (TokenResponse.access_token demo_tokens)))
        /\ decrypt (H:=cipher demo_env) (ENCRYPTION_KEY demo_env) (td_refresh_token d)
           = Ok (Utf8.decode (Utf8.encode (TokenResponse.refresh_token demo_tokens)))).
Proof.
  split.
  - assert (Hdec : decrypt (H:=cipher demo_env) (ENCRYPTION_KEY demo_env)
             (Integration.refresh_token (demo_row (js "dead-refresh") 1000))
             = Ok (js "dead-refresh")) by (vm_compute; reflexivity).
    exact (refreshAccessToken_outcomes demo_env (js "int-1")
             (demo_world (js "dead-refresh") 1000)
             (demo_row (js "dead-refresh") 1000) (js "dead-refresh")
             eq_refl Hdec ltac:(discriminate)).
  - assert (Hdec : decrypt (H:=cipher demo_env) (ENCRYPTION_KEY demo_env)
             (Integration.refresh_token (demo_row (js "live-refresh") 1000))
             = Ok (js "live-refresh")) by (vm_compute; reflexivity).
    exact (refreshAccessToken_outcomes demo_env (js "int-1")
             (demo_world (js "live-refresh") 1000)
             (demo_row (js "live-refresh") 1000) (js "live-refresh")
             eq_refl Hdec ltac:(discriminate)).
Defined.

(** C5, as stated, fails when the store does not carry out the delete.  The
    code does not look at what the delete returns: the token endpoint has
    refused the refresh token, the caller gets the reauthorization-required
    error, and the record is still in the table. *)
Lemma refused_delete_keeps_the_record :
  let w := demo_world (js "dead-refresh") 1000 in
  let out := refreshAccessToken read_only_env (js "int-1") w in
  token_endpoint read_only_env (js "dead-refresh")
  = Response false (Some (js "invalid_grant")) None
  /\ out.1 = Err ReauthorizationRequired
  /\ integrations out.2 = [demo_row (js "dead-refresh") 1000]
  /\ db_writes out.2 = []
  /\ select_single read_only_env (by_id (js "int-1")) out.2
     = Some (demo_row (js "dead-refresh") 1000).
Proof. vm_compute. repeat split; reflexivity. Qed.

Example dead_refresh_token_deletes_record :
  refreshAccessToken demo_env (js "int-1") (demo_world (js "dead-refresh") 1000)
  = (Err ReauthorizationRequired,
     {| integrations := []; now := 1000120; draws := 0;
        token_requests := [js "dead-refresh"];
        db_writes := [Deleted (js "int-1")] |}).
Proof. vm_compute. reflexivity. Qed.

Example live_refresh_token_updates_record :
  let out := refreshAccessToken demo_env (js "int-1")
               (demo_world (js "live-refresh") 1000) in
  out.1 = Ok demo_tokens
  /\ Integration.token_expires_at <$> integrations out.2 = [4600120%Z]
  /\ (decrypt (H:=toy_gcm) demo_key ∘ Integration.access_token)
       <$> integrations out.2 = [Ok (js "access-2")]
  /\ (decrypt (H:=toy_gcm) demo_key ∘ Integration.refresh_token)
       <$> integrations out.2 = [Ok (js "refresh-2")]
  /\ db_writes out.2 = [Updated (js "int-1")].
Proof. vm_compute. repeat split; reflexivity. Qed.

Example unreadable_body_sends_no_delete :
  refreshAccessToken cut_off_env (js "int-1") (demo_world (js "dead-refresh") 1000)
  = (Err BodyUnreadable,
     requested cut_off_env (js "dead-refresh") (demo_world (js "dead-refresh") 1000))
  /\ db_writes
       (requested cut_off_env (js "dead-refresh")
          (demo_world (js "dead-refresh") 1000)) = [].
Proof. vm_compute. split; reflexivity. Qed.

Example expiry_beyond_the_date_range :
  let out := refreshAccessToken long_lived_env (js "int-1")
               (demo_world (js "live-refresh") 1000) in
  out.1 = Err InvalidTimeValue
  /\ integrations out.2 = [demo_row (js "live-refresh") 1000]
  /\ db_writes out.2 = [].
Proof. vm_compute. repeat split; reflexivity. Qed.

(** ** The probing loop *)

Ltac nat_div := zify; Z.to_euclidean_division_equations; lia.

Section Loop.
Context (tg : Target) (anthropic : option Anthropic).
Context (tableRlsStatus : gmap jsstring bool) (tablesToScan : list jsstring).

Local Abbreviation Step := (step tg anthropic tableRlsStatus tablesToScan).
Local Abbreviation Resume := (resume tg anthropic tableRlsStatus).
Local Abbreviation Start := (start_chunk tablesToScan).
Local Abbreviation Advance := (scanTable_resume tg anthropic tableRlsStatus).
Local Abbreviation Reachable := (reachable tg anthropic tableRlsStatus tablesToScan).
Local Abbreviation Pending := (pending tg anthropic tableRlsStatus).
Local Abbreviation FindingOf := (finding_of tg anthropic tableRlsStatus).
Local Abbreviation Group := (group tablesToScan).
Local Abbreviation GroupFindings :=
  (group_findings tg anthropic tableRlsStatus tablesToScan).
Local Abbreviation TurnsLeft := (turns_left tablesToScan).
Local Abbreviation n := (length tablesToScan).
Local Abbreviation Shape := (loop_shape tablesToScan).
Local Abbreviation FindingsInv :=
  (findings_invariant tg anthropic tableRlsStatus tablesToScan).
Local Abbreviation HistoryInv := (history_invariant tablesToScan).
Local Abbreviation GroupCount := (group_count tablesToScan).

(** What [resume] does to the calls in flight. *)
Lemma resume_unfold (k : nat) (lp : Loop) (t : Task) :
  in_flight lp !! k = Some t ->
  Resume k lp =
    let rest := take k (in_flight lp) ++ option_list (Advance t).1.1
                ++ drop (S k) (in_flight lp) in
    {| loop_i := match rest with
                 | [] => loop_i lp + CONCURRENCY_LIMIT
                 | _ => loop_i lp
                 end;
       in_flight := rest;
       found := found lp ++ (Advance t).1.2;
       history := (Advance t).2 ++ history lp |}.
Proof.
  intros Hk. unfold resume. rewrite Hk.
  by destruct (Advance t) as [[t' pushed] events].
Qed.

Lemma step_cases (c : nat) (lp lp' : Loop) :
  Step c lp = Some lp' ->
  (in_flight lp = [] /\ (loop_i lp < n)%nat /\ lp' = Start lp)
  \/ (exists k t, in_flight lp !! k = Some t /\ lp' = Resume k lp).
Proof.
  unfold step. destruct (in_flight lp) as [|t0 fl] eqn:Hfl.
  - destruct (Nat.ltb_spec (loop_i lp) n); [|done].
    intros [= <-]. by left.
  - intros [= <-]. right.
    assert (Hlt : (c mod length (t0 :: fl) < length (t0 :: fl))%nat)
      by (apply Nat.mod_upper_bound; done).
    destruct (lookup_lt_is_Some_2 _ _ Hlt) as [t Ht].
    by exists (c mod length (t0 :: fl))%nat, t.
Qed.


Lemma rest_length (k : nat) (fl : list Task) (t : Task) (t' : option Task) :
  fl !! k = Some t ->
  (length (take k fl ++ option_list t' ++ drop (S k) fl) <= length fl)%nat.
Proof.
  intros Hk. rewrite <- (take_drop_middle fl k t Hk) at 3.
  rewrite !length_app. cbn [length]. destruct t'; cbn; lia.
Qed.

Lemma start_chunk_in_flight (lp : Loop) :
  (loop_i lp < n)%nat -> in_flight (Start lp) ≠ [].
Proof.
  intros Hi. unfold start_chunk. cbn [in_flight]. intros Hnil%(f_equal length).
  rewrite length_imap, length_take, length_drop in Hnil.
  unfold CONCURRENCY_LIMIT in Hnil. cbn [length] in Hnil. lia.
Qed.

Lemma shape_step (c : nat) (lp lp' : Loop) :
  Shape lp -> Step c lp = Some lp' -> Shape lp'.
Proof.
  intros (Hmod & Hlen & Hact & Hmax) Hstep.
  unfold loop_shape, group_count, CONCURRENCY_LIMIT in *.
  destruct (step_cases _ _ _ Hstep) as [(Hfl & Hi & ->)|(k & t & Hk & ->)].
  - unfold start_chunk. split; [done|]. split; [|by split].
    cbn [in_flight]. rewrite length_imap, length_take.
    unfold CONCURRENCY_LIMIT. lia.
  - rewrite (resume_unfold _ _ _ Hk). cbn zeta.
    pose proof (rest_length k _ t (Advance t).1.1 Hk) as Hrest.
    assert (Hi : (loop_i lp < n)%nat)
      by (apply Hact; intros Hnil; by rewrite Hnil in Hk).
    destruct (take k (in_flight lp) ++ _ ++ _) as [|t1 rest] eqn:Hr;
      repeat split; cbn [loop_i in_flight]; unfold CONCURRENCY_LIMIT;
      try done; try lia; nat_div.
Qed.

Lemma reachable_shape (lp : Loop) : Reachable lp -> Shape lp.
Proof.
  induction 1 as [|lp c lp' _ IH Hstep].
  - unfold loop_shape, group_count, CONCURRENCY_LIMIT.
    repeat split; cbn; try done; lia.
  - by eapply shape_step.
Qed.


(** *** Termination *)

Lemma weights_started {A} (f : nat -> A -> Task) (l : list A) :
  (forall k x, task_stage (f k x) = AwaitingRead) ->
  sum_list_with weight (imap f l) = (2 * length l)%nat.
Proof.
  revert f. induction l as [|x l IH]; intros f Hf; [done|].
  cbn [imap sum_list_with length]. rewrite IH by (intros; apply Hf).
  unfold weight. rewrite Hf. lia.
Qed.

Lemma weight_resumed (t : Task) :
  (sum_list_with weight (option_list (Advance t).1.1) < weight t)%nat.
Proof.
  unfold scanTable_resume, weight. destruct (task_stage t); [|cbn; lia].
  destruct (exposed_row _); cbn; lia.
Qed.

Lemma turns_left_step (c : nat) (lp lp' : Loop) :
  Step c lp = Some lp' -> (TurnsLeft lp' < TurnsLeft lp)%nat.
Proof.
  intros Hstep.
  destruct (step_cases _ _ _ Hstep) as [(Hfl & Hi & ->)|(k & t & Hk & ->)].
  - pose proof (start_chunk_in_flight lp Hi) as Hne.
    unfold turns_left. rewrite Hfl.
    destruct (in_flight (Start lp)) as [|t0 fl] eqn:Hst; [done|].
    rewrite <- Hst. unfold start_chunk. cbn [loop_i in_flight].
    rewrite weights_started by done.
    rewrite length_take, length_drop. unfold CONCURRENCY_LIMIT.
    cbn [sum_list_with]. lia.
  - rewrite (resume_unfold _ _ _ Hk). cbn zeta. unfold turns_left.
    pose proof (weight_resumed t) as Hw.
    pose proof (take_drop_middle _ _ _ Hk) as Hfl.
    cbn [loop_i in_flight].
    set (l1 := take k (in_flight lp)) in *.
    set (l2 := drop (S k) (in_flight lp)) in *.
    set (l' := option_list (Advance t).1.1) in *.
    rewrite <- Hfl. clearbody l1 l2 l'. clear Hfl Hstep Hk.
    rewrite !sum_list_with_app. cbn [sum_list_with].
    assert (Hpos : (0 < weight t)%nat) by lia.
    destruct l1 as [|t1 l1]; [destruct l' as [|t2 l']; [destruct l2|]|];
      cbn [app sum_list_with] in *; unfold CONCURRENCY_LIMIT; lia.
Qed.

Lemma step_none_any (c c' : nat) (lp : Loop) :
  Step c lp = None -> Step c' lp = None.
Proof. unfold step. by destruct (in_flight lp). Qed.

Lemma step_none_inv (c : nat) (lp : Loop) :
  Step c lp = None -> in_flight lp = [] /\ (n <= loop_i lp)%nat.
Proof.
  unfold step. destruct (in_flight lp); [|done].
  destruct (Nat.ltb_spec (loop_i lp) n); [done|]. by split.
Qed.

Lemma run_ends (fuel : nat) (sched : nat -> nat) (t : nat) (lp : Loop) :
  (TurnsLeft lp < fuel)%nat ->
  forall c, Step c (run tg anthropic tableRlsStatus tablesToScan fuel sched t lp) = None.
Proof.
  revert t lp. induction fuel as [|fuel IH]; intros t lp Hfuel c; [lia|].
  cbn [run]. destruct (Step (sched t) lp) as [lp'|] eqn:Hstep.
  - apply IH. apply turns_left_step in Hstep. lia.
  - by apply (step_none_any (sched t)).
Qed.

Lemma run_reachable (fuel : nat) (sched : nat -> nat) (t : nat) (lp : Loop) :
  Reachable lp ->
  Reachable (run tg anthropic tableRlsStatus tablesToScan fuel sched t lp).
Proof.
  revert t lp. induction fuel as [|fuel IH]; intros t lp Hlp; [done|].
  cbn [run]. destruct (Step (sched t) lp) as [lp'|] eqn:Hstep; [|done].
  apply IH. by eapply reachable_step.
Qed.

Local Abbreviation ProbeAll := (probe_all tg anthropic tableRlsStatus tablesToScan).

Lemma probe_all_reachable (sched : nat -> nat) : Reachable (ProbeAll sched).
Proof. apply run_reachable, reachable_start. Qed.

Lemma probe_all_ends (sched : nat -> nat) :
  in_flight (ProbeAll sched) = [] /\ (n <= loop_i (ProbeAll sched))%nat.
Proof.
  apply (step_none_inv 0). apply run_ends.
  unfold turns_left, loop_start. cbn. lia.
Qed.


(** *** Findings *)

Lemma pending_started {A} (f : nat -> A -> Task) (g : A -> jsstring) (l : list A) :
  (forall k x, task_stage (f k x) = AwaitingRead /\ task_table (f k x) = g x) ->
  omap Pending (imap f l) = omap FindingOf (g <$> l).
Proof.
  revert f. induction l as [|x l IH]; intros f Hf; [done|].
  cbn [imap fmap list_fmap omap list_omap].
  rewrite IH by (intros; apply Hf). unfold pending at 1.
  destruct (Hf 0%nat x) as [-> ->]. done.
Qed.

Lemma pending_resumed (t : Task) :
  (Advance t).1.2 ++ omap Pending (option_list (Advance t).1.1)
  = option_list (Pending t).
Proof.
  unfold scanTable_resume, pending, finding_of.
  destruct (task_stage t); [|done].
  by destruct (exposed_row _).
Qed.

Lemma findings_step (c : nat) (lp lp' : Loop) :
  Shape lp -> FindingsInv lp ->
  Step c lp = Some lp' -> FindingsInv lp'.
Proof.
  intros (Hmod & _ & _ & _) (ls & cur & Hfound & Hls & Hcur) Hstep.
  unfold CONCURRENCY_LIMIT in *.
  destruct (step_cases _ _ _ Hstep) as [(Hfl & Hi & ->)|(k & t & Hk & ->)].
  - rewrite Hfl in Hcur. cbn [omap list_omap] in Hcur.
    rewrite app_nil_r in Hcur. apply Permutation_nil_r in Hcur. subst cur.
    exists ls, []. split; [done|]. split; [done|].
    pose proof (start_chunk_in_flight lp Hi) as Hne.
    destruct (in_flight (Start lp)) as [|t0 fl] eqn:Hst; [done|].
    rewrite <- Hst. unfold start_chunk. cbn [app loop_i in_flight].
    rewrite (pending_started _ (fun x => x)) by done.
    rewrite list_fmap_id. unfold group_findings, group, CONCURRENCY_LIMIT.
    by replace (5 * (loop_i lp / 5))%nat with (loop_i lp) by nat_div.
  - rewrite (resume_unfold _ _ _ Hk). cbn zeta.
    pose proof (take_drop_middle _ _ _ Hk) as Hfl.
    set (l1 := take k (in_flight lp)) in *.
    set (l2 := drop (S k) (in_flight lp)) in *.
    rewrite <- Hfl in Hcur. clearbody l1 l2.
    assert (Hcur' : cur ++ omap Pending (l1 ++ t :: l2)
                    ≡ₚ GroupFindings (loop_i lp / 5)) by (by destruct l1).
    clear Hcur.
    assert (Hperm : (cur ++ (Advance t).1.2)
                    ++ omap Pending (l1 ++ option_list (Advance t).1.1 ++ l2)
                    ≡ₚ GroupFindings (loop_i lp / 5)).
    { rewrite <- Hcur', !omap_app, <- !app_assoc.
      apply Permutation_app_head.
      rewrite Permutation_app_swap_app. apply Permutation_app_head.
      rewrite app_assoc, pending_resumed. cbn [omap list_omap].
      by destruct (Pending t). }
    destruct (l1 ++ option_list (Advance t).1.1 ++ l2) as [|t1 rest] eqn:Hrest.
    + exists (ls ++ [cur ++ (Advance t).1.2]), [].
      cbn [found loop_i in_flight omap list_omap app] in *.
      rewrite app_nil_r in *. split.
      { rewrite concat_app. cbn [concat]. by rewrite app_nil_r, Hfound, app_assoc. }
      split; [|done].
      unfold CONCURRENCY_LIMIT.
      replace ((loop_i lp + 5) / 5)%nat with (S (loop_i lp / 5)) by nat_div.
      rewrite seq_S, fmap_app. apply Forall2_app; [done|]. cbn.
      by apply Forall2_cons.
    + exists ls, (cur ++ (Advance t).1.2).
      cbn [found loop_i in_flight]. split; [by rewrite Hfound, app_assoc|].
      split; [done|]. done.
Qed.


Lemma reachable_findings (lp : Loop) : Reachable lp -> FindingsInv lp.
Proof.
  induction 1 as [|lp c lp' Hlp IH Hstep].
  - exists [], []. by repeat split.
  - eapply findings_step; [|done..]. by apply reachable_shape.
Qed.

(** When the loop has ended, the findings are those of the groups, group
    after group, each group in some order. *)
Lemma findings_at_end (sched : nat -> nat) :
  exists ls,
    found (ProbeAll sched) = concat ls
    /\ Forall2 (≡ₚ) ls (GroupFindings <$> seq 0 GroupCount).
Proof.
  destruct (probe_all_ends sched) as [Hfl Hi].
  destruct (reachable_shape _ (probe_all_reachable sched))
    as (Hmod & _ & _ & Hmax).
  destruct (reachable_findings _ (probe_all_reachable sched))
    as (ls & cur & Hfound & Hls & Hcur).
  rewrite Hfl in Hcur. cbn [omap list_omap] in Hcur.
  rewrite app_nil_r in Hcur. apply Permutation_nil_r in Hcur. subst cur.
  exists ls. rewrite app_nil_r in Hfound. split; [done|].
  unfold group_count, CONCURRENCY_LIMIT in *.
  by replace ((n + 4) / 5)%nat with (loop_i (ProbeAll sched) / 5)%nat by nat_div.
Qed.

Lemma groups_concat (m : nat) :
  concat (Group <$> seq 0 m) = take (CONCURRENCY_LIMIT * m) tablesToScan.
Proof.
  induction m as [|m IH]; [done|].
  rewrite seq_S, fmap_app, concat_app, IH. cbn [fmap list_fmap concat].
  rewrite app_nil_r. unfold group.
  replace (CONCURRENCY_LIMIT * S m)%nat
    with (CONCURRENCY_LIMIT * m + CONCURRENCY_LIMIT)%nat by lia.
  by rewrite take_take_drop.
Qed.

Lemma groups_cover : concat (Group <$> seq 0 GroupCount) = tablesToScan.
Proof.
  rewrite groups_concat. apply firstn_all2.
  unfold group_count, CONCURRENCY_LIMIT. nat_div.
Qed.

Lemma omap_concat {A B} (f : A -> option B) (ls : list (list A)) :
  omap f (concat ls) = concat ((fun l : list A => omap f l) <$> ls).
Proof.
  induction ls as [|l ls IH]; [done|]. cbn. by rewrite omap_app, IH.
Qed.

Lemma concat_perm {A} (ls ls' : list (list A)) :
  Forall2 (≡ₚ) ls ls' -> concat ls ≡ₚ concat ls'.
Proof.
  induction 1 as [|l l' ls ls' Hl _ IH]; [done|]. cbn. by rewrite Hl, IH.
Qed.

(** Up to order, the findings are those of the tables in catalog order. *)
Lemma findings_perm (sched : nat -> nat) :
  found (ProbeAll sched) ≡ₚ omap FindingOf tablesToScan.
Proof.
  destruct (findings_at_end sched) as (ls & -> & Hls).
  rewrite (concat_perm _ _ Hls).
  transitivity (omap FindingOf (concat (Group <$> seq 0 GroupCount)));
    [|by rewrite groups_cover].
  by rewrite omap_concat, <- list_fmap_compose.
Qed.


(** *** History *)

Lemma in_group_order_started (i : nat) (starts h : list Event) :
  (i mod CONCURRENCY_LIMIT = 0)%nat ->
  Forall (fun e => exists j, e = ProbeStarted j
                             /\ (i <= j < i + CONCURRENCY_LIMIT)%nat) starts ->
  CatalogDone ∈ h ->
  (forall k, (k < i)%nat -> ProbeSettled k ∈ h) ->
  in_group_order h ->
  in_group_order (starts ++ h).
Proof.
  intros Hmod Hstarts Hcat Hsettled Hh. unfold CONCURRENCY_LIMIT in *.
  induction Hstarts as [|e starts (j & -> & Hj) _ IH]; [done|].
  cbn [app in_group_order]. split; [|done]. split.
  - apply elem_of_app. by right.
  - intros k Hk. apply elem_of_app. right. apply Hsettled.
    unfold CONCURRENCY_LIMIT in Hk. nat_div.
Qed.

Lemma in_group_order_settled (events h : list Event) :
  Forall (fun e => is_started e = false) events ->
  in_group_order h -> in_group_order (events ++ h).
Proof.
  intros Hev Hh. induction Hev as [|e events He _ IH]; [done|].
  cbn [app in_group_order]. split; [|done]. by destruct e.
Qed.

Lemma count_started (f : nat -> jsstring -> Event) (l : list jsstring) :
  (forall k x, exists j, f k x = ProbeStarted j) ->
  length (filter (fun e => is_started e = true) (imap f l)) = length l
  /\ length (filter (fun e => is_settled e = true) (imap f l)) = 0%nat.
Proof.
  revert f. induction l as [|x l IH]; intros f Hf; [done|].
  cbn [imap length]. destruct (Hf 0%nat x) as [j Hj].
  destruct (IH (f ∘ S)) as [IH1 IH2]; [intros; apply Hf|].
  rewrite !filter_cons, Hj. cbn [is_started is_settled].
  rewrite decide_True, decide_False by done. cbn [length]. by rewrite IH1, IH2.
Qed.

Lemma count_awaiting (f : nat -> jsstring -> Task) (l : list jsstring) :
  (forall k x, task_stage (f k x) = AwaitingRead) ->
  length (filter (fun t => awaiting_read t = true) (imap f l)) = length l.
Proof.
  revert f. induction l as [|x l IH]; intros f Hf; [done|].
  cbn [imap length]. rewrite filter_cons_True.
  - cbn [length]. by rewrite IH by (intros; apply Hf).
  - unfold awaiting_read. by rewrite Hf.
Qed.

Lemma reads_in_flight_app (h1 h2 : list Event) :
  reads_in_flight (h1 ++ h2) = (reads_in_flight h1 + reads_in_flight h2)%Z.
Proof. unfold reads_in_flight. rewrite !filter_app, !length_app. lia. Qed.

Lemma reads_in_flight_reverse (h : list Event) :
  reads_in_flight (reverse h) = reads_in_flight h.
Proof. unfold reads_in_flight. by rewrite !filter_reverse, !length_reverse. Qed.


Lemma resumed_events (t : Task) :
  (Advance t).2 = if awaiting_read t then [ProbeSettled (task_index t)]
                  else [FindingPushed (task_index t)].
Proof.
  unfold scanTable_resume, awaiting_read. destruct (task_stage t); [|done].
  by destruct (exposed_row _).
Qed.

Lemma resumed_not_awaiting (t : Task) :
  filter (fun x => awaiting_read x = true) (option_list (Advance t).1.1) = [].
Proof.
  unfold scanTable_resume. destruct (task_stage t); [|done].
  by destruct (exposed_row _).
Qed.

Lemma history_step (c : nat) (lp lp' : Loop) :
  Shape lp -> HistoryInv lp ->
  Step c lp = Some lp' -> HistoryInv lp'.
Proof.
  intros (Hmod & Hlen & Hact & Hmax) (Hcat & Hord & Hdone & Hcur & Hcount) Hstep.
  destruct (step_cases _ _ _ Hstep) as [(Hfl & Hi & ->)|(k & t & Hk & ->)].
  - unfold start_chunk, history_invariant. cbn [history loop_i in_flight].
    set (chunk := take CONCURRENCY_LIMIT (drop (loop_i lp) tablesToScan)).
    assert (Hchunk : length chunk = (CONCURRENCY_LIMIT `min` (n - loop_i lp))%nat)
      by (unfold chunk; by rewrite length_take, length_drop).
    split; [apply elem_of_app; by right|]. split.
    { apply (in_group_order_started (loop_i lp)); try done.
      - apply Forall_reverse, Forall_forall. intros e He.
        apply elem_of_lookup_imap in He as (j & x & -> & Hx).
        apply lookup_lt_Some in Hx. exists (loop_i lp + j)%nat.
        split; [done|]. rewrite Hchunk in Hx. lia.
      - intros j Hj. apply Hdone; lia. }
    split; [intros j Hj Hn; apply elem_of_app; right; by apply Hdone|].
    split.
    { intros _ j Hj Hn. right.
      assert (Hlt : (j - loop_i lp < length chunk)%nat)
        by (rewrite Hchunk; unfold CONCURRENCY_LIMIT in *; lia).
      destruct (lookup_lt_is_Some_2 _ _ Hlt) as [x Hx].
      exists (scanTable_start j x). split; [|done].
      apply elem_of_lookup_imap. exists (j - loop_i lp)%nat, x.
      split; [|done]. f_equal. lia. }
    rewrite reads_in_flight_app, reads_in_flight_reverse, Hcount, Hfl.
    unfold reads_in_flight.
    destruct (count_started (fun k _ => ProbeStarted (loop_i lp + k)) chunk)
      as [-> ->]; [by eexists|].
    rewrite count_awaiting by done. cbn. lia.
  - rewrite (resume_unfold _ _ _ Hk). cbn zeta.
    pose proof (take_drop_middle _ _ _ Hk) as Hfl.
    pose proof (resumed_events t) as Hev.
    pose proof (resumed_not_awaiting t) as Hna.
    set (l1 := take k (in_flight lp)) in *.
    set (l2 := drop (S k) (in_flight lp)) in *.
    set (o := option_list (Advance t).1.1) in *.
    set (ev := (Advance t).2) in *.
    clearbody l1 l2 o ev. rewrite <- Hfl in Hcur, Hcount.
    assert (Hne : l1 ++ t :: l2 ≠ []) by (by destruct l1).
    specialize (Hcur Hne).
    assert (Hsettle : forall j, (loop_i lp <= j < loop_i lp + CONCURRENCY_LIMIT)%nat ->
              (j < n)%nat ->
              ProbeSettled j ∈ ev ++ history lp
              \/ exists x, x ∈ l1 ++ l2 /\ task_index x = j
                           /\ task_stage x = AwaitingRead).
    { intros j Hj Hn. destruct (Hcur j Hj Hn) as [Hin|(x & Hx & Hidx & Hst)].
      - left. apply elem_of_app. by right.
      - apply elem_of_app in Hx as [Hx|[->|Hx]%elem_of_cons].
        + right. exists x. split; [apply elem_of_app; by left|done].
        + left. unfold awaiting_read in Hev. rewrite Hst in Hev. subst ev j.
          apply elem_of_app. left. by apply list_elem_of_singleton.
        + right. exists x. split; [apply elem_of_app; by right|done]. }
    unfold history_invariant. cbn [history loop_i in_flight].
    split; [apply elem_of_app; by right|]. split.
    { apply in_group_order_settled; [|done]. subst ev.
      destruct (awaiting_read t); by repeat constructor. }
    split.
    { intros j Hj Hn. destruct (decide (j < loop_i lp)%nat) as [Hlt|Hge].
      { apply elem_of_app. right. by apply Hdone. }
      destruct (l1 ++ o ++ l2) as [|t1 rest] eqn:Hrest; [|lia].
      apply app_eq_nil in Hrest as [-> [-> ->]%app_eq_nil].
      destruct (Hsettle j) as [Hin|(x & Hx & _)]; [lia|done|done|].
      by apply elem_of_nil in Hx. }
    split.
    { intros Hrest j Hj Hn.
      destruct (l1 ++ o ++ l2) as [|t1 rest] eqn:Hr; [done|]. rewrite <- Hr.
      destruct (Hsettle j Hj Hn) as [Hin|(x & Hx & Hidx & Hst)]; [by left|].
      right. exists x. split; [|done].
      apply elem_of_app in Hx as [Hx|Hx]; apply elem_of_app;
        [by left|right; apply elem_of_app; by right]. }
    rewrite reads_in_flight_app, Hcount, !filter_app, filter_cons, Hna.
    rewrite !length_app. subst ev. unfold reads_in_flight.
    destruct (awaiting_read t) eqn:Ha.
    + rewrite decide_True by done.
      rewrite (filter_cons_False (fun e => is_started e = true)) by done.
      rewrite (filter_cons_True (fun e => is_settled e = true)) by done.
      rewrite !filter_nil. cbn [length]. lia.
    + rewrite decide_False by done.
      rewrite (filter_cons_False (fun e => is_started e = true)) by done.
      rewrite (filter_cons_False (fun e => is_settled e = true)) by done.
      rewrite !filter_nil. cbn [length]. lia.
Qed.

Lemma reachable_history (lp : Loop) : Reachable lp -> HistoryInv lp.
Proof.
  induction 1 as [|lp c lp' Hlp IH Hstep].
  - unfold history_invariant, loop_start. cbn [history loop_i in_flight].
    split; [by apply list_elem_of_singleton|]. split; [done|].
    split; [lia|]. split; [done|]. done.
  - eapply history_step; [|done..]. by apply reachable_shape.
Qed.

(** *** Pushes *)

Local Abbreviation PushInv :=
  (push_invariant tg anthropic tableRlsStatus tablesToScan).
Local Abbreviation FindingAt :=
  (finding_at tg anthropic tableRlsStatus tablesToScan).

Lemma pushes_app (h1 h2 : list Event) : pushes (h1 ++ h2) = pushes h2 ++ pushes h1.
Proof. unfold pushes. by rewrite reverse_app, omap_app. Qed.

Lemma pushes_started (f : nat -> jsstring -> Event) (l : list jsstring) :
  (forall k x, exists j, f k x = ProbeStarted j) -> pushes (reverse (imap f l)) = [].
Proof.
  unfold pushes. rewrite reverse_involutive.
  revert f. induction l as [|x l IH]; intros f Hf; [done|].
  cbn [imap omap list_omap]. destruct (Hf 0%nat x) as [j ->].
  apply IH. intros. apply Hf.
Qed.

Lemma StronglySorted_snoc {A} (R : A -> A -> Prop) (l : list A) (x : A) :
  StronglySorted R l -> Forall (fun y => R y x) l -> StronglySorted R (l ++ [x]).
Proof.
  induction 1 as [|y l Hl IH Hy]; intros Hx.
  - repeat constructor.
  - apply Forall_cons in Hx as [Hyx Hx]. cbn. constructor; [by apply IH|].
    apply Forall_app. split; [done|]. by constructor.
Qed.

(** What a call does between two awaits, as the push invariant needs it. *)
Lemma resumed_push (t : Task) :
  Some <$> (Advance t).1.2 = (fun _ => Pending t) <$> pushes (Advance t).2
  /\ (forall i, i ∈ pushes (Advance t).2 -> i = task_index t)
  /\ Forall (fun t' => task_index t' = task_index t
                       /\ task_table t' = task_table t
                       /\ Pending t' = Pending t)
            (option_list (Advance t).1.1).
Proof.
  unfold scanTable_resume, pending, finding_of.
  destruct (task_stage t) as [|fields row rlsEnabled].
  - destruct (exposed_row _) as [row|]; cbn; (split; [done|]);
      (split; [by intros i ?%elem_of_nil|]); by repeat constructor.
  - cbn. split; [done|]. split; [|constructor].
    by intros i ->%list_elem_of_singleton.
Qed.

Lemma push_step (c : nat) (lp lp' : Loop) :
  Shape lp -> PushInv lp -> Step c lp = Some lp' -> PushInv lp'.
Proof.
  intros (Hmod & Hlen & Hact & Hmax) (Hfound & Hsorted & Hbound & Hfl) Hstep.
  destruct (step_cases _ _ _ Hstep) as [(Hnil & Hi & ->)|(k & t & Hk & ->)].
  - unfold start_chunk, push_invariant. cbn [history loop_i in_flight found].
    rewrite pushes_app, pushes_started, app_nil_r by (by eexists).
    split; [done|]. split; [done|]. split; [done|].
    apply Forall_forall. intros t Ht.
    apply elem_of_lookup_imap in Ht as (j & x & -> & Hx).
    pose proof (lookup_lt_Some _ _ _ Hx) as Hj.
    rewrite length_take in Hj.
    rewrite lookup_take_lt, lookup_drop in Hx by lia.
    unfold scanTable_start, pending. cbn. split; [done|]. split; [done|].
    unfold CONCURRENCY_LIMIT in *. lia.
  - rewrite (resume_unfold _ _ _ Hk). cbn zeta.
    pose proof (take_drop_middle _ _ _ Hk) as Hsplit.
    rewrite <- Hsplit in Hfl.
    apply Forall_app in Hfl as [Hl1 Hl2].
    apply Forall_cons in Hl2 as [(Htab & Hpend & Hidx) Hl2].
    destruct (resumed_push t) as (Hpushed & Hwho & Hnext).
    set (l1 := take k (in_flight lp)) in *.
    set (l2 := drop (S k) (in_flight lp)) in *.
    set (o := option_list (Advance t).1.1) in *.
    set (ev := (Advance t).2) in *.
    set (out := (Advance t).1.2) in *.
    clearbody l1 l2 o ev out. clear Hsplit.
    unfold push_invariant. cbn [history loop_i in_flight found].
    rewrite pushes_app.
    assert (Hi' : (loop_i lp
                   <= match l1 ++ o ++ l2 with
                      | [] => loop_i lp + CONCURRENCY_LIMIT
                      | _ :: _ => loop_i lp
                      end)%nat) by (destruct (l1 ++ o ++ l2); lia).
    split.
    { rewrite !fmap_app, Hfound, Hpushed. f_equal.
      apply list_fmap_ext. intros j i Hj.
      apply list_elem_of_lookup_2, Hwho in Hj as ->.
      unfold finding_at. by rewrite Htab, Hpend. }
    split.
    { clear Hpushed Hfound. induction (pushes ev) as [|i l IH] using rev_ind;
        [by rewrite app_nil_r|].
      rewrite app_assoc. apply StronglySorted_snoc.
      - apply IH. intros j Hj. apply Hwho, elem_of_app. by left.
      - assert (i = task_index t) as ->
          by (apply Hwho, elem_of_app; right; by apply list_elem_of_singleton).
        apply Forall_app. split.
        + eapply Forall_impl; [exact Hbound|]. cbn. intros i Hi.
          unfold group_le, CONCURRENCY_LIMIT in *. nat_div.
        + apply Forall_forall. intros j Hj.
          assert (j = task_index t) as ->
            by (apply Hwho, elem_of_app; by left).
          unfold group_le. lia. }
    split.
    { apply Forall_app. split.
      - eapply Forall_impl; [exact Hbound|]. cbn. intros. lia.
      - apply Forall_forall. intros i ->%Hwho. lia. }
    assert (Hall : Forall (fun t0 =>
                tablesToScan !! task_index t0 = Some (task_table t0)
                /\ Pending t0 = FindingOf (task_table t0)
                /\ (loop_i lp <= task_index t0
                    < loop_i lp + CONCURRENCY_LIMIT)%nat) (l1 ++ o ++ l2)).
    { apply Forall_app. split; [done|]. apply Forall_app. split; [|done].
      eapply Forall_impl; [exact Hnext|]. cbn. intros t' (-> & -> & ->). done. }
    destruct (l1 ++ o ++ l2) as [|t1 rest]; [constructor|done].
Qed.

Lemma reachable_pushes (lp : Loop) : Reachable lp -> PushInv lp.
Proof.
  induction 1 as [|lp c lp' Hlp IH Hstep].
  - unfold push_invariant, loop_start. cbn. split; [done|].
    split; [constructor|]. split; constructor.
  - eapply push_step; [|done..]. by apply reachable_shape.
Qed.

End Loop.

(** ** The scan *)

Example scan_oldest_first :
  Vulnerability.table <$>
    ScanResult.vulnerabilities (scanProject demo_target demo_options oldest_first)
  = [js "profiles"; js "user_secrets"].
Proof. vm_compute. reflexivity. Qed.

Example scan_youngest_first :
  Vulnerability.table <$>
    ScanResult.vulnerabilities (scanProject demo_target demo_options youngest_first)
  = [js "user_secrets"; js "profiles"].
Proof. vm_compute. reflexivity. Qed.

Example scan_summary :
  ScanResult.summary (scanProject demo_target demo_options youngest_first)
  = {| total_tables := 3; vulnerable_tables := 2; secure_tables := 1 |}.
Proof. vm_compute. reflexivity. Qed.

Lemma scanProject_probing (tg : Target) (options : Options) (sched : nat -> nat)
    (rows : list CatalogRow) :
  createClient_throws tg = None ->
  executeQuery tg = Ok (CatalogRows rows) ->
  rows ≠ [] ->
  scanProject tg options sched
  = let lp := probe_all tg (anthropic_client tg options) (rls_map rows)
                (tables_to_scan options rows) sched in
    let scannedCount := Z.of_nat (length (tables_to_scan options rows)) in
    {| ScanResult.success := true;
       ScanResult.vulnerabilities := found lp;
       ScanResult.summary :=
         {| total_tables := scannedCount;
            vulnerable_tables := Z.of_nat (length (found lp));
            secure_tables := (scannedCount - Z.of_nat (length (found lp)))%Z |};
       ScanResult.error := None |}.
Proof.
  intros Hclient Hquery Hrows. unfold scanProject. rewrite Hclient, Hquery.
  by destruct rows.
Qed.

Lemma slice_length_le {A} (l : list A) (m : Z) :
  (0 <= m)%Z -> (Z.of_nat (length (slice l 0 m)) <= m)%Z.
Proof.
  intros Hm. unfold slice, rel_index. cbn [Z.ltb Z.compare].
  destruct (Z.ltb_spec m 0); [lia|].
  rewrite length_take, length_drop. lia.
Qed.

Lemma slice_length_le_all {A} (l : list A) (start stop : Z) :
  (length (slice l start stop) <= length l)%nat.
Proof. unfold slice. rewrite length_take, length_drop. lia. Qed.

Lemma omap_length_le {A B} (f : A -> option B) (l : list A) :
  (length (omap f l) <= length l)%nat.
Proof.
  induction l as [|x l IH]; [done|]. cbn. destruct (f x); cbn; lia.
Qed.

Lemma found_length_le (tg : Target) (anthropic : option Anthropic)
    (tableRlsStatus : gmap jsstring bool) (tablesToScan : list jsstring)
    (sched : nat -> nat) :
  (length (found (probe_all tg anthropic tableRlsStatus tablesToScan sched))
   <= length tablesToScan)%nat.
Proof. rewrite findings_perm. apply omap_length_le. Qed.

Lemma rls_map_snoc (rows : list CatalogRow) (r : CatalogRow) :
  rls_map (rows ++ [r]) = <[table_name r := rls_enabled r]> (rls_map rows).
Proof. unfold rls_map. by rewrite foldl_app. Qed.

(** With distinct table names, the map holds the flag of every catalog row. *)
Lemma rls_map_lookup (rows : list CatalogRow) (r : CatalogRow) :
  NoDup (table_name <$> rows) -> r ∈ rows ->
  rls_map rows !! table_name r = Some (rls_enabled r).
Proof.
  induction rows as [|r' rows IH] using rev_ind; [by intros _ ?%elem_of_nil|].
  rewrite fmap_app, rls_map_snoc. intros Hnd [Hin|Hin]%elem_of_app.
  - apply NoDup_app in Hnd as (Hnd & Hdisj & _).
    rewrite lookup_insert_ne; [by apply IH|].
    intros Heq. apply (Hdisj (table_name r)).
    + by apply list_elem_of_fmap_2.
    + rewrite <- Heq. cbn. apply list_elem_of_singleton. done.
  - apply list_elem_of_singleton in Hin as ->. apply lookup_insert_eq.
Qed.

(** The findings for one table name among what the calls push. *)
Lemma findings_of_table (tg : Target) (anthropic : option Anthropic)
    (tableRlsStatus : gmap jsstring bool) (name : jsstring) (l : list jsstring) :
  length (filter (fun v => Vulnerability.table v = name)
            (omap (finding_of tg anthropic tableRlsStatus) l))
  = if is_exposed (anon_read tg name)
    then length (filter (fun x => x = name) l) else 0%nat.
Proof.
  unfold is_exposed. induction l as [|x l IH].
  { by destruct (exposed_row _). }
  cbn [omap list_omap]. unfold finding_of at 1.
  destruct (decide (x = name)) as [->|Hne].
  - destruct (exposed_row (anon_read tg name)) as [row|] eqn:Hrow.
    + rewrite !filter_cons_True by done. cbn [length]. by rewrite IH.
    + done.
  - rewrite (filter_cons_False _ x) by done.
    destruct (exposed_row (anon_read tg x)); [|done].
    by rewrite filter_cons_False.
Qed.

(** C2.  In a scan that reaches the probes, the findings returned are, up to
    order, what the calls of [scanTable] emit for the probed tables, table by
    table.  For a table whose unprivileged read succeeds with at least one
    row, the call emits one finding: severity critical, leaked fields the
    column names of the first row, sample data that row, and the issue text
    chosen by the table's protection flag.  For a table whose read throws,
    reports an error or returns no row, it emits nothing.  So the result holds
    one finding per probed occurrence of an exposed table and none for any
    other table, and no probe outcome puts an error on the result. *)
Theorem scanTable_findings (tg : Target) (options : Options)
    (sched : nat -> nat) (rows : list CatalogRow) :
  createClient_throws tg = None ->
  executeQuery tg = Ok (CatalogRows rows) ->
  rows ≠ [] ->
  let result := scanProject tg options sched in
  let probed := tables_to_scan options rows in
  let flag name := default false (rls_map rows !! name) in
  let emitted := finding_of tg (anthropic_client tg options) (rls_map rows) in
  ScanResult.vulnerabilities result ≡ₚ omap emitted probed
  /\ (forall name row more,
        anon_read tg name = ProbeReply (Some (row :: more)) None ->
        exists v,
          emitted name = Some v
          /\ Vulnerability.table v = name
          /\ Vulnerability.severity v = critical
          /\ Vulnerability.leaked_fields v = Object_keys row
          /\ Vulnerability.sample_data v = row
          /\ Vulnerability.issue v
             = if flag name
               then js "RLS is enabled but policy is too permissive (public access)"
               else js "Anonymous users can read data from this table")
  /\ (forall name,
        anon_read tg name = ProbeThrows
        \/ (exists data e, anon_read tg name = ProbeReply data (Some e))
        \/ (exists e, anon_read tg name = ProbeReply None e)
        \/ (exists e, anon_read tg name = ProbeReply (Some []) e) ->
        emitted name = None)
  /\ (forall name,
        length (filter (fun v => Vulnerability.table v = name)
                  (ScanResult.vulnerabilities result))
        = if is_exposed (anon_read tg name)
          then length (filter (fun x => x = name) probed) else 0%nat)
  /\ (NoDup (table_name <$> rows) ->
      forall r, r ∈ rows -> flag (table_name r) = rls_enabled r)
  /\ ScanResult.success result = true
  /\ ScanResult.error result = None.
Proof.
  intros Hclient Hquery Hrows result probed flag emitted.
  assert (Hperm : ScanResult.vulnerabilities result ≡ₚ omap emitted probed).
  { subst result. rewrite (scanProject_probing _ _ _ _ Hclient Hquery Hrows).
    cbn [ScanResult.vulnerabilities]. apply findings_perm. }
  split; [done|]. split.
  { intros name row more Hread. subst emitted. unfold finding_of.
    rewrite Hread. cbn [exposed_row]. eexists. split; [done|].
    by repeat split. }
  split.
  { intros name Hread. subst emitted. unfold finding_of.
    destruct Hread as [->|[(data & e & ->)|[(e & ->)|(e & ->)]]];
      [done|by destruct data as [[|row more]|]|done|done]. }
  split.
  { intros name. rewrite Hperm. apply findings_of_table. }
  split.
  { intros Hnd r Hr. subst flag. cbn beta. by rewrite (rls_map_lookup _ _ Hnd Hr). }
  subst result. by rewrite (scanProject_probing _ _ _ _ Hclient Hquery Hrows).
Qed.

Lemma scanTable_findings_witness :
  let result := scanProject demo_target demo_options youngest_first in
  let probed := tables_to_scan demo_options demo_catalog in
  let flag name := default false (rls_map demo_catalog !! name) in
  let emitted :=
    finding_of demo_target (anthropic_client demo_target demo_options)
      (rls_map demo_catalog) in
  ScanResult.vulnerabilities result ≡ₚ omap emitted probed
  /\ (forall name row more,
        anon_read demo_target name = ProbeReply (Some (row :: more)) None ->
        exists v,
          emitted name = Some v
          /\ Vulnerability.table v = name
          /\ Vulnerability.severity v = critical
          /\ Vulnerability.leaked_fields v = Object_keys row
          /\ Vulnerability.sample_data v = row
          /\ Vulnerability.issue v
             = if flag name
               then js "RLS is enabled but policy is too permissive (public access)"
               else js "Anonymous users can read data from this table")
  /\ (forall name,
        anon_read demo_target name = ProbeThrows
        \/ (exists data e, anon_read demo_target name = ProbeReply data (Some e))
        \/ (exists e, anon_read demo_target name = ProbeReply None e)
        \/ (exists e, anon_read demo_target name = ProbeReply (Some []) e) ->
        emitted name = None)
  /\ (forall name,
        length (filter (fun v => Vulnerability.table v = name)
                  (ScanResult.vulnerabilities result))
        = if is_exposed (anon_read demo_target name)
          then length (filter (fun x => x = name) probed) else 0%nat)
  /\ (NoDup (table_name <$> demo_catalog) ->
      forall r, r ∈ demo_catalog -> flag (table_name r) = rls_enabled r)
  /\ ScanResult.success result = true
  /\ ScanResult.error result = None.
Proof.
  apply (scanTable_findings demo_target demo_options youngest_first demo_catalog);
    [reflexivity|reflexivity|discriminate].
Defined.

Example user_secrets_finding :
  finding_of demo_target None (rls_map demo_catalog) (js "user_secrets")
  = Some {| Vulnerability.table := js "user_secrets";
            Vulnerability.issue := js "Anonymous users can read data from this table";
            Vulnerability.severity := critical;
            Vulnerability.details :=
              js "Table " ++ quote ++ js "user_secrets" ++ quote
              ++ js " is publicly accessible without authentication. 2 fields are exposed.";
            Vulnerability.leaked_fields := [js "id"; js "secret_data"];
            Vulnerability.sample_data := demo_secret_row;
            Vulnerability.ai_analysis := None |}.
Proof. vm_compute. reflexivity. Qed.

Example orders_no_finding :
  finding_of demo_target None (rls_map demo_catalog) (js "orders") = None.
Proof. vm_compute. reflexivity. Qed.




Example cap_of_two :
  ScanResult.summary
    (scanProject demo_target {| maxTables := Some 2%Z; enableAI := None |}
       oldest_first)
  = {| total_tables := 2; vulnerable_tables := 1; secure_tables := 1 |}.
Proof. vm_compute. reflexivity. Qed.

Example default_cap :
  ScanResult.summary
    (scanProject
       {| createClient_throws := None; ANTHROPIC_API_KEY := None;
          management_api :=
            QueryResponse true (js "201") (Ok [])
              (Ok (CatalogRows
                     (replicate 12 {| table_name := js "t"; rls_enabled := true |})));
          anon_read := fun _ => ProbeThrows;
          classifier := fun _ _ _ _ => AiThrows;
          JSON_parse := fun _ => None |}
       {| maxTables := None; enableAI := None |} oldest_first)
  = {| total_tables := 10; vulnerable_tables := 0; secure_tables := 10 |}.
Proof. vm_compute. reflexivity. Qed.

Lemma message_or_empty (fallback : jsstring) (e : JsThrown) :
  fallback ≠ [] -> message_or fallback e = [] <-> e = ThrownError [].
Proof.
  intros Hne. destruct e as [[|c m]|]; cbn; split; try done.
Qed.

(** C6 (amended).  Let the clients be set up.  If the catalog query fails
    (the request throws, the response is not OK, its body cannot be read or
    is not JSON, the body is [null], or it is a value the code cannot walk
    through), the scan returns success false, no finding, a summary of zeros
    and an error string: the message of the [Error] thrown, which is empty
    only when that [Error] has an empty message, the fallback text for a
    thrown value that is no [Error], or a text the code or the engine makes
    up, which is never empty.  If the query returns rows, the result has
    success true and no error whatever the reads of the tables do.  If it
    returns no row, or a value that is falsy or has length 0, the result is
    success true with no finding and a summary of zeros. *)
Theorem catalog_outcomes (tg : Target) (options : Options) (sched : nat -> nat) :
  createClient_throws tg = None ->
  let result := scanProject tg options sched in
  let fallback := js "Failed to query database schema via Management API" in
  let aborted message :=
    result = {| ScanResult.success := false;
                ScanResult.vulnerabilities := [];
                ScanResult.summary :=
                  {| total_tables := 0; vulnerable_tables := 0;
                     secure_tables := 0 |};
                ScanResult.error := Some message |} in
  let empty :=
    result = {| ScanResult.success := true;
                ScanResult.vulnerabilities := [];
                ScanResult.summary :=
                  {| total_tables := 0; vulnerable_tables := 0;
                     secure_tables := 0 |};
                ScanResult.error := None |} in
  match management_api tg with
  | QueryThrows e
  | QueryResponse false _ (Err e) _
  | QueryResponse true _ _ (Err e) =>
      aborted (message_or fallback e)
      /\ (message_or fallback e = [] <-> e = ThrownError [])
  | QueryResponse false status (Ok error) _ =>
      aborted (js "Failed to execute query: " ++ status ++ js " " ++ error)
      /\ js "Failed to execute query: " ++ status ++ js " " ++ error ≠ []
  | QueryResponse true _ _ (Ok CatalogNull) =>
      aborted (js "Cannot read properties of null (reading 'length')")
  | QueryResponse true _ _ (Ok CatalogFalsy)
  | QueryResponse true _ _ (Ok (CatalogRows [])) => empty
  | QueryResponse true _ _ (Ok (CatalogRows (_ :: _))) =>
      ScanResult.success result = true /\ ScanResult.error result = None
  | QueryResponse true _ _ (Ok (CatalogObject fields)) =>
      if length_is_zero fields then empty
      else aborted (js "result.forEach is not a function")
  | QueryResponse true _ _ (Ok CatalogOther) =>
      aborted (js "result.forEach is not a function")
  end.
Proof.
  intros Hclient result fallback aborted empty.
  subst aborted empty result. unfold scanProject, executeQuery.
  rewrite Hclient.
  destruct (management_api tg)
    as [e|[] status [error|e] [[| |[|row rows]|fields|]|e']];
    try done;
    try (split; [done|]; by apply message_or_empty).
  all: by destruct (length_is_zero fields).
Qed.

Lemma catalog_outcomes_witness :
  (scanProject unreachable_target demo_options oldest_first
   = {| ScanResult.success := false;
        ScanResult.vulnerabilities := [];
        ScanResult.summary :=
          {| total_tables := 0; vulnerable_tables := 0; secure_tables := 0 |};
        ScanResult.error :=
          Some (message_or
                  (js "Failed to query database schema via Management API")
                  (ThrownError (js "fetch failed"))) |}
   /\ (message_or (js "Failed to query database schema via Management API")
         (ThrownError (js "fetch failed")) = []
       <-> ThrownError (js "fetch failed") = ThrownError []))
  /\ (ScanResult.success (scanProject demo_target demo_options oldest_first) = true
      /\ ScanResult.error (scanProject demo_target demo_options oldest_first) = None)
  /\ scanProject odd_target demo_options oldest_first
     = {| ScanResult.success := true;
          ScanResult.vulnerabilities := [];
          ScanResult.summary :=
            {| total_tables := 0; vulnerable_tables := 0; secure_tables := 0 |};
          ScanResult.error := None |}.
Proof.
  split; [|split].
  - exact (catalog_outcomes unreachable_target demo_options oldest_first eq_refl).
  - exact (catalog_outcomes demo_target demo_options oldest_first eq_refl).
  - exact (catalog_outcomes odd_target demo_options oldest_first eq_refl).
Defined.

(** C6, as stated, fails on the error string: when the catalog query fails
    with an [Error] that carries no message, the error string of the result
    is that message, the empty string. *)
Lemma failed_catalog_query_without_message :
  let result := scanProject silent_target demo_options oldest_first in
  createClient_throws silent_target = None
  /\ management_api silent_target = QueryThrows (ThrownError [])
  /\ ScanResult.success result = false
  /\ ScanResult.error result = Some [].
Proof. vm_compute. repeat split; reflexivity. Qed.

Example unreachable_catalog :
  scanProject unreachable_target demo_options oldest_first
  = failed (js "fetch failed").
Proof. vm_compute. reflexivity. Qed.

Example rejected_catalog_query :
  scanProject
    {| createClient_throws := None; ANTHROPIC_API_KEY := None;
       management_api :=
         QueryResponse false (js "403") (Ok (js "forbidden")) (Ok CatalogNull);
       anon_read := fun _ => ProbeThrows;
       classifier := fun _ _ _ _ => AiThrows;
       JSON_parse := fun _ => None |} demo_options oldest_first
  = failed (js "Failed to execute query: 403 forbidden").
Proof. vm_compute. reflexivity. Qed.

Example catalog_with_length_zero :
  scanProject odd_target demo_options oldest_first = no_tables.
Proof. vm_compute. reflexivity. Qed.

Example every_probe_throws :
  scanProject
    {| createClient_throws := None; ANTHROPIC_API_KEY := None;
       management_api := management_api demo_target;
       anon_read := fun _ => ProbeThrows;
       classifier := fun _ _ _ _ => AiThrows;
       JSON_parse := fun _ => None |} demo_options oldest_first
  = {| ScanResult.success := true;
       ScanResult.vulnerabilities := [];
       ScanResult.summary :=
         {| total_tables := 3; vulnerable_tables := 0; secure_tables := 3 |};
       ScanResult.error := None |}.
Proof. vm_compute. reflexivity. Qed.

(** C7, as stated, fails: the findings stand in the order in which the calls
    of one group push them.  The catalog lists [profiles] before
    [user_secrets]; when the call for [user_secrets] comes to its push
    first, its finding comes first. *)
Lemma findings_follow_completion_order :
  executeQuery demo_target = Ok (CatalogRows demo_catalog)
  /\ table_name <$> demo_catalog
     = [js "orders"; js "profiles"; js "user_secrets"]
  /\ Vulnerability.table <$>
       ScanResult.vulnerabilities
         (scanProject demo_target demo_options youngest_first)
     = [js "user_secrets"; js "profiles"]
  /\ Vulnerability.table <$>
       ScanResult.vulnerabilities
         (scanProject demo_target demo_options oldest_first)
     = [js "profiles"; js "user_secrets"].
Proof. vm_compute. repeat split; reflexivity. Qed.

Lemma finding_of_without_ai (tg : Target) (anthropic : option Anthropic)
    (tableRlsStatus : gmap jsstring bool) (name : jsstring) :
  without_ai <$> finding_of tg anthropic tableRlsStatus name
  = finding_of tg None tableRlsStatus name.
Proof. unfold finding_of. by destruct (exposed_row _). Qed.

Lemma omap_without_ai (tg : Target) (anthropic : option Anthropic)
    (tableRlsStatus : gmap jsstring bool) (l : list jsstring) :
  without_ai <$> omap (finding_of tg anthropic tableRlsStatus) l
  = omap (finding_of tg None tableRlsStatus) l.
Proof.
  induction l as [|x l IH]; [done|]. cbn [omap list_omap].
  rewrite <- (finding_of_without_ai tg anthropic).
  destruct (finding_of tg anthropic tableRlsStatus x); cbn; by rewrite IH.
Qed.

(** C7 (amended).  Take two runs of the scan against an unchanged target
    (the same catalog, the same reads), under any two orders in which the
    promises settle and any two classifier set-ups.  They return the same
    summary, the same success flag and error, and the same findings up to
    their order and their AI annotation.  The list a run returns holds the
    findings group after group, in the order of the catalog across the
    groups of five tables; within one group the findings stand in the order
    in which the calls for the tables of that group have come to their push,
    which the catalog does not determine. *)
Theorem findings_group_order (tg : Target) (options : Options)
    (sched sched' : nat -> nat) (key : option jsstring) (client : Anthropic)
    (parse : jsstring -> option Json) :
  let r := scanProject tg options sched in
  let r' := scanProject (with_classifier tg key client parse) options sched' in
  ScanResult.summary r = ScanResult.summary r'
  /\ ScanResult.success r = ScanResult.success r'
  /\ ScanResult.error r = ScanResult.error r'
  /\ without_ai <$> ScanResult.vulnerabilities r
     ≡ₚ without_ai <$> ScanResult.vulnerabilities r'
  /\ (forall rows,
        createClient_throws tg = None ->
        executeQuery tg = Ok (CatalogRows rows) ->
        let tables := tables_to_scan options rows in
        let anthropic := anthropic_client tg options in
        let lp := probe_all tg anthropic (rls_map rows) tables sched in
        (exists ls,
           ScanResult.vulnerabilities r = concat ls
           /\ Forall2 (≡ₚ) ls
                (group_findings tg anthropic (rls_map rows) tables
                   <$> seq 0 (group_count tables)))
        /\ Some <$> ScanResult.vulnerabilities r
           = finding_at tg anthropic (rls_map rows) tables <$> pushes (history lp)
        /\ StronglySorted group_le (pushes (history lp))).
Proof.
  intros r r'. subst r r'. unfold scanProject.
  change (createClient_throws (with_classifier tg key client parse))
    with (createClient_throws tg).
  change (executeQuery (with_classifier tg key client parse))
    with (executeQuery tg).
  destruct (createClient_throws tg) as [e|];
    [repeat split; try reflexivity; intros; congruence|].
  destruct (executeQuery tg) as [[| |rows|fields|]|e];
    try (repeat split; try reflexivity; intros; congruence).
  destruct rows as [|row rows].
  { split_and!; try reflexivity. intros rows _ [= <-]. cbn zeta.
    assert (Hnone : tables_to_scan options [] = []).
    { unfold tables_to_scan, slice. cbn [fmap list_fmap].
      by rewrite drop_nil, take_nil. }
    rewrite Hnone. split_and!; [|reflexivity|constructor].
    exists []. split; [done|]. constructor. }
  cbn [ScanResult.summary ScanResult.success ScanResult.error
       ScanResult.vulnerabilities].
  set (tables := tables_to_scan options (row :: rows)).
  set (rls := rls_map (row :: rows)).
  assert (Hperm :
    without_ai <$> found (probe_all tg (anthropic_client tg options) rls tables sched)
    ≡ₚ without_ai <$>
         found (probe_all (with_classifier tg key client parse)
                  (anthropic_client (with_classifier tg key client parse) options)
                  rls tables sched')).
  { rewrite !findings_perm, !omap_without_ai. reflexivity. }
  split.
  { apply Permutation_length in Hperm. rewrite !length_fmap in Hperm.
    by rewrite Hperm. }
  split; [done|]. split; [done|]. split; [done|].
  intros rows' _ [= <-]. cbn zeta. fold tables rls.
  destruct (reachable_pushes tg (anthropic_client tg options) rls tables _
              (probe_all_reachable tg (anthropic_client tg options) rls tables sched))
    as (Hfound & Hsorted & _).
  split; [apply findings_at_end|]. by split.
Qed.

(** ** Groups *)

Section Groups.
Context (tg : Target) (anthropic : option Anthropic).
Context (tableRlsStatus : gmap jsstring bool) (tablesToScan : list jsstring).

Local Abbreviation Step := (step tg anthropic tableRlsStatus tablesToScan).
Local Abbreviation Advance := (scanTable_resume tg anthropic tableRlsStatus).
Local Abbreviation Reachable := (reachable tg anthropic tableRlsStatus tablesToScan).
Local Abbreviation Group := (group tablesToScan).

Lemma started_tables {A} (f : nat -> A -> Task) (g : A -> jsstring) (l : list A) :
  (forall k x, task_table (f k x) = g x) -> task_table <$> imap f l = g <$> l.
Proof.
  revert f. induction l as [|x l IH]; intros f Hf; [done|].
  cbn [imap fmap list_fmap]. rewrite Hf. f_equal. apply IH. intros. apply Hf.
Qed.

Lemma resumed_table (t : Task) :
  task_table <$> option_list (Advance t).1.1 `sublist_of` [task_table t].
Proof.
  unfold scanTable_resume. destruct (task_stage t).
  - destruct (exposed_row _); cbn; [done|]. apply sublist_nil_l.
  - cbn. apply sublist_nil_l.
Qed.

(** The calls in flight are calls for tables of one group, the one the loop
    variable points to. *)
Lemma reachable_group (lp : Loop) :
  Reachable lp ->
  task_table <$> in_flight lp `sublist_of` Group (loop_i lp / CONCURRENCY_LIMIT).
Proof.
  induction 1 as [|lp c lp' Hlp IH Hstep]; [apply sublist_nil_l|].
  destruct (reachable_shape _ _ _ _ _ Hlp) as (Hmod & _).
  destruct (step_cases _ _ _ _ _ _ _ Hstep) as [(Hfl & Hi & ->)|(k & t & Hk & ->)].
  - unfold start_chunk. cbn [loop_i in_flight].
    rewrite (started_tables _ (fun x => x)) by done. rewrite list_fmap_id.
    unfold group, CONCURRENCY_LIMIT in *.
    by replace (5 * (loop_i lp / 5))%nat with (loop_i lp) by nat_div.
  - rewrite (resume_unfold _ _ _ _ _ _ Hk). cbn zeta.
    destruct (take k (in_flight lp) ++ _ ++ _) as [|t1 rest] eqn:Hrest;
      cbn [loop_i in_flight]; [apply sublist_nil_l|].
    rewrite <- Hrest. etrans; [|exact IH].
    rewrite <- (take_drop_middle _ _ _ Hk) at 3.
    rewrite !fmap_app. apply sublist_app; [done|].
    change (t :: drop (S k) (in_flight lp))
      with ([t] ++ drop (S k) (in_flight lp)).
    rewrite fmap_app. apply sublist_app; [apply resumed_table|done].
Qed.

Lemma group_length (g : nat) : (length (Group g) <= CONCURRENCY_LIMIT)%nat.
Proof. unfold group. rewrite length_take. lia. Qed.

End Groups.

(** C9.  Take any order in which the event loop settles the promises and any
    number of turns of the probing loop.  In the state reached, at most 5
    calls of [scanTable] are in flight, all of them for tables of one group;
    the reads sent and not yet settled number what the calls awaiting their
    read number, hence at most 5; and what happened so far is in group
    order: when a read was sent, the catalog query was over and every read of
    every earlier group had settled.  The groups are the consecutive slices
    of at most 5 tables of the tables to scan. *)
Theorem probes_run_in_groups (tg : Target) (anthropic : option Anthropic)
    (tableRlsStatus : gmap jsstring bool) (tablesToScan : list jsstring)
    (sched : nat -> nat) (turns : nat) :
  let lp := run tg anthropic tableRlsStatus tablesToScan turns sched 0 loop_start in
  (length (in_flight lp) <= CONCURRENCY_LIMIT)%nat
  /\ task_table <$> in_flight lp
     `sublist_of` group tablesToScan (loop_i lp / CONCURRENCY_LIMIT)
  /\ reads_in_flight (history lp)
     = Z.of_nat (length (filter (fun t => awaiting_read t = true) (in_flight lp)))
  /\ (0 <= reads_in_flight (history lp) <= 5)%Z
  /\ CatalogDone ∈ history lp
  /\ in_group_order (history lp)
  /\ (forall g, (length (group tablesToScan g) <= CONCURRENCY_LIMIT)%nat)
  /\ concat (group tablesToScan <$> seq 0 (group_count tablesToScan))
     = tablesToScan.
Proof.
  intros lp.
  assert (Hlp : reachable tg anthropic tableRlsStatus tablesToScan lp)
    by apply run_reachable, reachable_start.
  destruct (reachable_shape _ _ _ _ _ Hlp) as (_ & Hlen & _).
  destruct (reachable_history _ _ _ _ _ Hlp) as (Hcat & Hord & _ & _ & Hcount).
  split; [done|]. split; [exact (reachable_group _ _ _ _ _ Hlp)|].
  split; [done|].
  split.
  { rewrite Hcount.
    pose proof (length_filter (fun t => awaiting_read t = true) (in_flight lp)).
    unfold CONCURRENCY_LIMIT in *. lia. }
  split; [done|]. split; [done|].
  split; [apply group_length|apply groups_cover].
Qed.

Example twelve_tables :
  let lp := run demo_target None ∅ (replicate 12 (js "profiles")) 12
              youngest_first 0 loop_start in
  loop_i lp = 5%nat
  /\ task_index <$> in_flight lp = [5; 6; 7; 8; 9]%nat
  /\ reads_in_flight (history lp) = 5%Z
  /\ length (found lp) = 5%nat.
Proof. vm_compute. repeat split; reflexivity. Qed.

(** ** The classifier *)

Section Classifier.
Context (tg tg' : Target) (anthropic anthropic' : option Anthropic).
Context (tableRlsStatus : gmap jsstring bool) (tablesToScan : list jsstring).
Hypothesis Hread : anon_read tg = anon_read tg'.

Lemma resume_same_but_ai (k : nat) (lp lp' : Loop) :
  same_but_ai lp lp' ->
  same_but_ai (resume tg anthropic tableRlsStatus k lp)
              (resume tg' anthropic' tableRlsStatus k lp').
Proof using Hread.
  intros (Hi & Hfl & Hh & Hf). unfold resume. rewrite <- Hfl, <- Hi, <- Hh.
  destruct (in_flight lp !! k) as [t|]; [|done].
  unfold scanTable_resume. rewrite <- Hread.
  destruct (task_stage t) as [|fields row flag].
  - destruct (exposed_row _); (split; [done|]); (split; [done|]);
      (split; [done|]); cbn [found]; by rewrite !app_nil_r.
  - split; [done|]. split; [done|]. split; [done|].
    cbn [found]. rewrite !fmap_app. by rewrite Hf.
Qed.

Lemma step_same_but_ai (c : nat) (lp lp' : Loop) :
  same_but_ai lp lp' ->
  match step tg anthropic tableRlsStatus tablesToScan c lp,
        step tg' anthropic' tableRlsStatus tablesToScan c lp' with
  | Some x, Some x' => same_but_ai x x'
  | None, None => True
  | _, _ => False
  end.
Proof using Hread.
  intros Hsim. pose proof Hsim as (Hi & Hfl & Hh & Hf).
  unfold step. rewrite <- Hfl, <- Hi.
  destruct (in_flight lp) as [|t fl] eqn:Hlp.
  - destruct (loop_i lp <? length tablesToScan)%nat; [|done].
    unfold start_chunk, same_but_ai. cbn [loop_i in_flight history found].
    by rewrite <- Hi, <- Hh, Hf.
  - rewrite <- Hlp. by apply resume_same_but_ai.
Qed.

Lemma run_same_but_ai (fuel : nat) (sched : nat -> nat) (t : nat) (lp lp' : Loop) :
  same_but_ai lp lp' ->
  same_but_ai (run tg anthropic tableRlsStatus tablesToScan fuel sched t lp)
              (run tg' anthropic' tableRlsStatus tablesToScan fuel sched t lp').
Proof using Hread.
  revert t lp lp'. induction fuel as [|fuel IH]; intros t lp lp' Hsim; [done|].
  cbn [run]. pose proof (step_same_but_ai (sched t) lp lp' Hsim) as Hstep.
  destruct (step tg _ _ _ _ lp), (step tg' _ _ _ _ lp'); try done.
  by apply IH.
Qed.

Lemma probe_all_same_but_ai (sched : nat -> nat) :
  without_ai <$> found (probe_all tg anthropic tableRlsStatus tablesToScan sched)
  = without_ai <$> found (probe_all tg' anthropic' tableRlsStatus tablesToScan sched).
Proof using Hread.
  unfold probe_all. by apply run_same_but_ai.
Qed.

End Classifier.

Lemma found_without_ai (tg : Target) (tableRlsStatus : gmap jsstring bool)
    (tablesToScan : list jsstring) (sched : nat -> nat) :
  Forall (fun v => Vulnerability.ai_analysis v = None)
    (found (probe_all tg None tableRlsStatus tablesToScan sched)).
Proof.
  rewrite findings_perm. apply Forall_forall. intros v Hv.
  apply list_elem_of_omap in Hv as (name & _ & Hv).
  unfold finding_of in Hv. destruct (exposed_row _); [|done].
  by injection Hv as <-.
Qed.

Lemma without_ai_id (l : list Vulnerability.t) :
  Forall (fun v => Vulnerability.ai_analysis v = None) l -> without_ai <$> l = l.
Proof.
  induction 1 as [|v l Hv _ IH]; [done|]. cbn. rewrite IH. f_equal.
  destruct v. cbn in *. by subst.
Qed.

Lemma anthropic_client_unconfigured (tg : Target) (options : Options) :
  ANTHROPIC_API_KEY tg = None \/ ANTHROPIC_API_KEY tg = Some []
  \/ enableAI options = Some false ->
  anthropic_client tg options = None.
Proof.
  unfold anthropic_client. intros [-> | [-> | ->]]; cbn.
  - by destruct (default true _).
  - by destruct (default true _).
  - done.
Qed.

(** C10.  (1) [analyzeWithAI] gives no annotation when no client is
    configured, when the request throws, and when the reply holds no text
    from which a JSON payload parses.  (2) Whatever the classifier does, a
    table yields a finding or not as it does with no classifier, and the
    finding is the same but for its annotation; a finding left without
    annotation is the finding of a scan with no classifier.  (3) Exchanging
    the classifier set-up (key, client, parser) of a target changes neither
    the success flag, the summary, the error, nor the findings but for their
    annotations.  (4) With the classifier unconfigured (no key, an empty key,
    or AI switched off) no finding carries an annotation, and the scan has
    success true whenever the catalog query returned rows or none. *)
Theorem classifier_degrades_gracefully (tg : Target) (options : Options)
    (sched : nat -> nat) (key : option jsstring) (client : Anthropic)
    (parse : jsstring -> option Json) :
  let result := scanProject tg options sched in
  let result' := scanProject (with_classifier tg key client parse) options sched in
  (forall anthropic name fields row flag,
     anthropic = None
     \/ (exists c, anthropic = Some c /\ c name fields row flag = AiThrows)
     \/ (exists c content,
           anthropic = Some c /\ c name fields row flag = AiMessage content
           /\ match content with
              | TextBlock text :: _ =>
                  match match_braces text with
                  | Some jsonMatch => JSON_parse tg jsonMatch = None
                  | None => True
                  end
              | _ => True
              end) ->
     analyzeWithAI tg anthropic name fields row flag = None)
  /\ (forall anthropic rls name,
        without_ai <$> finding_of tg anthropic rls name = finding_of tg None rls name
        /\ (forall v, finding_of tg anthropic rls name = Some v ->
                      Vulnerability.severity v = critical
                      /\ (Vulnerability.ai_analysis v = None ->
                          finding_of tg None rls name = Some v)))
  /\ without_ai <$> ScanResult.vulnerabilities result
     = without_ai <$> ScanResult.vulnerabilities result'
  /\ ScanResult.success result = ScanResult.success result'
  /\ ScanResult.summary result = ScanResult.summary result'
  /\ ScanResult.error result = ScanResult.error result'
  /\ (ANTHROPIC_API_KEY tg = None \/ ANTHROPIC_API_KEY tg = Some []
      \/ enableAI options = Some false ->
      anthropic_client tg options = None
      /\ Forall (fun v => Vulnerability.ai_analysis v = None)
           (ScanResult.vulnerabilities result)
      /\ (createClient_throws tg = None ->
          forall rows, executeQuery tg = Ok (CatalogRows rows) ->
                       ScanResult.success result = true)).
Proof.
  intros result result'. split; [|split].
  - intros anthropic name fields row flag
      [-> | [(c & -> & Hc) | (c & content & -> & Hc & Hcontent)]];
      [done|unfold analyzeWithAI; by rewrite Hc|].
    unfold analyzeWithAI. rewrite Hc.
    destruct content as [|[text|] content]; [done| |done].
    by destruct (match_braces text).
  - intros anthropic rls name. split; [apply finding_of_without_ai|].
    intros v Hv. split.
    + unfold finding_of in Hv. destruct (exposed_row _); [|done].
      by injection Hv as <-.
    + intros Hai. rewrite <- (finding_of_without_ai tg anthropic), Hv.
      cbn. f_equal.
      destruct v. cbn in *. by subst.
  - assert (Hsame :
      without_ai <$> ScanResult.vulnerabilities result
      = without_ai <$> ScanResult.vulnerabilities result'
      /\ ScanResult.success result = ScanResult.success result'
      /\ ScanResult.summary result = ScanResult.summary result'
      /\ ScanResult.error result = ScanResult.error result').
    { subst result result'. unfold scanProject.
      change (createClient_throws (with_classifier tg key client parse))
        with (createClient_throws tg).
      change (executeQuery (with_classifier tg key client parse))
        with (executeQuery tg).
      destruct (createClient_throws tg); [done|].
      destruct (executeQuery tg) as [[| |rows|fields|]|e]; try done.
      destruct rows as [|row rows]; [done|].
      cbn [ScanResult.vulnerabilities ScanResult.success ScanResult.summary
           ScanResult.error].
      pose proof (probe_all_same_but_ai tg (with_classifier tg key client parse)
                    (anthropic_client tg options)
                    (anthropic_client (with_classifier tg key client parse) options)
                    (rls_map (row :: rows)) (tables_to_scan options (row :: rows))
                    eq_refl sched) as Hfound.
      split; [done|]. split; [done|]. split; [|done].
      apply (f_equal length) in Hfound. rewrite !length_fmap in Hfound.
      by rewrite Hfound. }
    destruct Hsame as (H1 & H2 & H3 & H4). repeat (split; [done|]).
    intros Hoff. pose proof (anthropic_client_unconfigured _ _ Hoff) as Hnone.
    split; [done|]. subst result. unfold scanProject. rewrite Hnone. split.
    + destruct (createClient_throws tg); [by constructor|].
      destruct (executeQuery tg) as [[| |rows|fields|]|e]; try by constructor.
      2:{ destruct (length_is_zero fields); by constructor. }
      destruct rows as [|row rows]; [by constructor|].
      apply found_without_ai.
    + intros -> rows ->. by destruct rows.
Qed.

Example classifier_replies_with_payload :
  analyzeWithAI
    {| createClient_throws := None; ANTHROPIC_API_KEY := Some (js "sk-key");
       management_api := management_api demo_target;
       anon_read := anon_read demo_target;
       classifier := fun _ _ _ _ => AiThrows;
       JSON_parse := fun s =>
         if same_string s (js "{ } trailing }") then Some (JObject []) else None |}
    (Some (fun _ _ _ _ => AiMessage [TextBlock (js "Here: { } trailing } done")]))
    (js "profiles") [] [] true
  = Some (JObject []).
Proof. vm_compute. reflexivity. Qed.

Example classifier_replies_without_braces :
  analyzeWithAI demo_target
    (Some (fun _ _ _ _ => AiMessage [TextBlock (js "no payload } here {")]))
    (js "profiles") [] [] true
  = None.
Proof. vm_compute. reflexivity. Qed.

(** * Further properties *)

(** ** The vault: arguments, key settings, start-up check *)

Lemma hex_decode_length_le (s : jsstring) :
  (length (Hex.decode s) <= length s / 2)%nat.
Proof.
  remember (length s) as n eqn:Hlen.
  revert s Hlen. induction (lt_wf n) as [n _ IH]. intros s ->.
  destruct s as [|a [|b rest]]; [cbn; lia..|].
  cbn [Hex.decode length].
  change (S (S (length rest))) with (1 * 2 + length rest)%nat.
  rewrite Nat.add_comm, Nat.div_add by lia.
  destruct (Hex.value a), (Hex.value b); cbn [length]; try lia.
  specialize (IH (length rest) ltac:(cbn; lia) rest eq_refl). lia.
Qed.

(** A string of even length that decodes to half as many bytes consists of
    hexadecimal digits. *)
Lemma hex_decode_full (s : jsstring) :
  Nat.even (length s) = true ->
  length (Hex.decode s) = (length s / 2)%nat ->
  Forall (fun c => is_Some (Hex.value c)) s.
Proof.
  remember (length s) as n eqn:Hlen.
  revert s Hlen. induction (lt_wf n) as [n _ IH]. intros s -> Heven.
  destruct s as [|a [|b rest]]; [constructor|done|].
  cbn [Hex.decode length].
  change (S (S (length rest))) with (1 * 2 + length rest)%nat.
  rewrite Nat.add_comm, Nat.div_add by lia.
  destruct (Hex.value a) as [x|] eqn:Ha; [|cbn; lia].
  destruct (Hex.value b) as [y|] eqn:Hb; [|cbn; lia].
  cbn [length]. intros Hdec.
  repeat (constructor; [by eexists|]).
  apply (IH (length rest)); [cbn; lia|done|done|lia].
Qed.

Lemma well_formed_key_false (key : jsstring) :
  length key = 64%nat -> well_formed_key (Some key) = false ->
  length (Hex.decode key) ≠ 32%nat.
Proof.
  intros Hlen Hwf Hdec.
  assert (Hall : Forall (fun c => is_Some (Hex.value c)) key).
  { apply hex_decode_full; [by rewrite Hlen|by rewrite Hlen]. }
  cbn in Hwf. rewrite Hlen in Hwf. cbn in Hwf.
  apply not_true_iff_false in Hwf. apply Hwf.
  apply forallb_forall. intros c Hc%list_elem_of_In.
  apply bool_decide_eq_true. by eapply Forall_forall in Hall.
Qed.

Lemma well_formed_key_inv (env_key : option jsstring) :
  well_formed_key env_key = true ->
  exists key, env_key = Some key /\ length key = 64%nat
              /\ getEncryptionKey env_key = Ok (Hex.decode key)
              /\ length (Hex.decode key) = 32%nat.
Proof.
  intros Hwf. destruct (getEncryptionKey_well_formed _ Hwf) as (k & Hk & Hlen).
  destruct env_key as [key|]; [|done]. exists key.
  cbn in Hwf. apply andb_true_iff in Hwf as [Hl%Nat.eqb_eq _].
  assert (getEncryptionKey (Some key) = Ok (Hex.decode key)) as Hget.
  { unfold getEncryptionKey. destruct key as [|c key]; [done|].
    rewrite bool_decide_eq_false_2; [done|]. intros Hne. by apply Hne. }
  rewrite Hget in Hk. injection Hk as <-. done.
Qed.

Lemma getEncryptionKey_wrong_length (key : jsstring) :
  key ≠ [] -> length key ≠ 64%nat -> getEncryptionKey (Some key) = Err KeyWrongLength.
Proof.
  intros Hne Hlen. unfold getEncryptionKey. destruct key as [|c key]; [done|].
  by rewrite bool_decide_eq_true_2.
Qed.

Lemma getEncryptionKey_length (key : jsstring) :
  length key = 64%nat -> getEncryptionKey (Some key) = Ok (Hex.decode key).
Proof.
  intros Hlen. unfold getEncryptionKey. destruct key as [|c key]; [done|].
  rewrite bool_decide_eq_false_2; [done|]. intros Hne. by apply Hne.
Qed.

Lemma createCipheriv_short_key (key iv : Buffer) :
  length key ≠ 32%nat -> createCipheriv key iv = Err InvalidKeyLength.
Proof. intros Hlen. unfold createCipheriv. by rewrite bool_decide_eq_true_2. Qed.

(** What [encrypt] needs to return at all. *)
Lemma encrypt_ok_inv `{G : AesGcm} (env_key : option jsstring) (iv : Buffer)
    (s blob : jsstring) :
  encrypt env_key iv s = Ok blob ->
  s ≠ [] /\ exists key, getEncryptionKey env_key = Ok key /\ length key = 32%nat.
Proof.
  unfold encrypt. destruct s as [|u s]; [done|]. intros Henc. split; [done|].
  destruct (getEncryptionKey env_key) as [key|e]; [|done].
  exists key. split; [done|]. cbn [mbind result_bind] in Henc.
  unfold createCipheriv in Henc. case_bool_decide as Hlen; [done|].
  destruct (decide (length key = 32%nat)); [done|]. by destruct Hlen.
Qed.

Lemma well_formed_key_of_bytes (env_key : option jsstring) (key : Buffer) :
  getEncryptionKey env_key = Ok key -> length key = 32%nat ->
  well_formed_key env_key = true.
Proof.
  intros Hget Hlen. destruct env_key as [k|]; [|done].
  destruct (well_formed_key (Some k)) eqn:Hwf; [done|].
  unfold getEncryptionKey in Hget. destruct k as [|c k]; [done|].
  case_bool_decide as Hl; [done|]. injection Hget as <-.
  assert (length (c :: k) = 64%nat) as H64 by exact Hl.
  by destruct (well_formed_key_false _ H64 Hwf).
Qed.

(** X1.  [encrypt] and [decrypt] look at their argument first and at the key
    setting second: an empty argument is refused whatever the key; with an
    argument, a missing or empty key setting is the key-required error, a
    setting of another length than 64 the wrong-length error, and a setting
    of 64 characters that Node's hex decoder does not read as 64 digits
    passes the repository's check and is refused by the cipher (invalid key
    length).  [encrypt] returns a blob exactly when the plaintext is not
    empty and the key setting is 64 characters that the decoder reads as
    hexadecimal digits; the decoder looks at the low byte of each character
    only ([well_formed_key]). *)
Theorem vault_argument_and_key_errors `{G : AesGcm} (env_key : option jsstring)
    (iv : Buffer) (s blob : jsstring) :
  length iv = IV_LENGTH -> s ≠ [] -> Base64.decode blob ≠ [] ->
  encrypt env_key iv [] = Err CannotEncryptEmpty
  /\ decrypt env_key [] = Err CannotDecryptEmpty
  /\ (env_key = None \/ env_key = Some [] ->
      encrypt env_key iv s = Err KeyRequired
      /\ decrypt env_key blob = Err KeyRequired)
  /\ (forall key, env_key = Some key -> key ≠ [] -> length key ≠ 64%nat ->
      encrypt env_key iv s = Err KeyWrongLength
      /\ decrypt env_key blob = Err KeyWrongLength)
  /\ (forall key, env_key = Some key -> length key = 64%nat ->
      well_formed_key env_key = false ->
      encrypt env_key iv s = Err InvalidKeyLength
      /\ decrypt env_key blob = Err InvalidKeyLength)
  /\ (forall key, env_key = Some key -> well_formed_key env_key = true ->
      encrypt env_key iv s = Ok (Base64.encode (sealed (Hex.decode key) iv s)))
  /\ ((exists b, encrypt env_key iv s = Ok b) <-> well_formed_key env_key = true).
Proof.
  intros Hiv Hs Hblob.
  assert (Hb : blob ≠ []) by (by intros ->).
  split; [done|]. split; [done|]. split.
  { intros [-> | ->]; unfold encrypt, decrypt;
      destruct s; try done; by destruct blob. }
  split.
  { intros key -> Hne Hlen. unfold encrypt, decrypt.
    rewrite (getEncryptionKey_wrong_length _ Hne Hlen).
    destruct s; [done|]. by destruct blob. }
  split.
  { intros key -> Hlen Hwf. unfold encrypt, decrypt, createDecipheriv.
    rewrite (getEncryptionKey_length _ Hlen). cbn [mbind result_bind].
    rewrite !createCipheriv_short_key by (by apply well_formed_key_false).
    destruct s; [done|]. by destruct blob. }
  split.
  { intros key -> Hwf.
    destruct (well_formed_key_inv _ Hwf) as (k & [= <-] & _ & Hget & Hlen).
    by apply encrypt_sealed. }
  split.
  - intros [b Hb']. apply encrypt_ok_inv in Hb' as (_ & key & Hget & Hlen).
    by eapply well_formed_key_of_bytes.
  - intros Hwf.
    destruct (well_formed_key_inv _ Hwf) as (k & -> & _ & Hget & Hlen).
    eexists. by apply encrypt_sealed.
Qed.

Lemma vault_argument_and_key_errors_witness :
  encrypt (H:=toy_gcm) demo_bad_key demo_iv [] = Err CannotEncryptEmpty
  /\ decrypt (H:=toy_gcm) demo_bad_key [] = Err CannotDecryptEmpty
  /\ (demo_bad_key = None \/ demo_bad_key = Some [] ->
      encrypt (H:=toy_gcm) demo_bad_key demo_iv (js "sbp_oauth_4f2a") = Err KeyRequired
      /\ decrypt (H:=toy_gcm) demo_bad_key (js "AAAA") = Err KeyRequired)
  /\ (forall key, demo_bad_key = Some key -> key ≠ [] -> length key ≠ 64%nat ->
      encrypt (H:=toy_gcm) demo_bad_key demo_iv (js "sbp_oauth_4f2a")
        = Err KeyWrongLength
      /\ decrypt (H:=toy_gcm) demo_bad_key (js "AAAA") = Err KeyWrongLength)
  /\ (forall key, demo_bad_key = Some key -> length key = 64%nat ->
      well_formed_key demo_bad_key = false ->
      encrypt (H:=toy_gcm) demo_bad_key demo_iv (js "sbp_oauth_4f2a")
        = Err InvalidKeyLength
      /\ decrypt (H:=toy_gcm) demo_bad_key (js "AAAA") = Err InvalidKeyLength)
  /\ (forall key, demo_bad_key = Some key -> well_formed_key demo_bad_key = true ->
      encrypt (H:=toy_gcm) demo_bad_key demo_iv (js "sbp_oauth_4f2a")
        = Ok (Base64.encode
                (sealed (H:=toy_gcm) (Hex.decode key) demo_iv (js "sbp_oauth_4f2a"))))
  /\ ((exists b, encrypt (H:=toy_gcm) demo_bad_key demo_iv (js "sbp_oauth_4f2a") = Ok b)
      <-> well_formed_key demo_bad_key = true).
Proof.
  apply (vault_argument_and_key_errors (G:=toy_gcm) demo_bad_key demo_iv
           (js "sbp_oauth_4f2a") (js "AAAA")); [reflexivity|discriminate|discriminate].
Defined.

Example key_of_64_letters_is_refused_by_the_cipher :
  getEncryptionKey demo_bad_key
    = Ok (Hex.decode (js "000102030405060708090a0b0c0d0e0f101112131415161718191a1b1c1d1e"))
  /\ encrypt (H:=toy_gcm) demo_bad_key demo_iv (js "sbp_oauth_4f2a")
     = Err InvalidKeyLength.
Proof. vm_compute. split; reflexivity. Qed.

(** The decoder reads U+0130 as the digit 0: a key setting that starts with
    it is the sample key. *)
Example key_with_a_wide_digit :
  let key := Some (0x130 :: drop 1 (default [] demo_key)) in
  well_formed_key key = true
  /\ getEncryptionKey key = getEncryptionKey demo_key
  /\ encrypt (H:=toy_gcm) key demo_iv (js "sbp_oauth_4f2a")
     = encrypt (H:=toy_gcm) demo_key demo_iv (js "sbp_oauth_4f2a")
  /\ exists blob, encrypt (H:=toy_gcm) key demo_iv (js "sbp_oauth_4f2a") = Ok blob.
Proof. vm_compute. split_and!; try reflexivity. by eexists. Qed.

(** Text without surrogates passes through the UTF-8 codec unchanged. *)
Lemma well_formed_below_surrogates (s : jsstring) :
  Forall (fun u => u < 0xD800) s -> Utf8.well_formed s = true.
Proof.
  induction 1 as [|u s Hu _ IH]; [done|]. cbn [Utf8.well_formed].
  unfold Utf8.is_high, Utf8.is_low.
  replace (0xD800 <=? u) with false by (symmetry; apply N.leb_gt; lia).
  replace (0xDC00 <=? u) with false by (symmetry; apply N.leb_gt; lia).
  cbn [andb negb]. rewrite IH, andb_true_r. apply N.ltb_lt. lia.
Qed.

Lemma js_below_surrogates (s : string) : Forall (fun u => u < 0xD800) (js s).
Proof.
  unfold js. apply Forall_fmap, Forall_forall. intros a _. cbn.
  pose proof (N_ascii_bounded a). lia.
Qed.

(** X2.  [validateEncryptionKey] succeeds exactly when the key setting is 64
    characters that Node's hex decoder reads as hexadecimal digits, by the
    low byte of each character ([well_formed_key]).  It never fails with its
    own does-not-match error:
    when [encrypt] and [decrypt] both return, the test string has come back.
    A key setting that [getEncryptionKey] refuses is reported as the
    configuration error with that cause. *)
Theorem validateEncryptionKey_accepts_well_formed_keys `{G : AesGcm}
    (env_key : option jsstring) (iv : Buffer) (millis : Z) :
  length iv = IV_LENGTH ->
  (validateEncryptionKey env_key iv millis = Ok tt <-> well_formed_key env_key = true)
  /\ validateEncryptionKey env_key iv millis ≠ Err DoesNotMatch
  /\ (forall e, getEncryptionKey env_key = Err e ->
        validateEncryptionKey env_key iv millis = Err (Misconfigured e))
  /\ (well_formed_key env_key = false ->
      exists e, validateEncryptionKey env_key iv millis = Err (Misconfigured e)).
Proof.
  intros Hiv. set (testString := js "test-encryption-" ++ js (pretty millis)).
  assert (Hne : testString ≠ []) by done.
  assert (Hwf : Utf8.well_formed testString = true).
  { apply well_formed_below_surrogates, Forall_app.
    split; apply js_below_surrogates. }
  assert (Hgood : well_formed_key env_key = true ->
                  validateEncryptionKey env_key iv millis = Ok tt).
  { intros Hk. destruct (well_formed_key_inv _ Hk) as (k & -> & _ & Hget & Hlen).
    unfold validateEncryptionKey. rewrite Hget. cbn [mbind result_bind].
    fold testString. rewrite (encrypt_sealed _ _ _ Hget Hlen Hiv _ Hne).
    cbn [mbind result_bind].
    rewrite (decrypt_sealed _ _ _ Hget Hlen Hiv), utf8_decode_encode by done.
    cbn [mbind result_bind mret result_ret]. by rewrite bool_decide_eq_true_2. }
  assert (Hbad : well_formed_key env_key = false ->
                 exists e, validateEncryptionKey env_key iv millis = Err (Misconfigured e)).
  { intros Hk. unfold validateEncryptionKey.
    destruct (getEncryptionKey env_key) as [key|e] eqn:Hget; [|by eexists].
    cbn [mbind result_bind]. fold testString.
    destruct (encrypt env_key iv testString) as [b|e] eqn:Henc; [|by eexists].
    apply encrypt_ok_inv in Henc as (_ & key' & Hget' & Hlen).
    rewrite (well_formed_key_of_bytes _ _ Hget' Hlen) in Hk. done. }
  split; [|split; [|split]].
  - split; [|done]. intros Hok.
    destruct (well_formed_key env_key) eqn:Hk; [done|].
    destruct (Hbad eq_refl) as [e He]. congruence.
  - destruct (well_formed_key env_key) eqn:Hk.
    + rewrite Hgood by done. discriminate.
    + destruct (Hbad eq_refl) as [e ->]. discriminate.
  - intros e He. unfold validateEncryptionKey. by rewrite He.
  - done.
Qed.

Lemma validateEncryptionKey_accepts_well_formed_keys_witness :
  (validateEncryptionKey (H:=toy_gcm) demo_key demo_iv 1700000000000 = Ok tt
   <-> well_formed_key demo_key = true)
  /\ validateEncryptionKey (H:=toy_gcm) demo_key demo_iv 1700000000000
     ≠ Err DoesNotMatch
  /\ (forall e, getEncryptionKey demo_key = Err e ->
        validateEncryptionKey (H:=toy_gcm) demo_key demo_iv 1700000000000
        = Err (Misconfigured e))
  /\ (well_formed_key demo_key = false ->
      exists e, validateEncryptionKey (H:=toy_gcm) demo_key demo_iv 1700000000000
                = Err (Misconfigured e)).
Proof.
  apply (validateEncryptionKey_accepts_well_formed_keys (G:=toy_gcm) demo_key
           demo_iv 1700000000000). reflexivity.
Defined.

Example start_up_check_passes :
  validateEncryptionKey (H:=toy_gcm) demo_key demo_iv 1700000000000 = Ok tt.
Proof. vm_compute. reflexivity. Qed.

Example start_up_check_fails :
  validateEncryptionKey (H:=toy_gcm) demo_bad_key demo_iv 1700000000000
    = Err (Misconfigured InvalidKeyLength)
  /\ validateEncryptionKey (H:=toy_gcm) None demo_iv 1700000000000
     = Err (Misconfigured KeyRequired).
Proof. vm_compute. split; reflexivity. Qed.

Lemma ctr_xor_inj `{G : AesGcm} (key iv a b : Buffer) :
  ctr_xor key iv a = ctr_xor key iv b -> a = b.
Proof.
  intros Heq. rewrite <- (ctr_xor_cancel key iv a), <- (ctr_xor_cancel key iv b).
  by rewrite Heq.
Qed.

(** X3.  A blob determines the nonce and the plaintext it was made from: if
    two calls of [encrypt] under one key setting return the same blob, they
    drew the same nonce and were given plaintexts with the same UTF-8 form,
    hence the same plaintext when neither holds an unpaired surrogate.  So
    two calls that draw different nonces return different blobs, also for
    one and the same token. *)
Theorem blob_determines_nonce_and_plaintext `{G : AesGcm}
    (env_key : option jsstring) (iv1 iv2 : Buffer) (s1 s2 blob : jsstring) :
  length iv1 = IV_LENGTH -> length iv2 = IV_LENGTH ->
  encrypt env_key iv1 s1 = Ok blob -> encrypt env_key iv2 s2 = Ok blob ->
  iv1 = iv2
  /\ Utf8.encode s1 = Utf8.encode s2
  /\ (Utf8.well_formed s1 = true -> Utf8.well_formed s2 = true -> s1 = s2).
Proof.
  intros Hiv1 Hiv2 He1 He2.
  destruct (encrypt_ok_inv _ _ _ _ He1) as (Hs1 & key & Hget & Hlen).
  destruct (encrypt_ok_inv _ _ _ _ He2) as (Hs2 & _).
  rewrite (encrypt_sealed _ _ _ Hget Hlen Hiv1 _ Hs1) in He1.
  rewrite (encrypt_sealed _ _ _ Hget Hlen Hiv2 _ Hs2) in He2.
  injection He1 as He1. injection He2 as He2.
  assert (Hsealed : sealed key iv1 s1 = sealed key iv2 s2).
  { rewrite <- (base64_decode_encode (sealed key iv1 s1)),
            <- (base64_decode_encode (sealed key iv2 s2)). congruence. }
  unfold sealed in Hsealed.
  apply app_inj_1 in Hsealed as [<- Hrest]; [|congruence].
  apply app_inj_2 in Hrest as [Hdata _]; [|by rewrite !gcm_tag_length].
  apply ctr_xor_inj in Hdata.
  split; [done|]. split; [done|]. intros Hw1 Hw2.
  rewrite <- (utf8_decode_encode s1), <- (utf8_decode_encode s2) by done.
  by rewrite Hdata.
Qed.

Lemma blob_determines_nonce_and_plaintext_witness :
  demo_iv = demo_iv
  /\ Utf8.encode (js "sbp_oauth_4f2a") = Utf8.encode (js "sbp_oauth_4f2a")
  /\ (Utf8.well_formed (js "sbp_oauth_4f2a") = true ->
      Utf8.well_formed (js "sbp_oauth_4f2a") = true ->
      js "sbp_oauth_4f2a" = js "sbp_oauth_4f2a").
Proof.
  apply (blob_determines_nonce_and_plaintext (G:=toy_gcm) demo_key demo_iv demo_iv
           (js "sbp_oauth_4f2a") (js "sbp_oauth_4f2a")
           (demo_blob (js "sbp_oauth_4f2a"))); reflexivity.
Defined.

Example another_nonce_another_blob :
  encrypt (H:=toy_gcm) demo_key demo_iv (js "sbp_oauth_4f2a")
  ≠ encrypt (H:=toy_gcm) demo_key (replicate 16 x01) (js "sbp_oauth_4f2a").
Proof. vm_compute. discriminate. Qed.

(** ** Token lifecycle: lookups, stores, refreshes *)

Lemma filter_fmap_stable {A} (p : A -> bool) (f : A -> A) (l : list A) :
  (forall x, p (f x) = p x) ->
  filter (fun x => p x = true) (f <$> l) = f <$> filter (fun x => p x = true) l.
Proof.
  intros Hp. induction l as [|x l IH]; [done|].
  rewrite fmap_cons, !filter_cons, Hp.
  destruct (decide (p x = true)); [by rewrite fmap_cons, IH|done].
Qed.

Lemma filter_fmap_untouched {A} (p q : A -> bool) (f : A -> A) (l : list A) :
  (forall x, q (f x) = q x) ->
  filter (fun x => q x = false)
    ((fun x => if p x then f x else x) <$> l)
  = (fun x => if p x then f x else x) <$> filter (fun x => q x = false) l.
Proof.
  intros Hq. induction l as [|x l IH]; [done|].
  rewrite fmap_cons, !filter_cons.
  assert (Hx : q (if p x then f x else x) = q x) by (destruct (p x); [apply Hq|done]).
  rewrite Hx. destruct (decide (q x = false)); [by rewrite fmap_cons, IH|done].
Qed.

Lemma fmap_untouched {A} (p : A -> bool) (f : A -> A) (l : list A) :
  Forall (fun x => p x = false) l ->
  (fun x => if p x then f x else x) <$> l = l.
Proof.
  induction 1 as [|x l Hx _ IH]; [done|]. by rewrite fmap_cons, Hx, IH.
Qed.

Lemma filter_false_all {A} (p : A -> bool) (l : list A) :
  Forall (fun x => p x = false) (filter (fun x => p x = false) l).
Proof. apply Forall_forall. by intros x [Hx _]%list_elem_of_filter. Qed.

(** The rows [storeTokens] is not about stay as they are, in place. *)
Lemma update_by_id_frame (env : Env) (d : TokenData) (id : jsstring) (w : World) :
  let w' := (update_by_id env d id w).2 in
  filter (fun r => by_id id r = false) (integrations w')
  = filter (fun r => by_id id r = false) (integrations w)
  /\ length (integrations w') = length (integrations w)
  /\ token_requests w' = token_requests w /\ now w' = now w /\ draws w' = draws w.
Proof.
  unfold update_by_id. destruct (db_fault env DbUpdate); [done|].
  cbn [snd integrations token_requests now draws].
  split; [|by rewrite length_fmap].
  change (fun r => if same_string (Integration.id r) id then with_tokens d r else r)
    with (fun r => if by_id id r then with_tokens d r else r).
  rewrite (filter_fmap_untouched (by_id id) (by_id id)) by done.
  apply fmap_untouched, filter_false_all.
Qed.

Lemma existsb_false_filter {A} (p : A -> bool) (l : list A) :
  existsb p l = false -> filter (fun x => p x = true) l = [].
Proof.
  induction l as [|y l IH]; [done|]. cbn [existsb]. intros [Hy Hl]%orb_false_iff.
  rewrite filter_cons_False by congruence. by apply IH.
Qed.

Lemma existsb_false_all {A} (p : A -> bool) (l : list A) :
  existsb p l = false -> filter (fun x => p x = false) l = l.
Proof.
  induction l as [|y l IH]; [done|]. cbn [existsb].
  intros [Hy Hl]%orb_false_iff. by rewrite filter_cons_True, IH.
Qed.

Lemma upsert_for_user_frame (env : Env) (d : TokenData) (userId : jsstring)
    (w : World) :
  let w' := (upsert_for_user env d userId w).2 in
  filter (fun r => by_user userId r = false) (integrations w')
  = filter (fun r => by_user userId r = false) (integrations w)
  /\ (length (integrations w) <= length (integrations w')
      <= S (length (integrations w)))%nat
  /\ token_requests w' = token_requests w /\ now w' = now w /\ draws w' = draws w.
Proof.
  unfold upsert_for_user. destruct (db_fault env DbUpsert); [cbn; repeat split; lia|].
  cbn [snd integrations token_requests now draws].
  change (fun r => same_string (Integration.user_id r) userId
                   && same_string (Integration.provider r) (js "supabase"))
    with (by_user userId).
  destruct (existsb (by_user userId) (integrations w)) eqn:Hex.
  - split; [|rewrite length_fmap; repeat split; lia].
    change (fun r => if by_user userId r then with_tokens d r else r)
      with (fun r => if by_user userId r then with_tokens d r else r).
    rewrite (filter_fmap_untouched (by_user userId) (by_user userId)) by done.
    apply fmap_untouched, filter_false_all.
  - split; [|rewrite length_app; cbn; repeat split; lia].
    rewrite filter_app, filter_cons_False, filter_nil, app_nil_r; [done|].
    unfold by_user, same_string. cbn [Integration.user_id Integration.provider].
    rewrite !bool_decide_eq_true_2 by done. done.
Qed.

(** X4.  Storing tokens changes no credential but the one addressed (the row
    with the given id, or without an id the user's row): every other row of
    the table is afterwards what and where it was; at most one row is added,
    and none when an id is given; no request goes to the token endpoint.
    When [storeTokens] fails, be it in [encrypt], on an expiry that is no
    valid date, or in the store, the table is the one before and nothing was
    written. *)
Theorem storeTokens_touches_one_credential (env : Env) (userId : jsstring)
    (tokens : TokenResponse.t) (integrationId : option jsstring) (w : World) :
  let out := storeTokens env userId tokens integrationId w in
  filter (fun r => addressed userId integrationId r = false) (integrations out.2)
  = filter (fun r => addressed userId integrationId r = false) (integrations w)
  /\ (length (integrations w) <= length (integrations out.2)
      <= S (length (integrations w)))%nat
  /\ (forall id, integrationId = Some id -> id ≠ [] ->
        length (integrations out.2) = length (integrations w))
  /\ token_requests out.2 = token_requests w
  /\ now out.2 = now w
  /\ (forall e, out.1 = Err e ->
        integrations out.2 = integrations w /\ db_writes out.2 = db_writes w
        /\ ((exists cause, e = Vault cause)
            \/ e = InvalidTimeValue
            \/ (exists message, e = FailedToUpdateTokens message)
            \/ (exists message, e = FailedToStoreTokens message))).
Proof.
  intros out.
  pose proof (storeTokens_failure env userId tokens integrationId w) as Hfail.
  pose proof (storeTokens_requests env userId tokens integrationId w) as [Hreq Hnow].
  fold out in Hfail, Hreq, Hnow.
  assert (Hframe :
    filter (fun r => addressed userId integrationId r = false) (integrations out.2)
    = filter (fun r => addressed userId integrationId r = false) (integrations w)
    /\ (length (integrations w) <= length (integrations out.2)
        <= S (length (integrations w)))%nat
    /\ (forall id, integrationId = Some id -> id ≠ [] ->
          length (integrations out.2) = length (integrations w))).
  { destruct out.1 as [[]|e] eqn:Hres.
    2:{ destruct (Hfail e eq_refl) as (-> & _). split_and!; try done; try lia. }
    clear Hfail Hreq Hnow. subst out. rewrite storeTokens_unfold in Hres |- *.
    pose proof (encrypt_call_frame env (TokenResponse.access_token tokens) w) as H1.
    destruct (encrypt_call env (TokenResponse.access_token tokens) w)
      as [[a|e1] w1]; [|done].
    pose proof (encrypt_call_frame env (TokenResponse.refresh_token tokens) w1) as H2.
    destruct (encrypt_call env (TokenResponse.refresh_token tokens) w1)
      as [[r|e2] w2]; [|done].
    cbn [fst snd] in H1, H2. destruct H1 as (Hi1 & _), H2 as (Hi2 & _).
    cbn zeta in Hres |- *. destruct (valid_time _); [|done].
    set (d := {| td_access_token := a; td_refresh_token := r;
                 td_token_expires_at := _; td_updated_at := _ |}) in *.
    rewrite <- Hi1, <- Hi2.
    pose proof (upsert_for_user_frame env d userId w2) as Hups.
    pose proof (update_by_id_frame env d) as Hupd.
    cbn zeta in Hups, Hupd.
    destruct integrationId as [[|c cs]|].
    - destruct (upsert_for_user env d userId w2) as [[[m|]|e] w']; try done.
      cbn [fst snd addressed] in *. destruct Hups as (H1 & H2 & _).
      split_and!; try done; try lia. by intros id [= <-] Hne.
    - specialize (Hupd (c :: cs) w2).
      destruct (update_by_id env d (c :: cs) w2) as [[[m|]|e] w']; try done.
      cbn [fst snd addressed] in *. destruct Hupd as (H1 & H2 & _).
      split_and!; try done; try lia.
    - destruct (upsert_for_user env d userId w2) as [[[m|]|e] w']; try done.
      cbn [fst snd addressed] in *. destruct Hups as (H1 & H2 & _).
      split_and!; try done; try lia. }
  destruct Hframe as (H1 & H2 & H3).
  split_and!; try done; try lia.
  intros e He. destruct (Hfail e He) as (? & ? & _ & _ & ?). by split_and!.
Qed.

Example storeTokens_without_refresh_token_writes_nothing :
  storeTokens demo_env (js "user-1")
    {| TokenResponse.access_token := js "access-2";
       TokenResponse.refresh_token := [];
       TokenResponse.expires_in := 3600;
       TokenResponse.token_type := js "Bearer" |}
    (Some (js "int-1")) (demo_world (js "live-refresh") 1000)
  = (Err (Vault CannotEncryptEmpty),
     drawn (demo_world (js "live-refresh") 1000)).
Proof. vm_compute. reflexivity. Qed.

(** X5.  A refresh deletes the credential record only when the token
    endpoint has answered and refused: whenever [refreshAccessToken] fails
    with another error (the record is not found, its refresh token does not
    decrypt, the request throws, the body cannot be read or is no token
    response, or the new tokens cannot be stored) the table is the one
    before and nothing was written; and it fails with the reconnect error
    only after a response that is not OK, with a body that could be read, to
    the stored refresh token. *)
Theorem refreshAccessToken_keeps_record_unless_refused (env : Env)
    (integrationId : jsstring) (w : World) :
  let out := refreshAccessToken env integrationId w in
  (forall e, out.1 = Err e -> e ≠ ReauthorizationRequired ->
     integrations out.2 = integrations w /\ db_writes out.2 = db_writes w)
  /\ (out.1 = Err ReauthorizationRequired ->
      exists r rt text body,
        select_single env (by_id integrationId) w = Some r
        /\ decrypt (H:=cipher env) (ENCRYPTION_KEY env) (Integration.refresh_token r)
           = Ok rt
        /\ token_endpoint env rt = Response false (Some text) body)
  /\ (forall e, token_endpoint env = (fun _ => FetchThrows) -> out.1 = Err e ->
        e ≠ ReauthorizationRequired).
Proof.
  intros out. subst out. rewrite refreshAccessToken_unfold.
  destruct (select_single _ _ _) as [r|] eqn:Hsel.
  2:{ split_and!; [by intros e [= <-]|done|by intros e _ [= <-]]. }
  destruct (decrypt _ _) as [rt|e0] eqn:Hdec.
  2:{ split_and!; [by intros e [= <-]|done|by intros e _ [= <-]]. }
  destruct (token_endpoint env rt) as [|[] text [tokens|]] eqn:Hresp.
  - split_and!; [by intros e [= <-]|done|by intros e _ [= <-]].
  - pose proof (storeTokens_failure env (Integration.user_id r) tokens
                  (Some integrationId) (requested env rt w)) as Hfail.
    destruct (storeTokens _ _ _ _ _) as [[[]|e0] w']; cbn [fst snd] in *.
    + split_and!; [done|done|]. intros e He. by rewrite He in Hresp.
    + destruct (Hfail e0 eq_refl) as (H1 & H2 & H3 & _).
      split_and!.
      * by intros e [= <-].
      * by intros [= ->].
      * intros e He. by rewrite He in Hresp.
  - split_and!; [by intros e [= <-]|done|by intros e _ [= <-]].
  - destruct text as [text|].
    + split_and!; [intros e [= <-] Hne; by destruct Hne|by eauto 10|].
      intros e He. by rewrite He in Hresp.
    + split_and!; [by intros e [= <-]|done|by intros e _ [= <-]].
  - destruct text as [text|].
    + split_and!; [intros e [= <-] Hne; by destruct Hne|by eauto 10|].
      intros e He. by rewrite He in Hresp.
    + split_and!; [by intros e [= <-]|done|by intros e _ [= <-]].
Qed.

Example unreachable_endpoint_keeps_the_record :
  refreshAccessToken offline_env (js "int-1") (demo_world (js "live-refresh") 1000)
  = (Err FetchFailed,
     requested offline_env (js "live-refresh") (demo_world (js "live-refresh") 1000))
  /\ integrations
       (requested offline_env (js "live-refresh") (demo_world (js "live-refresh") 1000))
     = [demo_row (js "live-refresh") 1000].
Proof. vm_compute. split; reflexivity. Qed.

(** X6.  A refresh posts to the token endpoint at most once, and what it
    posts is the refresh token decrypted from the stored record: when the
    record is found and its refresh token decrypts to [rt], the requests
    made are those before and then [rt]; when the record is not found, or
    its refresh token does not decrypt (no key, a blob that does not
    verify), the call fails before any request and changes nothing. *)
Theorem refreshAccessToken_posts_the_stored_token_once (env : Env)
    (integrationId : jsstring) (w : World) :
  let out := refreshAccessToken env integrationId w in
  (forall r rt,
     select_single env (by_id integrationId) w = Some r ->
     decrypt (H:=cipher env) (ENCRYPTION_KEY env) (Integration.refresh_token r)
       = Ok rt ->
     token_requests out.2 = token_requests w ++ [rt])
  /\ (select_single env (by_id integrationId) w = None ->
      out = (Err IntegrationNotFound, w))
  /\ (forall r e,
        select_single env (by_id integrationId) w = Some r ->
        decrypt (H:=cipher env) (ENCRYPTION_KEY env) (Integration.refresh_token r)
          = Err e ->
        out = (Err (Vault e), w))
  /\ (length (token_requests out.2) <= S (length (token_requests w)))%nat.
Proof.
  intros out. subst out. rewrite refreshAccessToken_unfold.
  destruct (select_single _ _ _) as [r|] eqn:Hsel; [|split_and!; done || (cbn; lia)].
  destruct (decrypt _ _) as [rt|e0] eqn:Hdec.
  2:{ split_and!; [intros r' rt' [= <-] Hx; congruence|done
                  |intros r' e [= <-] Hx; congruence|cbn; lia]. }
  assert (Hreq : token_requests
            (match token_endpoint env rt with
             | FetchThrows => (Err FetchFailed, requested env rt w)
             | Response true _ (Some tokens) =>
                 match storeTokens env (Integration.user_id r) tokens
                         (Some integrationId) (requested env rt w) with
                 | (Ok _, w') => (Ok tokens, w')
                 | (Err e, w') => (Err e, w')
                 end
             | Response true _ None => (Err InvalidJson, requested env rt w)
             | Response false None _ => (Err BodyUnreadable, requested env rt w)
             | Response false (Some _) _ =>
                 (Err ReauthorizationRequired,
                  (delete_by_id env integrationId (requested env rt w)).2)
             end).2 = token_requests w ++ [rt]).
  { destruct (token_endpoint env rt) as [|[] [text|] [tokens|]]; try done.
    - pose proof (storeTokens_requests env (Integration.user_id r) tokens
                    (Some integrationId) (requested env rt w)) as [Hst _].
      by destruct (storeTokens _ _ _ _ _) as [[[]|e0] w'].
    - pose proof (storeTokens_requests env (Integration.user_id r) tokens
                    (Some integrationId) (requested env rt w)) as [Hst _].
      by destruct (storeTokens _ _ _ _ _) as [[[]|e0] w'].
    - unfold delete_by_id. by destruct (db_fault env DbDelete).
    - unfold delete_by_id. by destruct (db_fault env DbDelete). }
  split_and!; [intros r' rt' [= <-] Hx; congruence|done
              |intros r' e [= <-] Hx; congruence|].
  rewrite Hreq, length_app. cbn. lia.
Qed.

Example undecryptable_record_is_never_posted :
  refreshAccessToken demo_env (js "int-1")
    {| integrations :=
         [{| Integration.id := js "int-1"; Integration.user_id := js "user-1";
             Integration.provider := js "supabase";
             Integration.access_token := demo_blob (js "access-1");
             Integration.refresh_token :=
               Base64.encode
                 (flip_at 200 (sealed (H:=toy_gcm) demo_key_bytes demo_iv
                                 (js "live-refresh")));
             Integration.token_expires_at := 1000;
             Integration.created_at := 1000; Integration.updated_at := 1000 |}];
       now := 1000000; draws := 0; token_requests := []; db_writes := [] |}
  = (Err (Vault IntegrityError),
     {| integrations :=
         [{| Integration.id := js "int-1"; Integration.user_id := js "user-1";
             Integration.provider := js "supabase";
             Integration.access_token := demo_blob (js "access-1");
             Integration.refresh_token :=
               Base64.encode
                 (flip_at 200 (sealed (H:=toy_gcm) demo_key_bytes demo_iv
                                 (js "live-refresh")));
             Integration.token_expires_at := 1000;
             Integration.created_at := 1000; Integration.updated_at := 1000 |}];
       now := 1000000; draws := 0; token_requests := []; db_writes := [] |}).
Proof. vm_compute. reflexivity. Qed.

Lemma select_maybe_single_single (env : Env) (p : Integration.t -> bool) (w : World) :
  select_single env p w
  = match select_maybe_single env p w with
    | Ok data => data
    | Err _ => None
    end.
Proof.
  unfold select_single, select_maybe_single.
  destruct (db_fault env DbSelect); [done|].
  by destruct (filter _ _) as [|x [|y l]].
Qed.

Lemma refreshAccessToken_failure (env : Env) (integrationId : jsstring) (w : World)
    (e : TokenError) :
  (refreshAccessToken env integrationId w).1 = Err e -> e ≠ NoIntegrationForUser.
Proof.
  rewrite refreshAccessToken_unfold.
  destruct (select_single _ _ _) as [r|]; [|by intros [= <-]].
  destruct (decrypt _ _) as [rt|e0]; [|by intros [= <-]].
  destruct (token_endpoint env rt) as [|[] [text|] [tokens|]];
    try by intros [= <-].
  all: pose proof (storeTokens_failure env (Integration.user_id r) tokens
                     (Some integrationId) (requested env rt w)) as Hfail.
  all: destruct (storeTokens _ _ _ _ _) as [[[]|e0] w']; [done|].
  all: intros [= <-]; by destruct (Hfail e0 eq_refl) as (_ & _ & _ & ? & _).
Qed.

(** X7.  The three lookups of a user's credential agree.  [hasIntegration]
    answers true exactly when [getIntegration] returns a record, which is
    exactly when the store answers and the table holds one single row of
    that user for the provider [supabase]; the record returned is that row.
    [getValidAccessToken] fails with its no-integration error, having done
    nothing, exactly when [hasIntegration] answers false.  Neither lookup
    changes anything. *)
Theorem integration_lookups_agree (env : Env) (userId : jsstring) (w : World) :
  let has := hasIntegration env userId w in
  let got := getIntegration env userId w in
  has.2 = w /\ got.2 = w
  /\ (has.1 = Ok true \/ has.1 = Ok false)
  /\ (forall r, got.1 = Ok (Some r) <->
                db_fault env DbSelect = None
                /\ filter (fun x => by_user userId x = true) (integrations w) = [r])
  /\ (forall r, got.1 = Ok (Some r) ->
                has.1 = Ok true /\ r ∈ integrations w
                /\ Integration.user_id r = userId
                /\ Integration.provider r = js "supabase")
  /\ (has.1 = Ok true -> exists r, got.1 = Ok (Some r))
  /\ (has.1 = Ok false <->
      getValidAccessToken env userId w = (Err NoIntegrationForUser, w)).
Proof.
  intros has got. subst has got.
  unfold hasIntegration, getIntegration. fold (by_user userId).
  cbn [fst snd]. split; [done|]. split; [done|].
  assert (Hget : getValidAccessToken env userId w
                 = match select_single env (by_user userId) w with
                   | None => (Err NoIntegrationForUser, w)
                   | Some r => getValidAccessToken env userId w
                   end).
  { unfold getValidAccessToken. fold (by_user userId).
    by destruct (select_single _ _ _). }
  assert (Hfound : forall r, select_single env (by_user userId) w = Some r ->
                   getValidAccessToken env userId w ≠ (Err NoIntegrationForUser, w)).
  { intros r Hsel. unfold getValidAccessToken. fold (by_user userId).
    rewrite Hsel. cbn zeta. destruct (_ <? _)%Z.
    - rewrite decrypt_call_pure. by destruct (decrypt _ _).
    - unfold bind, ret.
      pose proof (refreshAccessToken_failure env (Integration.id r) w) as Hfail.
      destruct (refreshAccessToken _ _ _) as [[t|e] w']; [done|].
      intros [= -> _]. by apply (Hfail NoIntegrationForUser). }
  rewrite select_maybe_single_single in Hget, Hfound.
  unfold select_maybe_single in *.
  destruct (db_fault env DbSelect) as [m|].
  { split_and!; [by right|by split; [|intros []]|done|done|by split]. }
  destruct (filter _ _) as [|x [|y l]] eqn:Hrows.
  - split_and!; [by right|by split; [|intros [_ ?]]|done|done|by split].
  - assert (Hx : by_user userId x = true /\ x ∈ integrations w).
    { apply (list_elem_of_filter (fun x => by_user userId x = true)).
      rewrite Hrows. by apply list_elem_of_singleton. }
    destruct Hx as [[Hu Hp]%andb_true_iff Hin].
    unfold same_string in Hu, Hp.
    apply bool_decide_eq_true in Hu. apply bool_decide_eq_true in Hp.
    split_and!; [by left| |by intros r [= <-]|by eauto|].
    + intros r. split; [by intros [= <-]|by intros [_ [= <-]]].
    + split; [done|]. intros Hno. by destruct (Hfound x eq_refl).
  - split_and!; [by right|by split; [|intros [_ ?]]|done|done|by split].
Qed.

Example second_row_hides_the_integration :
  (hasIntegration demo_env (js "user-1")
     {| integrations := [demo_row (js "a") 1000; demo_row (js "b") 1000];
        now := 0; draws := 0; token_requests := []; db_writes := [] |}).1
  = Ok false
  /\ (hasIntegration demo_env (js "user-1") (demo_world (js "a") 1000)).1 = Ok true
  /\ (hasIntegration demo_env (js "user-2") (demo_world (js "a") 1000)).1 = Ok false.
Proof. vm_compute. repeat split; reflexivity. Qed.

Lemma existsb_true_filter {A} (p : A -> bool) (l : list A) :
  existsb p l = true -> filter (fun x => p x = true) l ≠ [].
Proof.
  intros Hex Hnil. apply existsb_exists in Hex as (x & Hx%list_elem_of_In & Hp).
  assert (x ∈ filter (fun x => p x = true) l) as Hin by (by apply list_elem_of_filter).
  rewrite Hnil in Hin. by apply elem_of_nil in Hin.
Qed.

(** The quick path of [getValidAccessToken], on a row that was sealed from
    the token [t]. *)
Lemma getValidAccessToken_fast (env : Env) (userId : jsstring) (w : World)
    (r : Integration.t) (key iv : Buffer) (t : jsstring) :
  db_fault env DbSelect = None ->
  filter (fun x => by_user userId x = true) (integrations w) = [r] ->
  (now w + 5 * 60 * 1000 < Integration.token_expires_at r)%Z ->
  getEncryptionKey (ENCRYPTION_KEY env) = Ok key -> length key = 32%nat ->
  length iv = 16%nat -> Utf8.well_formed t = true ->
  Integration.access_token r = Base64.encode (sealed (H:=cipher env) key iv t) ->
  getValidAccessToken env userId w = (Ok t, w)
  /\ (hasIntegration env userId w).1 = Ok true.
Proof.
  intros Hfault Hrows Hfresh Hkey Hlen Hiv Hwf Hblob. split.
  - assert (Hsel : select_single env (by_user userId) w = Some r)
      by (unfold select_single; by rewrite Hfault, Hrows).
    unfold getValidAccessToken. fold (by_user userId).
    rewrite Hsel. cbn zeta. rewrite (proj2 (Z.ltb_lt _ _) Hfresh).
    rewrite decrypt_call_pure, Hblob, (decrypt_sealed _ _ _ Hkey Hlen Hiv).
    by rewrite utf8_decode_encode.
  - assert (Hsel : select_maybe_single env (by_user userId) w = Ok (Some r))
      by (unfold select_maybe_single; by rewrite Hfault, Hrows).
    unfold hasIntegration. fold (by_user userId). by rewrite Hsel.
Qed.

(** X8.  What [storeTokens] stores for a new connection is what
    [getValidAccessToken] serves.  With a well-formed key, a store that
    answers, an expiry [now + expires_in] that is a valid date, and at most
    one row of the user in the table, storing a token response (no id given)
    succeeds, and any later call of [getValidAccessToken] for that user made
    more than five minutes before the stored expiry returns the access token
    of that response, without a request to the token endpoint and without
    touching the table. *)
Theorem stored_tokens_are_served (env : Env) (userId : jsstring)
    (tokens : TokenResponse.t) (w : World) (millis : Z) :
  well_formed_key (ENCRYPTION_KEY env) = true ->
  TokenResponse.access_token tokens ≠ [] ->
  TokenResponse.refresh_token tokens ≠ [] ->
  Utf8.well_formed (TokenResponse.access_token tokens) = true ->
  valid_time (now w + TokenResponse.expires_in tokens * 1000) = true ->
  db_fault env DbUpsert = None -> db_fault env DbSelect = None ->
  (length (filter (fun r => by_user userId r = true) (integrations w)) <= 1)%nat ->
  (millis + 5 * 60 * 1000 < TokenResponse.expires_in tokens * 1000)%Z ->
  let stored := storeTokens env userId tokens None w in
  let w' := later millis stored.2 in
  stored.1 = Ok tt
  /\ db_writes stored.2 = db_writes w ++ [Upserted userId]
  /\ getValidAccessToken env userId w' = (Ok (TokenResponse.access_token tokens), w')
  /\ (hasIntegration env userId w').1 = Ok true
  /\ token_requests w' = token_requests w.
Proof.
  intros Hwf Ha Hr Hutf Hvalid Hups Hsel Huniq Hfresh stored w'.
  destruct (well_formed_key_inv _ Hwf) as (k & Hk & _ & Hkey & Hlen).
  set (d := {| td_access_token :=
                 Base64.encode (sealed (H:=cipher env) (Hex.decode k)
                                  (nonce env (draws w))
                                  (TokenResponse.access_token tokens));
               td_refresh_token :=
                 Base64.encode (sealed (H:=cipher env) (Hex.decode k)
                                  (nonce env (S (draws w)))
                                  (TokenResponse.refresh_token tokens));
               td_token_expires_at :=
                 (now w + TokenResponse.expires_in tokens * 1000)%Z;
               td_updated_at := now w |}).
  assert (Hstored : stored
                    = (Ok tt, (upsert_for_user env d userId (drawn (drawn w))).2)).
  { subst stored. rewrite storeTokens_unfold.
    rewrite (encrypt_call_ok _ _ _ _ Hkey Hlen Ha).
    rewrite (encrypt_call_ok _ _ _ _ Hkey Hlen Hr).
    cbn [now drawn draws]. cbn zeta. rewrite Hvalid. fold d.
    unfold upsert_for_user. by rewrite Hups. }
  split; [by rewrite Hstored|].
  assert (Hrow : exists row,
            filter (fun x => by_user userId x = true) (integrations stored.2) = [row]
            /\ Integration.access_token row = td_access_token d
            /\ Integration.token_expires_at row = td_token_expires_at d).
  { rewrite Hstored. unfold upsert_for_user. rewrite Hups.
    cbn [snd integrations drawn].
    change (fun r => same_string (Integration.user_id r) userId
                     && same_string (Integration.provider r) (js "supabase"))
      with (by_user userId).
    destruct (existsb (by_user userId) (integrations w)) eqn:Hex.
    - apply existsb_true_filter in Hex.
      destruct (filter (fun x => by_user userId x = true) (integrations w))
        as [|r [|r' l]] eqn:Hrows; [done| |cbn in Huniq; lia].
      exists (with_tokens d r).
      rewrite (filter_fmap_stable (by_user userId)
                 (fun r => if by_user userId r then with_tokens d r else r)).
      + rewrite Hrows. cbn [fmap list_fmap].
        assert (Hin : r ∈ filter (fun x => by_user userId x = true) (integrations w))
          by (rewrite Hrows; by apply list_elem_of_singleton).
        apply list_elem_of_filter in Hin as [Hr' _]. by rewrite Hr'.
      + intros x. by destruct (by_user userId x) eqn:Hx.
    - eexists. rewrite filter_app, (existsb_false_filter _ _ Hex).
      rewrite filter_cons_True, filter_nil; [done|].
      unfold by_user, same_string. cbn [Integration.user_id Integration.provider].
      by rewrite !bool_decide_eq_true_2. }
  destruct Hrow as (row & Hrows & Hacc & Hexp).
  assert (Hw' : token_requests w' = token_requests w
                /\ db_writes stored.2 = db_writes w ++ [Upserted userId]).
  { subst w'. rewrite Hstored. unfold upsert_for_user. by rewrite Hups. }
  destruct Hw' as [Htr Hdb]. split; [done|].
  destruct (getValidAccessToken_fast env userId w' row (Hex.decode k)
              (nonce env (draws w)) (TokenResponse.access_token tokens))
    as [Hget Hhas]; try done.
  - rewrite Hexp. subst w'. rewrite Hstored. unfold upsert_for_user.
    rewrite Hups. cbn [later now snd drawn td_token_expires_at d]. lia.
  - apply nonce_length.
Qed.

Lemma stored_tokens_are_served_witness :
  let stored := storeTokens demo_env (js "user-9") demo_tokens None empty_world in
  let w' := later 3000000 stored.2 in
  stored.1 = Ok tt
  /\ db_writes stored.2 = db_writes empty_world ++ [Upserted (js "user-9")]
  /\ getValidAccessToken demo_env (js "user-9") w'
     = (Ok (TokenResponse.access_token demo_tokens), w')
  /\ (hasIntegration demo_env (js "user-9") w').1 = Ok true
  /\ token_requests w' = token_requests empty_world.
Proof.
  apply (stored_tokens_are_served demo_env (js "user-9") demo_tokens empty_world
           3000000); try reflexivity; try discriminate.
  vm_compute. lia.
Defined.

Example reconnecting_replaces_the_tokens :
  let stored := storeTokens demo_env (js "user-1") demo_tokens None
                  (demo_world (js "old-refresh") 1000) in
  stored.1 = Ok tt
  /\ length (integrations stored.2) = 1%nat
  /\ Integration.id <$> integrations stored.2 = [js "int-1"]
  /\ getValidAccessToken demo_env (js "user-1") stored.2
     = (Ok (js "access-2"), stored.2).
Proof. vm_compute. repeat split; reflexivity. Qed.

(** X9.  A refreshed token is served from the store afterwards.  Let the
    user's record be due for refresh, its id be a key of the table, its
    refresh token decrypt to [rt], and the token endpoint answer [rt] with a
    token response whose expiry [now + expires_in] is a valid date.  Then
    [getValidAccessToken] returns the new access token after one request,
    and any further call made more than five minutes before the new expiry
    returns that same token with no request at all and no change to the
    table. *)
Theorem refreshed_token_is_served_from_the_store (env : Env) (userId : jsstring)
    (w : World) (r : Integration.t) (rt : jsstring) (text : option jsstring)
    (tokens : TokenResponse.t) (millis : Z) :
  select_single env (by_user userId) w = Some r ->
  select_single env (by_id (Integration.id r)) w = Some r ->
  (Integration.token_expires_at r <= now w + 5 * 60 * 1000)%Z ->
  decrypt (H:=cipher env) (ENCRYPTION_KEY env) (Integration.refresh_token r)
    = Ok rt ->
  token_endpoint env rt = Response true text (Some tokens) ->
  TokenResponse.access_token tokens ≠ [] ->
  TokenResponse.refresh_token tokens ≠ [] ->
  Utf8.well_formed (TokenResponse.access_token tokens) = true ->
  valid_time (now w + round_trip env + TokenResponse.expires_in tokens * 1000)
    = true ->
  Integration.id r ≠ [] -> db_fault env DbUpdate = None ->
  (millis + 5 * 60 * 1000 < TokenResponse.expires_in tokens * 1000)%Z ->
  let first := getValidAccessToken env userId w in
  let w' := later millis first.2 in
  first.1 = Ok (TokenResponse.access_token tokens)
  /\ token_requests first.2 = token_requests w ++ [rt]
  /\ db_writes first.2 = db_writes w ++ [Updated (Integration.id r)]
  /\ getValidAccessToken env userId w'
     = (Ok (TokenResponse.access_token tokens), w').
Proof.
  intros Hsel Hid Hstale Hdec Hresp Ha Hr Hutf Hvalid Hne Hupd Hfresh first w'.
  change (now w + round_trip env)%Z with (now (requested env rt w)) in Hvalid.
  destruct (decrypt_ok_key _ _ _ Hdec) as (key & Hkey & Hlen).
  destruct (select_single_inv _ _ _ _ Hsel) as [Hfault Hrows].
  assert (Hfirst : first
    = (Ok (TokenResponse.access_token tokens),
       (storeTokens env (Integration.user_id r) tokens (Some (Integration.id r))
          (requested env rt w)).2)).
  { subst first. unfold getValidAccessToken. fold (by_user userId).
    rewrite Hsel. cbn zeta. rewrite (proj2 (Z.ltb_ge _ _) Hstale).
    unfold bind, ret. rewrite refreshAccessToken_unfold, Hid, Hdec, Hresp.
    by rewrite (storeTokens_update _ _ _ _ _ _ Hkey Hlen Ha Hr Hne Hvalid Hupd). }
  rewrite (storeTokens_update _ _ _ _ _ _ Hkey Hlen Ha Hr Hne Hvalid Hupd) in Hfirst.
  cbn [snd] in Hfirst.
  split; [by rewrite Hfirst|]. split; [by rewrite Hfirst|].
  split; [by rewrite Hfirst|].
  set (d := {| td_access_token := _; td_refresh_token := _;
               td_token_expires_at := _; td_updated_at := _ |}) in Hfirst.
  destruct (getValidAccessToken_fast env userId w' (with_tokens d r) key
              (nonce env (draws (requested env rt w)))
              (TokenResponse.access_token tokens)) as [Hget _]; try done.
  - subst w'. rewrite Hfirst. cbn [later snd integrations].
    rewrite (filter_fmap_stable (by_user userId)
               (fun x => if by_id (Integration.id r) x then with_tokens d x else x)).
    + change (integrations (requested env rt w)) with (integrations w).
      rewrite Hrows. cbn [fmap list_fmap]. unfold by_id, same_string.
      by rewrite bool_decide_eq_true_2.
    + intros x. by destruct (by_id (Integration.id r) x).
  - subst w'. rewrite Hfirst.
    cbn [later snd now with_tokens Integration.token_expires_at
         td_token_expires_at d requested]. lia.
  - apply nonce_length.
Qed.

Lemma refreshed_token_is_served_from_the_store_witness :
  let first := getValidAccessToken demo_env (js "user-1")
                 (demo_world (js "live-refresh") 1000) in
  let w' := later 3000000 first.2 in
  first.1 = Ok (TokenResponse.access_token demo_tokens)
  /\ token_requests first.2
     = token_requests (demo_world (js "live-refresh") 1000) ++ [js "live-refresh"]
  /\ db_writes first.2
     = db_writes (demo_world (js "live-refresh") 1000)
       ++ [Updated (Integration.id (demo_row (js "live-refresh") 1000))]
  /\ getValidAccessToken demo_env (js "user-1") w'
     = (Ok (TokenResponse.access_token demo_tokens), w').
Proof.
  apply (refreshed_token_is_served_from_the_store demo_env (js "user-1")
           (demo_world (js "live-refresh") 1000)
           (demo_row (js "live-refresh") 1000) (js "live-refresh")
           (Some (js "{...}")) demo_tokens
           3000000); try reflexivity; try discriminate.
Defined.

(** ** The Management API client *)

Lemma find_first {A} (f : A -> bool) (l : list A) (x : A) :
  List.find f l = Some x ->
  exists pre post, l = pre ++ x :: post
                   /\ Forall (fun y => f y = false) pre /\ f x = true.
Proof.
  induction l as [|y l IH]; [done|]. cbn [List.find].
  destruct (f y) eqn:Hy.
  - intros [= <-]. by exists [], l.
  - intros (pre & post & -> & Hpre & Hx)%IH.
    exists (y :: pre), post. split; [done|]. split; [by constructor|done].
Qed.

Lemma find_api_key_first (name key : jsstring) (keys : list ApiKey.t) :
  find_api_key name keys = Some key ->
  exists pre k post,
    keys = pre ++ k :: post
    /\ Forall (fun x => ApiKey.name x ≠ name) pre
    /\ ApiKey.name k = name /\ ApiKey.api_key k = Some key.
Proof.
  unfold find_api_key. destruct (List.find _ keys) as [k|] eqn:Hfind; [|done].
  cbn. intros Hkey. apply find_first in Hfind as (pre & post & -> & Hpre & Hk).
  exists pre, k, post. split; [done|]. split; [|split; [|done]].
  - eapply Forall_impl; [exact Hpre|]. intros x Hx. unfold same_string in Hx.
    by apply bool_decide_eq_false in Hx.
  - unfold same_string in Hk. by apply bool_decide_eq_true in Hk.
Qed.

(** X10.  The keys [getProjectApiKeys] returns are the keys of the reply: it
    returns only on an OK response whose body is a list of entries, the
    [anon] key returned is the non-empty key of the first entry named
    [anon], the [service_role] key returned the non-empty key of the first
    entry named [service_role].  When one of the two first entries is
    missing, or carries no key or an empty one, the call fails with its
    could-not-find error, whatever later entries hold. *)
Theorem getProjectApiKeys_returns_the_first_named_keys
    (response : ApiOutcome (list ApiKey.t)) :
  (forall ks, getProjectApiKeys response = Ok ks ->
     exists status text keys,
       response = ApiResponse true status text (Ok keys)
       /\ anon ks ≠ [] /\ service_role ks ≠ []
       /\ (exists pre k post,
             keys = pre ++ k :: post
             /\ Forall (fun x => ApiKey.name x ≠ js "anon") pre
             /\ ApiKey.name k = js "anon" /\ ApiKey.api_key k = Some (anon ks))
       /\ (exists pre k post,
             keys = pre ++ k :: post
             /\ Forall (fun x => ApiKey.name x ≠ js "service_role") pre
             /\ ApiKey.name k = js "service_role"
             /\ ApiKey.api_key k = Some (service_role ks)))
  /\ (forall status text keys,
        response = ApiResponse true status text (Ok keys) ->
        find_api_key (js "anon") keys = None
        \/ find_api_key (js "anon") keys = Some []
        \/ find_api_key (js "service_role") keys = None
        \/ find_api_key (js "service_role") keys = Some [] ->
        getProjectApiKeys response
        = Err (ThrownError
                 (js "Could not find required API keys (anon and service_role)")))
  /\ (forall status text keys a s,
        response = ApiResponse true status text (Ok keys) ->
        find_api_key (js "anon") keys = Some a -> a ≠ [] ->
        find_api_key (js "service_role") keys = Some s -> s ≠ [] ->
        getProjectApiKeys response = Ok {| anon := a; service_role := s |}).
Proof.
  split; [|split].
  - intros ks. unfold getProjectApiKeys.
    destruct response as [e|[] status [text|e'] [keys|e]]; try done.
    all: destruct (find_api_key (js "anon") keys) as [[|a anonKey]|] eqn:Hanon;
      try done.
    all: destruct (find_api_key (js "service_role") keys) as [[|s serviceKey]|]
           eqn:Hsrv; try done.
    all: intros [= <-]; eexists status, _, keys; cbn [anon service_role].
    all: split; [done|]; split; [done|]; split; [done|].
    all: split; by apply find_api_key_first.
  - intros status text keys -> Hmiss. unfold getProjectApiKeys.
    destruct Hmiss as [-> | [-> | [-> | ->]]]; try done;
      by destruct (find_api_key (js "anon") keys) as [[|a anonKey]|].
  - intros status text keys a s -> Ha Hane Hs Hsne. unfold getProjectApiKeys.
    rewrite Ha, Hs. destruct a; [done|]. by destruct s.
Qed.

Example first_anon_key_wins :
  getProjectApiKeys (ApiResponse true (js "200") (Ok []) (Ok demo_api_keys))
  = Ok {| anon := js "anon-key-1"; service_role := js "service-key-1" |}.
Proof. vm_compute. reflexivity. Qed.

Example empty_first_key_fails_the_call :
  getProjectApiKeys
    (ApiResponse true (js "200") (Ok [])
       (Ok ({| ApiKey.name := js "anon"; ApiKey.api_key := Some [] |}
            :: demo_api_keys)))
  = Err (ThrownError (js "Could not find required API keys (anon and service_role)")).
Proof. vm_compute. reflexivity. Qed.

(** ** The classifier's reply *)

Lemma from_first_spec (c : N) (s rest : jsstring) :
  from_first c s = Some rest <-> exists pre, s = pre ++ c :: rest /\ c ∉ pre.
Proof.
  revert rest. induction s as [|x s IH]; intros rest.
  - split; [done|]. intros (pre & Hs & _). by destruct pre.
  - cbn [from_first]. destruct (N.eqb_spec x c) as [->|Hne].
    + split.
      * intros [= <-]. exists []. split; [done|]. apply not_elem_of_nil.
      * intros (pre & Hs & Hpre). destruct pre as [|y pre].
        -- by injection Hs as <-.
        -- injection Hs as <- _. destruct Hpre. by left.
    + rewrite IH. split.
      * intros (pre & -> & Hpre). exists (x :: pre). split; [done|].
        by apply not_elem_of_cons.
      * intros (pre & Hs & Hpre). destruct pre as [|y pre].
        -- by injection Hs as ->.
        -- injection Hs as <- ->. exists pre. split; [done|].
           by apply not_elem_of_cons in Hpre as [_ ?].
Qed.

Lemma from_first_none (c : N) (s : jsstring) : from_first c s = None <-> c ∉ s.
Proof.
  induction s as [|x s IH]; [split; [intros _; apply not_elem_of_nil|done]|].
  cbn [from_first]. destruct (N.eqb_spec x c) as [->|Hne].
  - split; [done|]. intros Hc. destruct Hc. by left.
  - rewrite IH, not_elem_of_cons. split; [by split|by intros [_ ?]].
Qed.

(** X11.  The text [analyzeWithAI] hands to [JSON.parse] is the span of the
    reply from its first opening brace to its last closing brace: the
    pattern matches exactly when a closing brace follows the first opening
    brace, the match then starts at that first opening brace and ends at the
    last closing brace of the reply; otherwise there is no match (and no
    annotation). *)
Theorem match_braces_spans_first_to_last (text : jsstring) :
  (forall m,
     match_braces text = Some m <->
     exists pre inner post,
       text = pre ++ [123] ++ inner ++ [125] ++ post
       /\ (123 ∉ pre) /\ (125 ∉ post) /\ m = [123] ++ inner ++ [125])
  /\ (match_braces text = None <->
      forall pre rest, text = pre ++ [123] ++ rest -> 125 ∉ rest).
Proof.
  split.
  - intros m. unfold match_braces. split.
    + destruct (from_first 123 text) as [rest|] eqn:Hopen; [|done].
      destruct (from_first 125 (reverse rest)) as [inner|] eqn:Hclose; [|done].
      intros [= <-].
      apply from_first_spec in Hopen as (pre & -> & Hpre).
      apply from_first_spec in Hclose as (q & Hrest & Hq).
      apply (f_equal reverse) in Hrest.
      rewrite reverse_involutive, reverse_app, reverse_cons in Hrest.
      exists pre, (reverse inner), (reverse q). subst rest.
      split; [by rewrite <- !app_assoc|]. split; [done|].
      split; [by rewrite elem_of_reverse|done].
    + intros (pre & inner & post & -> & Hpre & Hpost & ->).
      assert (Hopen : from_first 123 (pre ++ [123] ++ inner ++ [125] ++ post)
                      = Some (inner ++ [125] ++ post))
        by (apply from_first_spec; by exists pre).
      rewrite Hopen.
      assert (Hclose : from_first 125 (reverse (inner ++ [125] ++ post))
                       = Some (reverse inner)).
      { apply from_first_spec. exists (reverse post).
        split; [|by rewrite elem_of_reverse].
        rewrite !reverse_app. cbn. by rewrite <- !app_assoc. }
      by rewrite Hclose, reverse_involutive.
  - unfold match_braces. split.
    + intros Hnone pre rest ->.
      destruct (from_first 123 (pre ++ [123] ++ rest)) as [rest'|] eqn:Hopen.
      * destruct (from_first 125 (reverse rest')) eqn:Hclose; [done|].
        apply from_first_none in Hclose. rewrite elem_of_reverse in Hclose.
        apply from_first_spec in Hopen as (pre' & Heq & Hpre').
        intros Hin. apply Hclose.
        assert (Hsuffix : exists mid, rest' = mid ++ rest).
        { clear -Heq Hpre'. revert pre' Heq Hpre'.
          induction pre as [|x pre IH]; intros pre' Heq Hpre'.
          - destruct pre' as [|y pre'].
            + injection Heq as <-. by exists [].
            + injection Heq as <- _. destruct Hpre'. by left.
          - destruct pre' as [|y pre'].
            + injection Heq as -> <-.
              exists (pre ++ [123]). by rewrite <- app_assoc.
            + injection Heq as <- Heq. apply (IH pre'); [done|].
              by apply not_elem_of_cons in Hpre' as [_ ?]. }
        destruct Hsuffix as [mid ->]. apply elem_of_app. by right.
      * apply from_first_none in Hopen. destruct Hopen.
        apply elem_of_app. right. by left.
    + intros Hall.
      destruct (from_first 123 text) as [rest|] eqn:Hopen; [|done].
      destruct (from_first 125 (reverse rest)) as [inner|] eqn:Hclose; [|done].
      apply from_first_spec in Hopen as (pre & -> & Hpre).
      apply from_first_spec in Hclose as (q & Hrest & Hq).
      destruct (Hall pre rest eq_refl).
      rewrite <- elem_of_reverse, Hrest. apply elem_of_app. right. by left.
Qed.

Example payload_between_prose :
  match_braces (js "Sure: {a:{b:1}} and } more")
  = Some (js "{a:{b:1}} and }")
  /\ match_braces (js "} no payload {") = None.
Proof. vm_compute. split; reflexivity. Qed.

(** ** The probing loop: every table is read once *)

Section ReadsSent.
Context (tg : Target) (anthropic : option Anthropic).
Context (tableRlsStatus : gmap jsstring bool) (tablesToScan : list jsstring).

Lemma filter_started_all (l : list Event) :
  Forall (fun e => is_started e = true) l ->
  filter (fun e => is_started e = true) l = l.
Proof.
  induction 1 as [|e l He _ IH]; [done|]. by rewrite filter_cons_True, IH.
Qed.

(** The reads sent so far are those of the tables up to [reads_sent], each
    sent once, in catalog order. *)
Lemma started_step (c : nat) (lp lp' : Loop) :
  loop_shape tablesToScan lp ->
  filter (fun e => is_started e = true) (history lp)
    = reverse (ProbeStarted <$> seq 0 (reads_sent tablesToScan lp)) ->
  step tg anthropic tableRlsStatus tablesToScan c lp = Some lp' ->
  filter (fun e => is_started e = true) (history lp')
    = reverse (ProbeStarted <$> seq 0 (reads_sent tablesToScan lp')).
Proof.
  intros (Hmod & Hlen & Hact & Hmax) Hinv Hstep.
  destruct (step_cases _ _ _ _ _ _ _ Hstep) as [(Hfl & Hi & ->)|(k & t & Hk & ->)].
  - pose proof (start_chunk_in_flight tablesToScan lp Hi) as Hne.
    unfold reads_sent in *. rewrite Hfl in Hinv.
    destruct (in_flight (start_chunk tablesToScan lp)) as [|t0 fl] eqn:Hst; [done|].
    unfold start_chunk. cbn [history loop_i].
    rewrite filter_app, filter_reverse, Hinv.
    rewrite (imap_seq _ ProbeStarted).
    rewrite filter_started_all
      by (apply Forall_fmap, Forall_forall; by intros j _).
    rewrite length_take, length_drop.
    replace ((loop_i lp + CONCURRENCY_LIMIT) `min` length tablesToScan)%nat
      with (loop_i lp
            + CONCURRENCY_LIMIT `min` (length tablesToScan - loop_i lp))%nat
      by (unfold CONCURRENCY_LIMIT; lia).
    rewrite (Nat.min_l (loop_i lp)) by lia.
    by rewrite seq_app, fmap_app, reverse_app.
  - rewrite (resume_unfold _ _ _ _ _ _ Hk). cbn zeta.
    assert (Hi : (loop_i lp < length tablesToScan)%nat)
      by (apply Hact; intros Hnil; by rewrite Hnil in Hk).
    assert (Hev : filter (fun e => is_started e = true)
                    (scanTable_resume tg anthropic tableRlsStatus t).2 = []).
    { rewrite resumed_events. by destruct (awaiting_read t). }
    unfold reads_sent in *. cbn [history in_flight loop_i].
    rewrite filter_app, Hev, Hinv. cbn [app].
    destruct (in_flight lp) as [|t0 fl] eqn:Hfl; [done|].
    by destruct (take k (t0 :: fl) ++ _ ++ _).
Qed.

Lemma reachable_started (lp : Loop) :
  reachable tg anthropic tableRlsStatus tablesToScan lp ->
  filter (fun e => is_started e = true) (history lp)
    = reverse (ProbeStarted <$> seq 0 (reads_sent tablesToScan lp)).
Proof.
  induction 1 as [|lp c lp' Hlp IH Hstep]; [done|].
  eapply started_step; [|done..]. by eapply reachable_shape.
Qed.

End ReadsSent.

(** X12.  Under every order in which the event loop settles the promises,
    the probing loop of [scanProject] comes to its end within three turns
    per table (and one), and when it has ended every table to scan has been
    read exactly once: the reads were sent one per table, in catalog order,
    every read has settled, each exactly once, and none is left in flight. *)
Theorem every_table_is_read_once (tg : Target) (anthropic : option Anthropic)
    (tableRlsStatus : gmap jsstring bool) (tablesToScan : list jsstring)
    (sched : nat -> nat) :
  let lp := probe_all tg anthropic tableRlsStatus tablesToScan sched in
  in_flight lp = []
  /\ (forall choice, step tg anthropic tableRlsStatus tablesToScan choice lp = None)
  /\ filter (fun e => is_started e = true) (reverse (history lp))
     = ProbeStarted <$> seq 0 (length tablesToScan)
  /\ filter (fun e => is_settled e = true) (history lp)
     ≡ₚ ProbeSettled <$> seq 0 (length tablesToScan)
  /\ reads_in_flight (history lp) = 0%Z.
Proof.
  intros lp.
  pose proof (probe_all_reachable tg anthropic tableRlsStatus tablesToScan sched)
    as Hlp. fold lp in Hlp.
  destruct (probe_all_ends tg anthropic tableRlsStatus tablesToScan sched)
    as [Hfl Hi]. fold lp in Hfl, Hi.
  destruct (reachable_history _ _ _ _ _ Hlp) as (_ & _ & Hdone & _ & Hcount).
  pose proof (reachable_started _ _ _ _ _ Hlp) as Hsent.
  unfold reads_sent in Hsent. rewrite Hfl in Hsent, Hcount.
  rewrite Nat.min_r in Hsent by done.
  split; [done|]. split.
  { intros choice. unfold step. rewrite Hfl.
    by rewrite (proj2 (Nat.ltb_ge _ _) Hi). }
  split; [by rewrite filter_reverse, Hsent, reverse_involutive|].
  split; [|done].
  symmetry. apply submseteq_length_Permutation.
  - apply NoDup_submseteq.
    + apply NoDup_fmap_2; [by intros x y [= ->]|apply NoDup_seq].
    + intros e (k & -> & Hk)%list_elem_of_fmap. apply elem_of_seq in Hk.
      apply list_elem_of_filter. split; [done|]. apply Hdone; lia.
  - unfold reads_in_flight in Hcount. cbn [filter list_filter length] in Hcount.
    rewrite Hsent, length_reverse, !length_fmap, !length_seq in Hcount.
    rewrite length_fmap, length_seq. lia.
Qed.

Example three_tables_three_reads :
  let lp := probe_all demo_target None (rls_map demo_catalog)
              (table_name <$> demo_catalog) youngest_first in
  reverse (history lp)
  = [CatalogDone; ProbeStarted 0; ProbeStarted 1; ProbeStarted 2;
     ProbeSettled 2; FindingPushed 2; ProbeSettled 1; FindingPushed 1;
     ProbeSettled 0].
Proof. vm_compute. reflexivity. Qed.

(** ** The cap on the tables scanned *)



Example negative_cap_drops_the_last_table :
  tables_to_scan negative_cap demo_catalog = [js "orders"; js "profiles"]
  /\ ScanResult.summary (scanProject demo_target negative_cap oldest_first)
     = {| total_tables := 2; vulnerable_tables := 1; secure_tables := 1 |}.
Proof. vm_compute. split; reflexivity. Qed.

(** ** The authorization route: PKCE parameters *)

Lemma b64url_value_char (n : N) : n < 64 -> Base64.value (Base64url.char n) = Some n.
Proof.
  intros Hn. unfold Base64.value, Base64url.char.
  cmp_tac; simpl; f_equal; dlia.
Qed.

Lemma b64url_char_unreserved (n : N) : n < 64 -> unreserved (Base64url.char n) = true.
Proof.
  intros Hn.
  assert (Hall : forallb (fun k => unreserved (Base64url.char (N.of_nat k)))
                   (seq 0 64) = true) by (vm_compute; reflexivity).
  rewrite forallb_forall in Hall. specialize (Hall (N.to_nat n)).
  rewrite N2Nat.id in Hall. apply Hall, in_seq. lia.
Qed.

(** Node's base64 decoder reads the URL-safe form back. *)
Lemma base64_decode_url (bs : Buffer) : Base64.decode (Base64url.encode bs) = bs.
Proof.
  unfold Base64.decode.
  remember (length bs) as n eqn:Hlen.
  revert bs Hlen. induction (lt_wf n) as [n _ IH]. intros bs ->.
  destruct bs as [|a [|b [|c rest]]]; [done|..].
  - pose proof (to_N_lt a). cbn [Base64url.encode Base64.sextets].
    rewrite !b64url_value_char by dlia. cbn. f_equal. apply u8_eq. dlia.
  - pose proof (to_N_lt a). pose proof (to_N_lt b).
    cbn [Base64url.encode Base64.sextets].
    rewrite !b64url_value_char by dlia. cbn.
    f_equal; [|f_equal]; apply u8_eq; dlia.
  - pose proof (to_N_lt a). pose proof (to_N_lt b). pose proof (to_N_lt c).
    cbn [Base64url.encode Base64.sextets app].
    rewrite !b64url_value_char by dlia. cbn [Base64.groups app].
    rewrite (IH (length rest)) by (cbn; lia || done).
    f_equal; [|f_equal; [|f_equal]]; apply u8_eq; dlia.
Qed.

Lemma base64url_length (bs : Buffer) :
  length (Base64url.encode bs) = ((4 * length bs + 2) / 3)%nat.
Proof.
  remember (length bs) as n eqn:Hlen.
  revert bs Hlen. induction (lt_wf n) as [n _ IH]. intros bs ->.
  destruct bs as [|a [|b [|c rest]]]; [done..|].
  cbn [Base64url.encode length app].
  rewrite (IH (length rest)) by (cbn; lia || done). nat_div.
Qed.

Lemma base64url_unreserved (bs : Buffer) :
  Forall (fun c => unreserved c = true) (Base64url.encode bs).
Proof.
  remember (length bs) as n eqn:Hlen.
  revert bs Hlen. induction (lt_wf n) as [n _ IH]. intros bs ->.
  destruct bs as [|a [|b [|c rest]]]; [constructor|..].
  - pose proof (to_N_lt a). cbn [Base64url.encode].
    repeat (constructor; [apply b64url_char_unreserved; dlia|]). constructor.
  - pose proof (to_N_lt a). pose proof (to_N_lt b). cbn [Base64url.encode].
    repeat (constructor; [apply b64url_char_unreserved; dlia|]). constructor.
  - pose proof (to_N_lt a). pose proof (to_N_lt b). pose proof (to_N_lt c).
    cbn [Base64url.encode app].
    repeat (constructor; [apply b64url_char_unreserved; dlia|]).
    apply (IH (length rest)); [cbn; lia|done].
Qed.

(** X14.  The PKCE parameters of the authorization route are what the
    protocol asks for.  The code verifier has 43 characters, all of them
    unreserved URL characters, and decodes to the 32 random bytes it was
    made from, so that distinct draws give distinct verifiers; the state
    nonce has 22 such characters and decodes to its 16 random bytes; the
    code challenge has 43 such characters and decodes to the SHA-256 digest
    of the verifier. *)
Theorem pkce_parameters_are_url_safe (sha256 : Buffer -> Buffer)
    (random32 random16 : Buffer) :
  (forall message, length (sha256 message) = 32%nat) ->
  length random32 = 32%nat -> length random16 = 16%nat ->
  let verifier := generateCodeVerifier random32 in
  let challenge := generateCodeChallenge sha256 verifier in
  let state := generateState random16 in
  length verifier = 43%nat /\ length challenge = 43%nat /\ length state = 22%nat
  /\ Forall (fun c => unreserved c = true) (verifier ++ challenge ++ state)
  /\ Base64.decode verifier = random32
  /\ Base64.decode state = random16
  /\ Base64.decode challenge = sha256 (Utf8.encode verifier)
  /\ (forall other, length other = 32%nat ->
        generateCodeVerifier other = verifier -> other = random32).
Proof.
  intros Hsha H32 H16 verifier challenge state.
  subst verifier challenge state.
  unfold generateCodeVerifier, generateCodeChallenge, generateState.
  rewrite !base64url_length, Hsha, H32, H16, !base64_decode_url.
  split; [done|]. split; [done|]. split; [done|].
  split; [|split; [done|split; [done|split; [done|]]]].
  - rewrite !Forall_app. split_and!; apply base64url_unreserved.
  - intros other _ Heq. apply (f_equal Base64.decode) in Heq.
    by rewrite !base64_decode_url in Heq.
Qed.

Lemma pkce_parameters_are_url_safe_witness :
  let verifier := generateCodeVerifier (replicate 32 xff) in
  let challenge := generateCodeChallenge toy_sha256 verifier in
  let state := generateState demo_iv in
  length verifier = 43%nat /\ length challenge = 43%nat /\ length state = 22%nat
  /\ Forall (fun c => unreserved c = true) (verifier ++ challenge ++ state)
  /\ Base64.decode verifier = replicate 32 xff
  /\ Base64.decode state = demo_iv
  /\ Base64.decode challenge = toy_sha256 (Utf8.encode verifier)
  /\ (forall other, length other = 32%nat ->
        generateCodeVerifier other = verifier -> other = replicate 32 xff).
Proof.
  apply (pkce_parameters_are_url_safe toy_sha256 (replicate 32 xff) demo_iv);
    [intros message; apply length_resize|reflexivity|reflexivity].
Defined.

Example verifier_of_all_ones :
  generateCodeVerifier (replicate 32 xff)
  = js "__________________________________________8"
  /\ generateState demo_iv = js "oKGio6SlpqeoqaqrrK2urw".
Proof. vm_compute. split; reflexivity. Qed.

(** ** The direct scan route *)

(** The loop from any state with fewer than ten tables tested. *)
Lemma scan_tables_spec (ds : DirectScan) (tables : list TableRow) (st : Scanned) :
  Forall (fun row => is_Some (row_table_name row)) tables ->
  (scannedCount st < 10)%nat ->
  let read :=
    take (10 - scannedCount st)
      (filter (fun name => is_system_table name = false)
         (omap row_table_name tables)) in
  scan_tables ds tables st
  = Ok {| scannedCount := scannedCount st + length read;
          pushed := pushed st ++ omap (route_finding ds) read;
          tables_read := tables_read st ++ read |}.
Proof.
  intros Hnamed. revert st.
  induction Hnamed as [|row tables [name Hname] _ IH]; intros st Hcount.
  - cbn. rewrite take_nil. cbn. rewrite Nat.add_0_r, !app_nil_r. by destruct st.
  - cbn [scan_tables omap list_omap]. rewrite Hname. cbn [option_ret option_bind].
    destruct (is_system_table name) eqn:Hsys.
    + rewrite filter_cons_False by (by rewrite Hsys). by apply IH.
    + rewrite filter_cons_True by done. cbn [scannedCount].
      destruct (10 - scannedCount st)%nat as [|budget] eqn:Hbudget; [lia|].
      cbn [take length omap list_omap].
      destruct (Nat.leb_spec 10 (S (scannedCount st))) as [Hfull|Hmore].
      * assert (budget = 0%nat) as -> by lia. rewrite take_0.
        cbn [length omap list_omap app]. f_equal.
        f_equal; first [lia | by destruct (route_finding ds name)].
      * rewrite IH by (cbn; lia). cbn [scannedCount pushed tables_read].
        replace (10 - S (scannedCount st))%nat with budget by lia.
        f_equal.
        f_equal; first [lia | by rewrite <- app_assoc
                       | rewrite <- app_assoc; f_equal;
                         by destruct (route_finding ds name)].
Qed.

Lemma route_findings_tables (ds : DirectScan) (names : list jsstring) :
  Vulnerability.table <$> omap (route_finding ds) names
  = filter (fun name => is_exposed (ds_anon_read ds name) = true) names.
Proof.
  induction names as [|name names IH]; [done|].
  cbn [omap list_omap]. unfold route_finding at 1.
  destruct (exposed_row (ds_anon_read ds name)) as [row|] eqn:Hrow.
  - rewrite filter_cons_True by (unfold is_exposed; by rewrite Hrow).
    cbn [fmap list_fmap Vulnerability.table]. by rewrite <- IH.
  - rewrite filter_cons_False by (unfold is_exposed; by rewrite Hrow). apply IH.
Qed.

(** X15.  The direct scan route tests the first ten tables of the reply that
    are not system tables (names starting with [_] or [pg_]), one after the
    other in the order of the reply, and no other table.  Its answer lists
    the findings of these tables in that same order; the summary counts the
    tables tested (never more than ten), the findings, and their
    difference, which is never negative. *)
Theorem direct_scan_tests_the_first_ten_user_tables (ds : DirectScan)
    (body : ScanRequest) (tables : list TableRow) :
  req_url body ≠ [] -> req_serviceKey body ≠ [] -> req_anonKey body ≠ [] ->
  ds_createClient_throws ds = None ->
  ds_get_public_tables ds = Ok (Some tables) -> tables ≠ [] ->
  Forall (fun row => is_Some (row_table_name row)) tables ->
  let tested :=
    take 10 (filter (fun name => is_system_table name = false)
               (omap row_table_name tables)) in
  let findings := omap (route_finding ds) tested in
  POST_scan ds (Ok body)
  = (ScanDone
       {| ScanResult.success := true;
          ScanResult.vulnerabilities := findings;
          ScanResult.summary :=
            {| total_tables := Z.of_nat (length tested);
               vulnerable_tables := Z.of_nat (length findings);
               secure_tables :=
                 (Z.of_nat (length tested) - Z.of_nat (length findings))%Z |};
          ScanResult.error := None |},
     tested)
  /\ (length tested <= 10)%nat
  /\ (length findings <= length tested)%nat
  /\ Vulnerability.table <$> findings
     = filter (fun name => is_exposed (ds_anon_read ds name) = true) tested
  /\ Forall (fun name => is_system_table name = false) tested.
Proof.
  intros Hurl Hservice Hanon Hclient Htables Hne Hnamed tested findings.
  split; [|split; [|split; [|split]]].
  - unfold POST_scan.
    destruct (req_url body) as [|u url]; [done|].
    destruct (req_serviceKey body) as [|s serviceKey]; [done|].
    destruct (req_anonKey body) as [|a anonKey]; [done|].
    rewrite Hclient, Htables. destruct tables as [|row tables]; [done|].
    rewrite scan_tables_spec by (done || (cbn; lia)).
    by cbn [scannedCount pushed tables_read app Nat.add Nat.sub].
  - subst tested. rewrite length_take. lia.
  - subst findings. apply omap_length_le.
  - apply route_findings_tables.
  - subst tested. apply Forall_take, Forall_forall.
    by intros name [Hname _]%list_elem_of_filter.
Qed.

Lemma direct_scan_tests_the_first_ten_user_tables_witness :
  let tables :=
    RowString (js "_migrations") :: RowObject (Some (JString (js "pg_stat")))
    :: ((fun k => RowObject (Some (JString (js "t" ++ js (pretty k)))))
          <$> seq 0 12) in
  let tested :=
    take 10 (filter (fun name => is_system_table name = false)
               (omap row_table_name tables)) in
  let findings := omap (route_finding demo_direct_scan) tested in
  POST_scan demo_direct_scan demo_request
  = (ScanDone
       {| ScanResult.success := true;
          ScanResult.vulnerabilities := findings;
          ScanResult.summary :=
            {| total_tables := Z.of_nat (length tested);
               vulnerable_tables := Z.of_nat (length findings);
               secure_tables :=
                 (Z.of_nat (length tested) - Z.of_nat (length findings))%Z |};
          ScanResult.error := None |},
     tested)
  /\ (length tested <= 10)%nat
  /\ (length findings <= length tested)%nat
  /\ Vulnerability.table <$> findings
     = filter (fun name => is_exposed (ds_anon_read demo_direct_scan name) = true)
         tested
  /\ Forall (fun name => is_system_table name = false) tested.
Proof.
  apply (direct_scan_tests_the_first_ten_user_tables demo_direct_scan
           {| req_url := js "https://p.supabase.co"; req_serviceKey := js "service";
              req_anonKey := js "anon" |});
    [discriminate|discriminate|discriminate|reflexivity|reflexivity|discriminate|].
  repeat constructor; by eexists.
Defined.

Example direct_scan_of_twelve_tables :
  (POST_scan demo_direct_scan demo_request).2
  = [js "t0"; js "t1"; js "t2"; js "t3"; js "t4"; js "t5"; js "t6"; js "t7";
     js "t8"; js "t9"]
  /\ match (POST_scan demo_direct_scan demo_request).1 with
     | ScanDone body =>
         ScanResult.summary body
         = {| total_tables := 10; vulnerable_tables := 10; secure_tables := 0 |}
     | _ => False
     end.
Proof. vm_compute. split; reflexivity. Qed.

Example direct_scan_stops_at_a_nameless_row :
  (POST_scan
     {| ds_createClient_throws := None; ds_ANTHROPIC_API_KEY := None;
        ds_get_public_tables := Ok (Some [RowString (js "a"); RowObject None]);
        ds_anon_read := fun _ => ProbeThrows;
        ds_classifier := fun _ _ _ => AiThrows;
        ds_JSON_parse := fun _ => None |} demo_request).1
  = ServerError (js "Cannot read properties of undefined (reading 'startsWith')").
Proof. vm_compute. reflexivity. Qed.

Example direct_scan_stops_at_a_null_row :
  (POST_scan
     {| ds_createClient_throws := None; ds_ANTHROPIC_API_KEY := None;
        ds_get_public_tables := Ok (Some [RowString (js "a"); RowNull]);
        ds_anon_read := fun _ => ProbeThrows;
        ds_classifier := fun _ _ _ => AiThrows;
        ds_JSON_parse := fun _ => None |} demo_request).1
  = ServerError (js "Cannot read properties of null (reading 'table_name')").
Proof. vm_compute. reflexivity. Qed.

(** ** The scan route of a connected project *)

Lemma found_critical (tg : Target) (anthropic : option Anthropic)
    (tableRlsStatus : gmap jsstring bool) (tablesToScan : list jsstring)
    (sched : nat -> nat) :
  Forall (fun v => Vulnerability.severity v = critical)
    (found (probe_all tg anthropic tableRlsStatus tablesToScan sched)).
Proof.
  rewrite findings_perm. apply Forall_forall. intros v Hv.
  apply list_elem_of_omap in Hv as (name & _ & Hv).
  unfold finding_of in Hv. destruct (exposed_row _); [|done].
  by injection Hv as <-.
Qed.

Lemma scanProject_critical (tg : Target) (options : Options) (sched : nat -> nat) :
  Forall (fun v => Vulnerability.severity v = critical)
    (ScanResult.vulnerabilities (scanProject tg options sched)).
Proof.
  unfold scanProject. destruct (createClient_throws tg); [by constructor|].
  destruct (executeQuery tg) as [[| |rows|fields|]|e]; try by constructor.
  2:{ destruct (length_is_zero fields); by constructor. }
  destruct rows as [|row rows]; [by constructor|]. apply found_critical.
Qed.

Lemma scanProject_counts (tg : Target) (options : Options) (sched : nat -> nat) :
  let result := scanProject tg options sched in
  let s := ScanResult.summary result in
  vulnerable_tables s = Z.of_nat (length (ScanResult.vulnerabilities result))
  /\ (total_tables s = vulnerable_tables s + secure_tables s)%Z
  /\ (0 <= secure_tables s)%Z
  /\ ((0 <= default 10 (maxTables options))%Z ->
      (total_tables s <= default 10 (maxTables options))%Z).
Proof.
  cbn zeta. unfold scanProject.
  destruct (createClient_throws tg); [cbn; lia|].
  destruct (executeQuery tg) as [[| |rows|fields|]|e]; try (cbn; lia).
  2:{ destruct (length_is_zero fields); cbn; lia. }
  destruct rows as [|r rows]; [cbn; lia|].
  cbn [ScanResult.summary ScanResult.vulnerabilities total_tables
       vulnerable_tables secure_tables].
  pose proof (found_length_le tg (anthropic_client tg options)
                (rls_map (r :: rows)) (tables_to_scan options (r :: rows)) sched).
  split; [done|]. split; [lia|]. split; [lia|]. intros Hcap.
  pose proof (slice_length_le (table_name <$> r :: rows) _ Hcap).
  unfold tables_to_scan in *. lia.
Qed.

(** X16.  The record the scan route stores is consistent.  For the scan the
    route runs (cap 50, AI enabled), the stored count of vulnerabilities is
    the number of stored vulnerabilities and the vulnerable count of the
    stored summary; the summary's total is at most 50 and is the sum of its
    vulnerable and secure counts, neither negative; the stored
    vulnerabilities are those of the scan, in its order, every one with
    severity [critical] and the route's recommendation text for its table;
    and the insight line speaks of as many issues as tables, or, with no
    finding, of all tables of the total. *)
Theorem stored_scan_record_is_consistent (tg : Target) (sched : nat -> nat)
    (project_id user_id : jsstring) (date : Z) :
  let scanResult := scanProject tg scan_route_options sched in
  let record := scan_record project_id user_id date scanResult in
  let s := sr_summary record in
  sr_vulnerabilities_found record = Z.of_nat (length (sr_vulnerabilities record))
  /\ sr_vulnerabilities_found record = vulnerable_tables s
  /\ (total_tables s = vulnerable_tables s + secure_tables s)%Z
  /\ (0 <= vulnerable_tables s)%Z /\ (0 <= secure_tables s)%Z
  /\ (total_tables s <= 50)%Z
  /\ StoredVulnerability.table <$> sr_vulnerabilities record
     = Vulnerability.table <$> ScanResult.vulnerabilities scanResult
  /\ Forall (fun v =>
       StoredVulnerability.severity v = js "critical"
       /\ StoredVulnerability.recommendation v
          = js "Enable RLS on the " ++ StoredVulnerability.table v
            ++ js " table and create appropriate policies")
       (sr_vulnerabilities record)
  /\ sr_ai_insights record
     = (if (vulnerable_tables s =? 0)%Z
        then js "All " ++ js (pretty (total_tables s))
             ++ js " tables are properly secured with Row Level Security."
        else js "Found " ++ js (pretty (Z.to_nat (vulnerable_tables s)))
             ++ js " security issue(s) across "
             ++ js (pretty (vulnerable_tables s)) ++ js " table(s). "
             ++ js (pretty (total_tables s - vulnerable_tables s)%Z)
             ++ js " table(s) are properly secured with RLS.").
Proof.
  intros scanResult record s.
  destruct (scanProject_counts tg scan_route_options sched)
    as (Hfound & Hsum & Hsecure & Hcap).
  fold scanResult in Hfound, Hsum, Hsecure, Hcap.
  change (ScanResult.summary scanResult) with s in Hfound, Hsum, Hsecure, Hcap.
  pose proof (scanProject_critical tg scan_route_options sched) as Hcrit.
  fold scanResult in Hcrit.
  split; [subst record; cbn; by rewrite length_fmap|].
  split; [by rewrite Hfound|]. split; [done|]. split; [lia|]. split; [done|].
  split; [apply Hcap; by cbn|]. split.
  { subst record. cbn [sr_vulnerabilities scan_record].
    rewrite <- list_fmap_compose. by apply list_fmap_ext. }
  split.
  { subst record. cbn [sr_vulnerabilities scan_record].
    apply Forall_fmap. eapply Forall_impl; [exact Hcrit|].
    intros v Hv. cbn. by rewrite Hv. }
  subst record. cbn [sr_ai_insights scan_record]. unfold aiInsights.
  change (ScanResult.summary scanResult) with s.
  assert (Hsec : secure_tables s = (total_tables s - vulnerable_tables s)%Z) by lia.
  rewrite Hsec, Hfound. clear Hsec Hsum Hsecure Hcap Hfound Hcrit.
  destruct (ScanResult.vulnerabilities scanResult) as [|v vs]; [done|].
  cbn [length]. rewrite Nat2Z.id.
  replace (Z.of_nat (S (length vs)) =? 0)%Z with false
    by (symmetry; apply Z.eqb_neq; lia).
  done.
Qed.

Example scan_record_of_the_sample_project :
  let record := scan_record (js "p-1") (js "user-1") 1700000000000
                  (scanProject demo_target scan_route_options oldest_first) in
  sr_ai_insights record
  = js "Found 2 security issue(s) across 2 table(s). 1 table(s) are properly secured with RLS."
  /\ StoredVulnerability.severity <$> sr_vulnerabilities record
     = [js "critical"; js "critical"].
Proof. vm_compute. split; reflexivity. Qed.

(** ** The OAuth state *)

Lemma well_formed_cons (u : N) (rest : jsstring) :
  Utf8.well_formed (u :: rest)
  = if Utf8.is_high u then
      match rest with
      | lo :: rest' => Utf8.is_low lo && Utf8.well_formed rest'
      | [] => false
      end
    else negb (Utf8.is_low u) && (u <? 0x10000) && Utf8.well_formed rest.
Proof. reflexivity. Qed.

Lemma well_formed_app (a b : jsstring) :
  Utf8.well_formed a = true -> Utf8.well_formed b = true ->
  Utf8.well_formed (a ++ b) = true.
Proof.
  remember (length a) as n eqn:Hlen.
  revert a Hlen. induction (lt_wf n) as [n _ IH]. intros a -> Ha Hb.
  destruct a as [|u rest]; [done|].
  change ((u :: rest) ++ b) with (u :: (rest ++ b)).
  rewrite well_formed_cons in Ha |- *. destruct (Utf8.is_high u).
  - destruct rest as [|lo rest']; [done|].
    change ((lo :: rest') ++ b) with (lo :: (rest' ++ b)).
    apply andb_true_iff in Ha as [Hlo Hrest]. rewrite Hlo.
    apply (IH (length rest')); [cbn; lia|done..].
  - apply andb_true_iff in Ha as [Hu Hrest]. rewrite Hu.
    apply (IH (length rest)); [cbn; lia|done..].
Qed.

Lemma hex_digit_ascii (n : N) : Hex.digit (n mod 16) < 0xD800.
Proof. unfold Hex.digit. destruct (N.ltb_spec (n mod 16) 10); dlia. Qed.

Lemma unicode_escape_well_formed (u : N) :
  Utf8.well_formed (unicode_escape u) = true.
Proof.
  apply well_formed_below_surrogates. unfold unicode_escape.
  repeat (constructor; [first [apply hex_digit_ascii | done]|]). constructor.
Qed.

Lemma quote_unit_well_formed (u : N) :
  Utf8.is_high u = false -> Utf8.is_low u = false -> u < 65536 ->
  Utf8.well_formed (quote_unit u) = true.
Proof.
  intros Hhigh Hlow Hu. unfold quote_unit.
  repeat (destruct (_ =? _); [done|]).
  destruct (u <? 32); [apply unicode_escape_well_formed|].
  rewrite well_formed_cons, Hhigh, Hlow. cbn [negb andb Utf8.well_formed].
  rewrite andb_true_r. by apply N.ltb_lt.
Qed.

(** What [JSON.stringify] writes holds no unpaired surrogate. *)
Lemma quote_units_well_formed (s : jsstring) :
  Forall (fun u => u < 65536) s -> Utf8.well_formed (quote_units s) = true.
Proof.
  remember (length s) as n eqn:Hlen.
  revert s Hlen. induction (lt_wf n) as [n _ IH]. intros s -> Hs.
  destruct s as [|u rest]; [done|].
  apply Forall_cons in Hs as [Hu Hrest].
  assert (Htail : Utf8.well_formed (quote_units rest) = true)
    by (apply (IH (length rest)); [cbn; lia|done..]).
  cbn [quote_units]. destruct (Utf8.is_high u) eqn:Hhigh.
  - destruct rest as [|lo rest']; [apply unicode_escape_well_formed|].
    destruct (Utf8.is_low lo) eqn:Hlo.
    + rewrite well_formed_cons, Hhigh, Hlo.
      apply Forall_cons in Hrest as [_ Hrest'].
      apply (IH (length rest')); [cbn; lia|done..].
    + apply well_formed_app; [apply unicode_escape_well_formed|done].
  - destruct (Utf8.is_low u) eqn:Hlow.
    + apply well_formed_app; [apply unicode_escape_well_formed|done].
    + apply well_formed_app; [by apply quote_unit_well_formed|done].
Qed.

Lemma QuoteJSONString_well_formed (s : jsstring) :
  Forall (fun u => u < 65536) s -> Utf8.well_formed (QuoteJSONString s) = true.
Proof.
  intros Hs. unfold QuoteJSONString.
  apply well_formed_app; [done|].
  apply well_formed_app; [by apply quote_units_well_formed|done].
Qed.

Lemma js_units (s : string) : Forall (fun u => u < 65536) (js s).
Proof.
  eapply Forall_impl; [apply js_below_surrogates|]. intros u Hu. cbn in Hu. lia.
Qed.

Lemma base64url_units (bs : Buffer) :
  Forall (fun u => u < 65536) (Base64url.encode bs).
Proof.
  eapply Forall_impl; [apply base64url_unreserved|]. intros c Hc. cbn in Hc.
  unfold unreserved in Hc.
  repeat match type of Hc with
         | (_ || _) = true => apply orb_true_iff in Hc as [Hc|Hc]
         | (_ && _) = true => apply andb_true_iff in Hc as [_ Hc]
         end;
    first [apply N.leb_le in Hc | apply N.eqb_eq in Hc]; lia.
Qed.

(** X17.  The state of the OAuth flow carries the user id through.  The
    authorization route refuses an empty user id and puts the user id, with
    a random nonce, as JSON text in UTF-8 and base64url into the [state];
    the callback route reads the stored state back the same way.  Whatever
    characters the user id holds (quotes, control characters, unpaired
    surrogates), the text arrives as it was written, consists of URL-safe
    characters on the way, and, [JSON.parse] reading back what
    [JSON.stringify] wrote, the callback takes out the very user id the
    authorization route was called with. *)
Theorem oauth_state_carries_the_user_id (JSON_parse : jsstring -> option Json)
    (random16 : Buffer) (userId : jsstring) :
  userId ≠ [] ->
  Forall (fun u => u < 65536) userId ->
  JSON_parse (stringify_state (generateState random16) userId)
    = Some (state_data (generateState random16) userId) ->
  let state := authorize_state random16 userId in
  callback_user_id JSON_parse state = Some (JString userId)
  /\ Utf8.decode (Base64.decode state)
     = stringify_state (generateState random16) userId
  /\ Forall (fun c => unreserved c = true) state.
Proof.
  intros Hne Hunits Hparse state.
  assert (Htext : Utf8.decode (Base64.decode state)
                  = stringify_state (generateState random16) userId).
  { subst state. unfold authorize_state.
    rewrite base64_decode_url. apply utf8_decode_encode.
    unfold stringify_state.
    repeat (apply well_formed_app;
            [first [done | apply QuoteJSONString_well_formed;
                           first [apply js_units | apply base64url_units | done]]|]).
    done. }
  split; [|split; [done|apply base64url_unreserved]].
  unfold callback_user_id. rewrite Htext, Hparse.
  cbn [mbind option_bind state_data Json_get List.find fst snd].
  replace (same_string (js "random") (js "user_id")) with false
    by (vm_compute; reflexivity).
  replace (same_string (js "user_id") (js "user_id")) with true
    by (vm_compute; reflexivity).
  cbn [fmap option_fmap option_map snd mbind option_bind truthy].
  by destruct userId.
Qed.

Lemma oauth_state_carries_the_user_id_witness :
  let state := authorize_state demo_iv odd_user_id in
  callback_user_id
    (toy_JSON_parse (stringify_state (generateState demo_iv) odd_user_id)
       (state_data (generateState demo_iv) odd_user_id)) state
  = Some (JString odd_user_id)
  /\ Utf8.decode (Base64.decode state)
     = stringify_state (generateState demo_iv) odd_user_id
  /\ Forall (fun c => unreserved c = true) state.
Proof.
  apply (oauth_state_carries_the_user_id
           (toy_JSON_parse (stringify_state (generateState demo_iv) odd_user_id)
              (state_data (generateState demo_iv) odd_user_id))
           demo_iv odd_user_id);
    [discriminate|repeat constructor|vm_compute; reflexivity].
Defined.

Example state_text_of_an_odd_user_id :
  stringify_state (js "n0nce") odd_user_id
  = [123; 34] ++ js "random" ++ [34; 58; 34] ++ js "n0nce" ++ [34; 44; 34]
    ++ js "user_id" ++ [34; 58; 34; 117; 92; 34; 92; 110; 92; 117]
    ++ js "d800-1" ++ [34; 125].
Proof. vm_compute. reflexivity. Qed.
